(** * Persistent string maps (string_map.go)

    A verification development for the path-copying hash tree of
    [string_map.go].  The tree is embedded twice:

    - as an inductive value (the first part), where a cloned node is a
      new value and the functional properties (lookup after set, sizes,
      deletion, enumeration, the collision panic) are proved;
    - as nodes in an explicit store addressed by pointers ([Module Heap]),
      where [clone] allocates, field assignments write to the store, and
      persistence is the statement that no write reaches a node that
      existed before the call.

    The last part relates the two: the functions on the store compute
    what the functions on the inductive tree compute.

    The constants [childCount] and [shiftSize] and the digest [hashKey]
    are declared in another file of the package; they are parameters
    here.  [Set] is a reserved word, so the method [Set] is [Set_];
    [String] is the constructor of strings, so the method [String] is
    [String_]. *)

From stdpp Require Import base numbers list strings.
From Stdlib Require Import ZArith NArith Lia.

Local Open Scope Z_scope.

(** ** Results of functions that can panic *)

Inductive result (A : Type) : Type :=
| Ok (a : A)
| Panic (msg : string).
Arguments Ok {A} a.
Arguments Panic {A} msg.

Global Instance result_ret : MRet result := fun A a => Ok a.
Global Instance result_bind : MBind result := fun A B f r =>
  match r with
  | Ok a => f a
  | Panic msg => Panic msg
  end.

(** ** Go's [int] on a 64-bit platform: additions wrap around

    The count of a node is an [int].  The properties about sizes are
    stated for trees whose number of nodes is at most [max_int], which
    holds of every tree that fits in memory. *)

Definition max_int : Z := 2 ^ 63 - 1.

Definition wrap_int (z : Z) : Z := (z + 2 ^ 63) mod 2 ^ 64 - 2 ^ 63.

Definition int_add (x y : Z) : Z := wrap_int (x + y).

(** ** The tree

    [nilMap] is the shared sentinel: the one node whose address is
    compared against.  Its fields are the zero values ([&StringMap{}])
    and [init] makes each of its children the sentinel itself, which is
    what the accessors below return for it.  A [Node] is any other node.
    The fixed-size array [children] is the function from a slot
    [0 .. childCount-1] to the child stored there. *)

Inductive StringMap : Type :=
| nilMap : StringMap
| Node (count : Z) (hash : N) (key value : string)
       (children : nat → StringMap).

Definition count (m : StringMap) : Z :=
  match m with nilMap => 0 | Node c _ _ _ _ => c end.
Definition hash (m : StringMap) : N :=
  match m with nilMap => 0%N | Node _ h _ _ _ => h end.
Definition key (m : StringMap) : string :=
  match m with nilMap => "" | Node _ _ k _ _ => k end.
Definition value (m : StringMap) : string :=
  match m with nilMap => "" | Node _ _ _ v _ => v end.
Definition children (m : StringMap) : nat → StringMap :=
  match m with nilMap => fun _ => nilMap | Node _ _ _ _ ch => ch end.

(** Field assignments [m.count = c], [m.children[i] = t], ...  They are
    only ever applied to the result of [clone]. *)
Definition set_count (m : StringMap) (c : Z) : StringMap :=
  Node c (hash m) (key m) (value m) (children m).
Definition set_hash (m : StringMap) (h : N) : StringMap :=
  Node (count m) h (key m) (value m) (children m).
Definition set_key (m : StringMap) (k : string) : StringMap :=
  Node (count m) (hash m) k (value m) (children m).
Definition set_value (m : StringMap) (v : string) : StringMap :=
  Node (count m) (hash m) (key m) v (children m).
Definition set_child (m : StringMap) (i : nat) (t : StringMap) : StringMap :=
  Node (count m) (hash m) (key m) (value m)
       (fun j => if decide (j = i) then t else children m j).

Definition NewStringMap : StringMap := nilMap.

Definition IsNil (self : StringMap) : bool :=
  match self with nilMap => true | Node _ _ _ _ _ => false end.

(** [clone] returns a duplicate of a node: a node that is not the
    sentinel, with the fields of [self]. *)
Definition clone (self : StringMap) : StringMap :=
  Node (count self) (hash self) (key self) (value self) (children self).

Definition Size (m : StringMap) : Z := count m.

Definition isLeaf (m : StringMap) : bool := bool_decide (Size m = 1).

Definition collision_message (k1 k2 : string) : string :=
  "Hash collision between: '" +:+ k1 +:+ "' and '" +:+ k2 +:+
  "'.  Please report to https://github.com/mndrix/ps/issues/new".

Definition no_children_message : string :=
  "Tree isn't a leaf but also had no children. How does that happen?".

Definition index_message : string := "runtime error: index out of range".

Definition negative_len_message : string :=
  "runtime error: makeslice: len out of range".

Section StringMap.

(** The branching factor, the number of digest bits consumed per level
    and the digest of a key. *)
Variable childCount : nat.
Variable shiftSize : N.
Variable hashKey : string → N.

(** [partialHash % childCount] *)
Definition slot (partialHash : N) : nat :=
  N.to_nat (partialHash mod N.of_nat childCount).

(** [for _, t := range m.children] *)
Definition slots : list nat := seq 0 childCount.

(** [count := 0; for _, t := range m.children { count += t.Size() };
    m.count = count + 1] *)
Definition recalculateCount (m : StringMap) : StringMap :=
  let count :=
    fold_left (fun count j => int_add count (Size (children m j))) slots 0 in
  set_count m (int_add count 1).

Fixpoint setLowLevel (self : StringMap) (partialHash hash : N)
    (key value : string) : result StringMap :=
  match self with
  | nilMap =>
      let m := clone self in
      let m := set_count m 1 in
      let m := set_hash m hash in
      let m := set_key m key in
      let m := set_value m value in
      Ok m
  | Node _ self_hash self_key _ self_children =>
      if decide (hash ≠ self_hash) then
        let m := clone self in
        let i := slot partialHash in
        t ← setLowLevel (self_children i) (N.shiftr partialHash shiftSize)
              hash key value;
        let m := set_child m i t in
        Ok (recalculateCount m)
      else if decide (key ≠ self_key) then
        Panic (collision_message self_key key)
      else
        let m := clone self in
        Ok (set_value m value)
  end.

Definition Set_ (self : StringMap) (key value : string) : result StringMap :=
  let hash := hashKey key in
  setLowLevel self hash hash key value.

(** [deleteLeftmost] deletes the leftmost node of a tree and returns the
    deleted node with the tree left over.  On the sentinel (count 0, all
    children the sentinel) the scan finds nothing. *)
Fixpoint deleteLeftmost (m : StringMap) : result (StringMap * StringMap) :=
  if isLeaf m then Ok (m, nilMap)
  else
    match m with
    | nilMap => Panic no_children_message
    | Node _ _ _ _ m_children =>
        match find (fun i => negb (IsNil (m_children i))) slots with
        | Some i =>
            '(deleted, child) ← deleteLeftmost (m_children i);
            let newMap := clone m in
            let newMap := set_child newMap i child in
            let newMap := recalculateCount newMap in
            Ok (deleted, newMap)
        | None => Panic no_children_message
        end
    end.

(** The scan for the child with the largest subtree:
    [i := -1; size := -1; for j, t := range self.children
       { if t.Size() > size { i = j; size = t.Size() } }] *)
Definition largest (self : StringMap) : Z * Z :=
  fold_left
    (fun '(i, size) j =>
       if bool_decide (Size (children self j) > size)
       then (Z.of_nat j, Size (children self j))
       else (i, size))
    slots (-1, -1).

(** [for j := range self.children { if j == i { newMap.children[j] = child }
       else { newMap.children[j] = self.children[j] } }] *)
Definition adopt (self newMap : StringMap) (i : Z) (child : StringMap)
    : StringMap :=
  fold_left
    (fun newMap j =>
       if decide (Z.of_nat j = i)
       then set_child newMap j child
       else set_child newMap j (children self j))
    slots newMap.

Fixpoint deleteLowLevel (self : StringMap) (partialHash hash : N)
    : result (StringMap * bool) :=
  match self with
  | nilMap => Ok (self, false)
  | Node _ self_hash _ _ self_children =>
      if decide (hash ≠ self_hash) then
        let i := slot partialHash in
        '(child, found) ← deleteLowLevel (self_children i)
                            (N.shiftr partialHash shiftSize) hash;
        if negb found then Ok (self, false)
        else
          let newMap := clone self in
          let newMap := set_child newMap i child in
          let newMap := recalculateCount newMap in
          Ok (newMap, true)
      else if isLeaf self then Ok (nilMap, true)
      else
        let '(i, _) := largest self in
        if bool_decide (i < 0) then Panic index_message
        else
          '(replacement, child) ← deleteLeftmost (self_children (Z.to_nat i));
          let newMap := clone replacement in
          let newMap := adopt self newMap i child in
          let newMap := recalculateCount newMap in
          Ok (newMap, true)
  end.

Definition Delete (m : StringMap) (key : string) : result StringMap :=
  let hash := hashKey key in
  '(newMap, _) ← deleteLowLevel m hash hash;
  Ok newMap.

Fixpoint lookupLowLevel (self : StringMap) (partialHash hash : N)
    : string * bool :=
  match self with
  | nilMap => ("", false)
  | Node _ self_hash _ self_value self_children =>
      if decide (hash ≠ self_hash) then
        lookupLowLevel (self_children (slot partialHash))
          (N.shiftr partialHash shiftSize) hash
      else (self_value, true)
  end.

Definition Lookup (m : StringMap) (key : string) : string * bool :=
  let hash := hashKey key in
  lookupLowLevel m hash hash.

(** [ForEach] calls [f] on the node and then on the nodes of every child
    that is not the sentinel, in slot order.  The callback's effect is a
    transition on a state [S] and it can panic. *)
Fixpoint ForEach {S : Type} (m : StringMap)
    (f : string → string → S → result S) (s : S) : result S :=
  match m with
  | nilMap => Ok s
  | Node _ _ m_key m_value m_children =>
      s ← f m_key m_value s;
      fold_left
        (fun acc j =>
           s ← acc;
           if negb (IsNil (m_children j)) then ForEach (m_children j) f s
           else Ok s)
        slots (Ok s)
  end.

(** The callback of [Keys]: [keys[i] = k; i++]. *)
Definition store_key (k _v : string) (st : list string * Z)
    : result (list string * Z) :=
  let '(keys, i) := st in
  if bool_decide (0 ≤ i < Z.of_nat (length keys))
  then Ok (<[Z.to_nat i := k]> keys, int_add i 1)
  else Panic index_message.

(** [keys := make([]string, m.Size()); i := 0;
     m.ForEach(func(k, v) { keys[i] = k; i++ }); return keys] *)
Definition Keys (m : StringMap) : result (list string) :=
  if bool_decide (Size m < 0) then Panic negative_len_message
  else
    let keys := replicate (Z.to_nat (Size m)) "" in
    '(keys, _) ← ForEach m store_key (keys, 0);
    Ok keys.

(** ** Specification-level view of a tree *)

(** The nodes of a tree as (hash, (key, value)), in the order [ForEach]
    visits them. *)
Fixpoint nodes (m : StringMap) : list (N * (string * string)) :=
  match m with
  | nilMap => []
  | Node _ h k v ch => (h, (k, v)) :: (slots ≫= fun j => nodes (ch j))
  end.

(** What a node contributes to [nodes]. *)
Definition root (m : StringMap) : N * (string * string) :=
  (hash m, (key m, value m)).

Definition hashes (m : StringMap) : list N := (nodes m).*1.
Definition bindings (m : StringMap) : list (string * string) := (nodes m).*2.
Definition keys (m : StringMap) : list string := (bindings m).*1.
Definition card (m : StringMap) : nat := length (nodes m).

(** Every node's hash is the digest of its key. *)
Definition hashed (m : StringMap) : Prop :=
  ∀ h k v, (h, (k, v)) ∈ nodes m → h = hashKey k.

(** A tree whose root is reached after [s] digest bits have been consumed
    is routed when every node below slot [j] of a node has a digest that
    selects [j] at that level and differs from the digest of the node. *)
Fixpoint routed (s : N) (m : StringMap) : Prop :=
  match m with
  | nilMap => True
  | Node _ h _ _ ch =>
      ∀ j, (j < childCount)%nat →
        (∀ h', h' ∈ hashes (ch j) → h' ≠ h ∧ slot (N.shiftr h' s) = j) ∧
        routed (s + shiftSize) (ch j)
  end.

(** The count invariant of the data model, exactly:
    [count(node) = 1 + Σ count(child)], with [count(sentinel) = 0]. *)
Fixpoint counted (m : StringMap) : Prop :=
  match m with
  | nilMap => True
  | Node c _ _ _ ch =>
      c = 1 + foldr Z.add 0 ((fun j => count (ch j)) <$> slots) ∧
      ∀ j, (j < childCount)%nat → counted (ch j)
  end.

(** What the code establishes: every count field is the value
    [recalculateCount] computes from the children, in [int] arithmetic. *)
Fixpoint recounted (m : StringMap) : Prop :=
  match m with
  | nilMap => True
  | Node c _ _ _ ch =>
      c = count (recalculateCount m) ∧
      ∀ j, (j < childCount)%nat → recounted (ch j)
  end.

(** Calling [f] on the bindings of a list in turn. *)
Fixpoint visit_all {S : Type} (f : string → string → S → result S)
    (l : list (string * string)) (s : S) : result S :=
  match l with
  | [] => Ok s
  | (k, v) :: l => s ← f k v s; visit_all f l s
  end.

(** A callback that records the calls it receives. *)
Definition record (k v : string) (calls : list (string * string))
    : result (list (string * string)) :=
  Ok (calls ++ [(k, v)]).

(** [Set] applied to each binding of a list in turn. *)
Fixpoint set_all (kvs : list (string * string)) (m : StringMap)
    : result StringMap :=
  match kvs with
  | [] => Ok m
  | (k, v) :: kvs => m ← Set_ m k v; set_all kvs m
  end.

(** No two keys of the list share a digest. *)
Definition NoCollision (ks : list string) : Prop :=
  ∀ k1 k2, k1 ∈ ks → k2 ∈ ks → hashKey k1 = hashKey k2 → k1 = k2.

(** The maps a program can hold: built from the empty map by calls of
    [Set] and [Delete] that returned. *)
Inductive Reachable : StringMap → Prop :=
| Reachable_new : Reachable NewStringMap
| Reachable_set m k v m' :
    Reachable m → Set_ m k v = Ok m' → Reachable m'
| Reachable_delete m k m' :
    Reachable m → Delete m k = Ok m' → Reachable m'.

(** ** The remaining functions of the file *)

(** [count := 0; for _, t := range m.children { if t != nilMap { count++ } };
    return count] *)
Definition subtreeCount (m : StringMap) : Z :=
  fold_left
    (fun count j =>
       if negb (IsNil (children m j)) then int_add count 1 else count)
    slots 0.

(** [fmt.Fprintf(buf, "%s: %s, ", key, val)] *)
Definition write_entry (buf key val : string) : string :=
  buf +:+ key +:+ ": " +:+ val +:+ ", ".

(** The line feed, [\n]. *)
Definition newline : string := String (Ascii.ascii_of_nat 10) "".

(** [fmt.Fprintf(buf, "}\n")] *)
Definition write_end (buf : string) : string := buf +:+ "}" +:+ newline.

(** [keys := m.Keys(); buf := bytes.NewBufferString("{");
     for _, key := range keys { val, _ := m.Lookup(key); ... };
     fmt.Fprintf(buf, "}\n"); return buf.String()] *)
Definition String_ (m : StringMap) : result string :=
  ks ← Keys m;
  let buf := "{" in
  let buf :=
    fold_left
      (fun buf key => let '(val, _) := Lookup m key in write_entry buf key val)
      ks buf in
  Ok (write_end buf).

(** The text [String] writes for a list of bindings. *)
Definition render (l : list (string * string)) : string :=
  foldr (fun '(k, v) s => k +:+ ": " +:+ v +:+ ", " +:+ s) "" l.

(** [Delete] applied to each key of a list in turn. *)
Fixpoint delete_all (ks : list string) (m : StringMap) : result StringMap :=
  match ks with
  | [] => Ok m
  | k :: ks => m ← Delete m k; delete_all ks m
  end.

(** The number of nodes [setLowLevel] goes through for a digest: the
    nodes on the path of the digest, down to the node that has it or to
    the sentinel that ends the path. *)
Fixpoint visits (self : StringMap) (partialHash hash : N) : nat :=
  match self with
  | nilMap => 1
  | Node _ self_hash _ _ self_children =>
      if decide (hash ≠ self_hash) then
        S (visits (self_children (slot partialHash))
             (N.shiftr partialHash shiftSize) hash)
      else 1
  end.

(** A program: calls of [Set] and [Delete], each on the result of the
    call before. *)
Inductive op : Type :=
| op_set (key value : string)
| op_delete (key : string).

Definition apply_op (m : StringMap) (o : op) : result StringMap :=
  match o with
  | op_set key value => Set_ m key value
  | op_delete key => Delete m key
  end.

Fixpoint run (ops : list op) (m : StringMap) : result StringMap :=
  match ops with
  | [] => Ok m
  | o :: ops => m ← apply_op m o; run ops m
  end.

(** The bindings whose key has another digest than [k]. *)
Definition others (k : string) (l : list (string * string))
    : list (string * string) :=
  filter (fun kv => hashKey kv.1 ≠ hashKey k) l.

(** ** Arithmetic of [int] *)

Lemma wrap_int_id z : - 2 ^ 63 ≤ z ≤ max_int → wrap_int z = z.
Proof.
  unfold wrap_int, max_int. intros Hz.
  rewrite Z.mod_small by lia. lia.
Qed.

Lemma int_add_id x y : 0 ≤ x → 0 ≤ y → x + y ≤ max_int → int_add x y = x + y.
Proof.
  intros. unfold int_add. apply wrap_int_id. unfold max_int in *. lia.
Qed.

Lemma foldr_add_nonneg {A} (f : A → Z) (l : list A) :
  (∀ x, x ∈ l → 0 ≤ f x) → 0 ≤ foldr Z.add 0 (f <$> l).
Proof.
  induction l as [|x l IH]; csimpl; intros Hf; [lia|].
  pose proof (Hf x (list_elem_of_here _ _)).
  assert (0 ≤ foldr Z.add 0 (f <$> l)); [|lia].
  apply IH. intros y Hy. apply Hf. by right.
Qed.

(** The loop of [recalculateCount] does not wrap when the exact total fits. *)
Lemma fold_int_add_exact {A} (f : A → Z) (l : list A) (a : Z) :
  0 ≤ a → (∀ x, x ∈ l → 0 ≤ f x) →
  a + foldr Z.add 0 (f <$> l) ≤ max_int →
  fold_left (fun c x => int_add c (f x)) l a = a + foldr Z.add 0 (f <$> l).
Proof.
  revert a. induction l as [|x l IH]; csimpl; intros a Ha Hf Hle; [lia|].
  pose proof (Hf x (list_elem_of_here _ _)) as Hx.
  assert (0 ≤ foldr Z.add 0 (f <$> l)) as Hl.
  { apply foldr_add_nonneg. intros y Hy. apply Hf. by right. }
  rewrite int_add_id by lia.
  rewrite IH; [lia|lia| |lia].
  intros y Hy. apply Hf. by right.
Qed.

(** ** Slots *)

Hypothesis childCount_pos : (0 < childCount)%nat.

Lemma slot_lt p : (slot p < childCount)%nat.
Proof.
  unfold slot.
  assert (p mod N.of_nat childCount < N.of_nat childCount)%N
    by (apply N.mod_lt; lia).
  lia.
Qed.

Lemma elem_of_slots j : j ∈ slots ↔ (j < childCount)%nat.
Proof. unfold slots. rewrite elem_of_seq. lia. Qed.

Lemma NoDup_slots : NoDup slots.
Proof. apply NoDup_seq. Qed.

(** Replacing what one slot contributes to a traversal. *)
Lemma bind_slot_split {A} (f : nat → list A) (l : list nat) i :
  NoDup l → i ∈ l →
  ∃ l1 l2, l = l1 ++ i :: l2 ∧ (i ∉ l1) ∧ (i ∉ l2) ∧
           (l ≫= f) = (l1 ≫= f) ++ f i ++ (l2 ≫= f).
Proof.
  intros Hnd Hi. apply list_elem_of_split in Hi as (l1 & l2 & ->).
  exists l1, l2. apply NoDup_app in Hnd as (_ & H1 & H2).
  apply NoDup_cons in H2 as [H2 _].
  repeat split; [|done|].
  - intros Hin. apply (H1 _ Hin). by left.
  - by rewrite bind_app, bind_cons.
Qed.

Lemma bind_ext_notin {A} (f g : nat → list A) (l : list nat) i :
  i ∉ l → (∀ j, j ∈ l → j ≠ i → g j = f j) → (l ≫= g) = (l ≫= f).
Proof.
  intros Hi Hfg. apply Forall_bind_ext, Forall_forall.
  intros j Hj. apply Hfg; [done|]. by intros ->.
Qed.

(** If [g] and [f] agree off slot [i], the traversals through [g] and [f]
    differ by what slot [i] contributes. *)
Lemma bind_slot_update {A} (f g : nat → list A) i :
  (i < childCount)%nat →
  (∀ j, (j < childCount)%nat → j ≠ i → g j = f j) →
  ∃ l1 l2, (slots ≫= f) = l1 ++ f i ++ l2 ∧ (slots ≫= g) = l1 ++ g i ++ l2.
Proof.
  intros Hi Hfg.
  destruct (bind_slot_split f slots i NoDup_slots)
    as (l1 & l2 & Hl & H1 & H2 & Hf).
  { by apply elem_of_slots. }
  exists (l1 ≫= f), (l2 ≫= f). split; [done|].
  assert (∀ j, j ∈ l1 ∨ j ∈ l2 → (j < childCount)%nat) as Hlt.
  { intros j Hj. apply elem_of_slots. rewrite Hl, elem_of_app, elem_of_cons.
    tauto. }
  rewrite Hl, bind_app, bind_cons.
  rewrite (bind_ext_notin f g l1 i), (bind_ext_notin f g l2 i); auto.
Qed.

(** ** Nodes of a tree *)

#[local] Arguments nodes : simpl never.

Lemma nodes_Node c h k v ch :
  nodes (Node c h k v ch) = (h, (k, v)) :: (slots ≫= fun j => nodes (ch j)).
Proof. done. Qed.

Lemma elem_of_nodes_Node n c h k v ch :
  n ∈ nodes (Node c h k v ch) ↔
  n = (h, (k, v)) ∨ ∃ j, (j < childCount)%nat ∧ n ∈ nodes (ch j).
Proof.
  rewrite nodes_Node, elem_of_cons, list_elem_of_bind.
  split; (intros [?|(j & ? & ?)]; [by left|right; exists j]);
    by rewrite ?elem_of_slots in *.
Qed.

Lemma elem_of_hashes m h : h ∈ hashes m ↔ ∃ k v, (h, (k, v)) ∈ nodes m.
Proof.
  unfold hashes. rewrite list_elem_of_fmap. split.
  - intros ([h' [k v]] & -> & ?). by exists k, v.
  - intros (k & v & ?). by exists (h, (k, v)).
Qed.

Lemma elem_of_hashes_Node h' c h k v ch :
  h' ∈ hashes (Node c h k v ch) ↔
  h' = h ∨ ∃ j, (j < childCount)%nat ∧ h' ∈ hashes (ch j).
Proof.
  rewrite elem_of_hashes. split.
  - intros (k' & v' & Hin). apply elem_of_nodes_Node in Hin as [Heq|(j & ? & ?)].
    + left. congruence.
    + right. exists j. split; [done|]. apply elem_of_hashes. eauto.
  - intros [->|(j & ? & Hin)].
    + exists k, v. apply elem_of_nodes_Node. by left.
    + apply elem_of_hashes in Hin as (k' & v' & ?). exists k', v'.
      apply elem_of_nodes_Node. right. eauto.
Qed.

Lemma elem_of_bindings m k v :
  (k, v) ∈ bindings m ↔ ∃ h, (h, (k, v)) ∈ nodes m.
Proof.
  unfold bindings. rewrite list_elem_of_fmap. split.
  - intros ([h kv] & -> & ?). by exists h.
  - intros (h & ?). by exists (h, (k, v)).
Qed.

Lemma elem_of_keys m k : k ∈ keys m ↔ ∃ h v, (h, (k, v)) ∈ nodes m.
Proof.
  unfold keys. rewrite list_elem_of_fmap. split.
  - intros ([k' v] & -> & Hin). apply elem_of_bindings in Hin as [h ?]. eauto.
  - intros (h & v & ?). exists (k, v). split; [done|].
    apply elem_of_bindings. eauto.
Qed.

Lemma shiftr_next h s : N.shiftr (N.shiftr h s) shiftSize = N.shiftr h (s + shiftSize).
Proof. apply N.shiftr_shiftr. Qed.

(** ** Lookup follows the route of a digest *)

Lemma lookup_present s m h k v :
  routed s m → (h, (k, v)) ∈ nodes m →
  lookupLowLevel m (N.shiftr h s) h = (v, true).
Proof.
  revert s. induction m as [|c h0 k0 v0 ch IH]; intros s Hr Hin.
  - by apply elem_of_nil in Hin.
  - apply elem_of_nodes_Node in Hin as [Heq|(j & Hj & Hin)]; simpl.
    + injection Heq as -> -> ->. by rewrite decide_False by (by intros []).
    + destruct (Hr j Hj) as [Hslot Hrj].
      destruct (Hslot h) as [Hne Hs]; [apply elem_of_hashes; eauto|].
      rewrite decide_True by done. rewrite Hs, shiftr_next. by apply IH.
Qed.

Lemma lookup_absent m p h :
  h ∉ hashes m → lookupLowLevel m p h = ("", false).
Proof.
  revert p. induction m as [|c h0 k0 v0 ch IH]; intros p Hnot; [done|].
  simpl. rewrite elem_of_hashes_Node in Hnot.
  rewrite decide_True by (intros ->; apply Hnot; by left).
  apply IH. intros Hin. apply Hnot. right. eauto using slot_lt.
Qed.

Lemma lookup_found m p h v :
  lookupLowLevel m p h = (v, true) → ∃ k, (h, (k, v)) ∈ nodes m.
Proof.
  revert p. induction m as [|c h0 k0 v0 ch IH]; intros p; simpl; [done|].
  case_decide as Hne.
  - intros Hl. apply IH in Hl as [k ?]. exists k.
    apply elem_of_nodes_Node. right. eauto using slot_lt.
  - subst h0. intros [= ->]. exists k0.
    apply elem_of_nodes_Node. by left.
Qed.

(** ** A node with one child slot replaced *)

Lemma nodes_unfold m :
  m ≠ nilMap →
  nodes m = root m :: (slots ≫= fun j => nodes (children m j)).
Proof. by destruct m. Qed.

Lemma nodes_update m m' i :
  m ≠ nilMap → m' ≠ nilMap → (i < childCount)%nat →
  (∀ j, (j < childCount)%nat → j ≠ i → children m' j = children m j) →
  ∃ l1 l2,
    nodes m = root m :: l1 ++ nodes (children m i) ++ l2 ∧
    nodes m' = root m' :: l1 ++ nodes (children m' i) ++ l2.
Proof.
  intros Hm Hm' Hi Hch.
  destruct (bind_slot_update (fun j => nodes (children m j))
              (fun j => nodes (children m' j)) i Hi) as (l1 & l2 & H1 & H2).
  { intros j ??. by rewrite Hch. }
  exists l1, l2.
  rewrite (nodes_unfold m), (nodes_unfold m') by done. by rewrite H1, H2.
Qed.

Lemma children_set_child m i t j :
  children (recalculateCount (set_child (clone m) i t)) j =
  if decide (j = i) then t else children m j.
Proof. done. Qed.

Lemma root_set_child m i t :
  root (recalculateCount (set_child (clone m) i t)) = root m.
Proof. done. Qed.

Lemma nodes_set_child m i t :
  m ≠ nilMap → (i < childCount)%nat →
  ∃ l1 l2,
    nodes m = root m :: l1 ++ nodes (children m i) ++ l2 ∧
    nodes (recalculateCount (set_child (clone m) i t)) =
      root m :: l1 ++ nodes t ++ l2.
Proof.
  intros Hm Hi.
  destruct (nodes_update m (recalculateCount (set_child (clone m) i t)) i)
    as (l1 & l2 & H1 & H2); [done..| |].
  { intros j _ Hj. rewrite children_set_child. by rewrite decide_False. }
  exists l1, l2. split; [done|].
  by rewrite H2, root_set_child, children_set_child, decide_True.
Qed.

(** Routing of a node rebuilt around one replaced child whose nodes are
    among the nodes of the child it replaces. *)
Lemma routed_set_child s c h k v ch i t :
  routed s (Node c h k v ch) →
  routed (s + shiftSize) t →
  (∀ h', h' ∈ hashes t → h' ≠ h ∧ slot (N.shiftr h' s) = i) →
  routed s (recalculateCount (set_child (clone (Node c h k v ch)) i t)).
Proof.
  intros Hr Ht Hin j Hj. simpl. destruct (Hr j Hj) as [Hs Hrj].
  case_decide as Hji; [subst j|]; by split.
Qed.

(** ** Set *)

Lemma setLowLevel_spec s m h k v m' :
  routed s m →
  setLowLevel m (N.shiftr h s) h k v = Ok m' →
  routed s m' ∧
  ∃ l, nodes m' ≡ₚ (h, (k, v)) :: l ∧
       ((nodes m ≡ₚ l ∧ h ∉ hashes m) ∨
        (∃ v0, nodes m ≡ₚ (h, (k, v0)) :: l)).
Proof.
  revert s m'. induction m as [|c h0 k0 v0 ch IH]; intros s m' Hr.
  - simpl. intros [= <-]. split; [by intros j Hj; split; [intros ? []%elem_of_nil|]|].
    exists []. split.
    + rewrite nodes_unfold by done. simpl.
      replace (slots ≫= _) with (@nil (N * (string * string))); [done|].
      symmetry. induction slots; [done|]. by rewrite bind_cons.
    + left. split; [done|]. apply not_elem_of_nil.
  - simpl. case_decide as Hne; [|case_decide as Hk; [done|]].
    + destruct (setLowLevel (ch _) _ _ _ _) as [t|] eqn:Ht; simpl; [|done].
      intros [= <-]. rewrite shiftr_next in Ht.
      destruct (Hr _ (slot_lt (N.shiftr h s))) as [Hs Hrj].
      apply IH in Ht as (Hrt & l & Hl & Hcase); [|done].
      assert (∀ h', h' ∈ hashes t →
                h' ≠ h0 ∧ slot (N.shiftr h' s) = slot (N.shiftr h s)) as Hin.
      { intros h' Hh'. unfold hashes in Hh'. rewrite Hl, fmap_cons in Hh'.
        apply elem_of_cons in Hh' as [->|Hh']; [done|]. apply Hs.
        unfold hashes. destruct Hcase as [[-> _]|[v1 ->]]; [done|].
        rewrite fmap_cons. by right. }
      split; [by apply routed_set_child|].
      destruct (nodes_set_child (Node c h0 k0 v0 ch) (slot (N.shiftr h s)) t)
        as (l1 & l2 & H1 & H2); [done|apply slot_lt|].
      exists ((h0, (k0, v0)) :: l1 ++ l ++ l2). split.
      { rewrite H2, Hl. simpl. rewrite <-Permutation_middle. apply perm_swap. }
      rewrite H1. simpl children. simpl root.
      destruct Hcase as [[Hp Hnot]|[v1 Hp]]; [left|right].
      * split; [by rewrite Hp|].
        rewrite elem_of_hashes_Node. intros [->|(j & Hj & Hhj)]; [done|].
        destruct (Hr j Hj) as [Hsj _]. destruct (Hsj _ Hhj) as [_ <-].
        done.
      * exists v1. rewrite Hp. simpl.
        rewrite <-Permutation_middle. apply perm_swap.
    + subst h0. assert (k = k0) as <- by (by destruct (decide (k = k0))).
      intros [= <-]. split; [done|].
      exists (slots ≫= fun j => nodes (ch j)). split; [done|].
      right. by exists v0.
Qed.

Lemma setLowLevel_ok m p h k v :
  (∀ k0 v0, (h, (k0, v0)) ∈ nodes m → k0 = k) →
  ∃ m', setLowLevel m p h k v = Ok m'.
Proof.
  revert p. induction m as [|c h0 k0 v0 ch IH]; intros p Hk; simpl; [eauto|].
  case_decide as Hne; [|case_decide as Hk0]; [| |eauto].
  - destruct (IH (slot p) (N.shiftr p shiftSize)) as [t ->]; [|simpl; eauto].
    intros k1 v1 Hin. apply (Hk k1 v1), elem_of_nodes_Node.
    right. eauto using slot_lt.
  - subst h0. destruct Hk0. symmetry.
    apply (Hk k0 v0), elem_of_nodes_Node. by left.
Qed.

Lemma setLowLevel_collision s m h k v k0 v0 :
  routed s m → (h, (k0, v0)) ∈ nodes m → k0 ≠ k →
  setLowLevel m (N.shiftr h s) h k v = Panic (collision_message k0 k).
Proof.
  revert s. induction m as [|c h1 k1 v1 ch IH]; intros s Hr Hin Hk.
  - by apply elem_of_nil in Hin.
  - apply elem_of_nodes_Node in Hin as [Heq|(j & Hj & Hin)]; simpl.
    + injection Heq as -> -> ->.
      rewrite decide_False by (by intros []). by rewrite decide_True.
    + destruct (Hr j Hj) as [Hslot Hrj].
      destruct (Hslot h) as [Hne Hs]; [apply elem_of_hashes; eauto|].
      rewrite decide_True by done. rewrite Hs, shiftr_next.
      by rewrite (IH j (s + shiftSize)%N).
Qed.

(** ** Counts *)

Lemma recounted_set_child m i t :
  recounted m → recounted t →
  recounted (recalculateCount (set_child (clone m) i t)).
Proof.
  intros Hm Ht. split; [done|]. intros j Hj. simpl.
  case_decide; [done|]. destruct m; [done|]. by apply Hm.
Qed.

Lemma setLowLevel_recounted m p h k v m' :
  recounted m → setLowLevel m p h k v = Ok m' → recounted m'.
Proof.
  revert p m'. induction m as [|c h0 k0 v0 ch IH]; intros p m' Hm; simpl.
  - intros [= <-]. split; [|done].
    unfold recalculateCount. simpl. by induction slots.
  - case_decide as Hne; [|case_decide as Hk; [done|]].
    + destruct (setLowLevel (ch _) _ _ _ _) as [t|] eqn:Ht; simpl; [|done].
      intros [= <-]. apply IH in Ht; [|by apply Hm, slot_lt].
      by apply recounted_set_child.
    + intros [= <-]. done.
Qed.

Lemma length_bind_sum {A} (f : nat → list A) (l : list nat) :
  Z.of_nat (length (l ≫= f)) =
  foldr Z.add 0 ((fun j => Z.of_nat (length (f j))) <$> l).
Proof.
  induction l as [|j l IH]; [done|].
  rewrite bind_cons, length_app, fmap_cons. simpl. lia.
Qed.

Lemma foldr_add_ext {A} (f g : A → Z) (l : list A) :
  (∀ x, x ∈ l → f x = g x) →
  foldr Z.add 0 (f <$> l) = foldr Z.add 0 (g <$> l).
Proof.
  induction l as [|x l IH]; intros Hfg; [done|].
  rewrite !fmap_cons. simpl. rewrite Hfg by left. rewrite IH; [done|].
  intros y Hy. apply Hfg. by right.
Qed.

Lemma foldr_add_elem_le {A} (f : A → Z) (l : list A) x :
  (∀ y, y ∈ l → 0 ≤ f y) → x ∈ l → f x ≤ foldr Z.add 0 (f <$> l).
Proof.
  induction l as [|y l IH]; intros Hf Hx; [by apply elem_of_nil in Hx|].
  rewrite fmap_cons. simpl.
  assert (0 ≤ foldr Z.add 0 (f <$> l)).
  { apply foldr_add_nonneg. intros z Hz. apply Hf. by right. }
  apply elem_of_cons in Hx as [->|Hx]; [lia|].
  pose proof (Hf y (list_elem_of_here _ _)).
  assert (f x ≤ foldr Z.add 0 (f <$> l)); [|lia].
  apply IH; [|done]. intros z Hz. apply Hf. by right.
Qed.

Lemma card_Node c h k v ch :
  Z.of_nat (card (Node c h k v ch)) =
  1 + foldr Z.add 0 ((fun j => Z.of_nat (card (ch j))) <$> slots).
Proof.
  unfold card at 1. rewrite nodes_Node. simpl length.
  rewrite Nat2Z.inj_succ, length_bind_sum. unfold card. lia.
Qed.

Lemma card_child_le c h k v ch j :
  (j < childCount)%nat → (card (ch j) < card (Node c h k v ch))%nat.
Proof.
  intros Hj. apply Nat2Z.inj_lt. rewrite card_Node.
  pose proof (foldr_add_elem_le (fun j => Z.of_nat (card (ch j))) slots j)
    as Hle.
  simpl in Hle. specialize (Hle ltac:(intros; lia)).
  rewrite elem_of_slots in Hle. specialize (Hle Hj). lia.
Qed.

(** Under the count invariant the count field is the number of nodes. *)
Lemma counted_card m : counted m → count m = Z.of_nat (card m).
Proof.
  induction m as [|c h k v ch IH]; [done|]. intros [-> Hch].
  rewrite card_Node. simpl. f_equal. apply foldr_add_ext.
  intros j Hj. apply IH, Hch. by apply elem_of_slots.
Qed.

(** The counts the code computes are exact as long as the number of
    nodes fits an [int]. *)
Lemma recounted_counted m :
  recounted m → Z.of_nat (card m) ≤ max_int → counted m.
Proof.
  induction m as [|c h k v ch IH]; [done|]. intros [Hc Hch] Hfit.
  assert (∀ j, (j < childCount)%nat → counted (ch j)) as Hcounted.
  { intros j Hj. apply IH; [by apply Hch|].
    pose proof (card_child_le c h k v ch j Hj). lia. }
  split; [|done].
  assert (foldr Z.add 0 ((fun j => count (ch j)) <$> slots) =
          foldr Z.add 0 ((fun j => Z.of_nat (card (ch j))) <$> slots)) as Hsum.
  { apply foldr_add_ext. intros j Hj.
    apply counted_card, Hcounted. by apply elem_of_slots. }
  rewrite card_Node, <-Hsum in Hfit.
  assert (0 ≤ foldr Z.add 0 ((fun j => count (ch j)) <$> slots)).
  { rewrite Hsum. apply foldr_add_nonneg. intros; lia. }
  rewrite Hc. unfold recalculateCount. simpl.
  rewrite (fold_int_add_exact (fun j => count (ch j))); [| lia | | lia].
  - rewrite int_add_id; lia.
  - intros j Hj. rewrite counted_card; [lia|].
    apply Hcounted. by apply elem_of_slots.
Qed.

(** ** Digests are unique in a routed tree *)

Lemma fmap_bind_slots {A B} (g : A → B) (f : nat → list A) (l : list nat) :
  g <$> (l ≫= f) = l ≫= (fun j => g <$> f j).
Proof.
  induction l as [|j l IH]; [done|]. by rewrite !bind_cons, fmap_app, IH.
Qed.

Lemma hashes_Node c h k v ch :
  hashes (Node c h k v ch) = h :: (slots ≫= fun j => hashes (ch j)).
Proof. unfold hashes. by rewrite nodes_Node, fmap_cons, fmap_bind_slots. Qed.

Lemma routed_NoDup s m : routed s m → NoDup (hashes m).
Proof.
  revert s. induction m as [|c h k v ch IH]; intros s Hr; [constructor|].
  rewrite hashes_Node. apply NoDup_cons. split.
  - intros (j & Hin & Hj)%list_elem_of_bind. apply elem_of_slots in Hj.
    destruct (Hr j Hj) as [Hs _]. by destruct (Hs h Hin).
  - apply NoDup_bind; [| |apply NoDup_slots].
    + intros j1 j2 h' Hj1 Hj2 H1 H2. apply elem_of_slots in Hj1, Hj2.
      destruct (Hr j1 Hj1) as [Hs1 _]. destruct (Hr j2 Hj2) as [Hs2 _].
      destruct (Hs1 h' H1) as [_ <-]. by destruct (Hs2 h' H2) as [_ <-].
    + intros j Hj. apply elem_of_slots in Hj.
      destruct (Hr j Hj) as [_ Hrj]. by apply (IH j (s + shiftSize)%N).
Qed.

Lemma submseteq_hashes (l : list (N * (string * string))) m :
  l ⊆+ nodes m → l.*1 ⊆+ hashes m.
Proof. intros Hl. unfold hashes. by rewrite Hl. Qed.

Lemma submseteq_middle {A} (x : A) l1 l l' l2 :
  x :: l ⊆+ l' → x :: l1 ++ l ++ l2 ⊆+ l1 ++ l' ++ l2.
Proof.
  intros Hl. trans (l1 ++ (x :: l) ++ l2).
  - apply Permutation_submseteq. simpl. by rewrite <-Permutation_middle.
  - apply submseteq_app; [done|]. by apply submseteq_app.
Qed.

Lemma submseteq_middle_skip {A} (x a : A) l1 l l' l2 :
  x :: l ⊆+ l' → x :: a :: l1 ++ l ++ l2 ⊆+ a :: l1 ++ l' ++ l2.
Proof.
  intros Hl. rewrite perm_swap. by apply submseteq_skip, submseteq_middle.
Qed.

Lemma submseteq_NoDup {A} (l k : list A) : l ⊆+ k → NoDup k → NoDup l.
Proof.
  intros (k' & ->)%submseteq_Permutation Hnd. by apply NoDup_app in Hnd as [? _].
Qed.

(** ** Leftmost deletion *)

Lemma deleteLeftmost_sub s m d r :
  routed s m → deleteLeftmost m = Ok (d, r) →
  d ≠ nilMap ∧ routed s r ∧ root d :: nodes r ⊆+ nodes m.
Proof.
  revert s d r. induction m as [|c h k v ch IH]; intros s d r Hr; [done|].
  simpl. destruct (isLeaf _).
  { intros [= <- <-]. repeat split; [done|].
    rewrite nodes_Node. apply submseteq_skip, submseteq_nil_l. }
  destruct (find _ slots) as [i|] eqn:Hfind; [|done].
  apply find_some in Hfind as [Hi _].
  apply list_elem_of_In, elem_of_slots in Hi.
  destruct (deleteLeftmost (ch i)) as [[d' child]|] eqn:Hdl; simpl; [|done].
  intros [= <- <-]. destruct (Hr i Hi) as [Hs Hri].
  apply (IH i (s + shiftSize)%N) in Hdl as (Hd & Hrc & Hsub); [|done].
  split; [done|]. split.
  - apply routed_set_child; [done..|]. intros h' Hh'. apply Hs.
    eapply elem_of_submseteq; [exact Hh'|].
    apply submseteq_hashes.
    trans (root d' :: nodes child); [by apply submseteq_cons|done].
  - destruct (nodes_set_child (Node c h k v ch) i child)
      as (l1 & l2 & -> & ->); [done..|].
    by apply submseteq_middle_skip.
Qed.

Lemma deleteLeftmost_recounted m d r :
  recounted m → deleteLeftmost m = Ok (d, r) → recounted r.
Proof.
  revert d r. induction m as [|c h k v ch IH]; intros d r Hm; [done|].
  simpl. destruct (isLeaf _); [by intros [= <- <-]|].
  destruct (find _ slots) as [i|] eqn:Hfind; [|done].
  apply find_some in Hfind as [Hi _].
  apply list_elem_of_In, elem_of_slots in Hi.
  destruct (deleteLeftmost (ch i)) as [[d' child]|] eqn:Hdl; simpl; [|done].
  intros [= <- <-]. apply recounted_set_child; [done|].
  eapply IH; [|done]. by apply Hm.
Qed.

Lemma counted_nonneg m : counted m → 0 ≤ count m.
Proof. intros ->%counted_card. lia. Qed.

(** A node that satisfies the count invariant and is not a leaf has a
    child that is not the sentinel. *)
Lemma counted_not_leaf c h k v ch :
  counted (Node c h k v ch) → c ≠ 1 →
  ∃ j, (j < childCount)%nat ∧ 0 < count (ch j).
Proof.
  intros [-> Hch] Hne.
  assert (¬ Forall (fun j => count (ch j) = 0) slots) as Hex.
  { intros Hall. apply Hne.
    rewrite (foldr_add_ext _ (fun _ => 0)).
    - clear. induction slots; [done|]. rewrite fmap_cons. simpl. lia.
    - intros j Hj. rewrite Forall_forall in Hall. by apply Hall. }
  apply not_Forall_Exists in Hex; [|intros j; apply _].
  apply Exists_exists in Hex as (j & Hj & Hcj). apply elem_of_slots in Hj.
  exists j. split; [done|]. pose proof (counted_nonneg _ (Hch j Hj)).
  simpl in Hcj. lia.
Qed.

Lemma deleteLeftmost_counted m :
  counted m → m ≠ nilMap →
  ∃ d r, deleteLeftmost m = Ok (d, r) ∧ (card r + 1 = card m)%nat.
Proof.
  induction m as [|c h k v ch IH]; intros Hc Hm; [done|].
  simpl. unfold isLeaf. simpl. case_bool_decide as Hleaf.
  { eexists _, _. split; [done|]. apply Nat2Z.inj.
    rewrite <-(counted_card _ Hc). simpl. lia. }
  destruct (counted_not_leaf _ _ _ _ _ Hc Hleaf) as (j & Hj & Hpos).
  destruct (find _ slots) as [i|] eqn:Hfind; last first.
  { eapply find_none in Hfind; [|apply list_elem_of_In, elem_of_slots, Hj].
    destruct (ch j); simpl in *; [lia|done]. }
  apply find_some in Hfind as [Hi Hnn].
  apply list_elem_of_In, elem_of_slots in Hi.
  destruct (IH i) as (d & child & -> & Hcard).
  { by apply Hc. } { by destruct (ch i). }
  simpl. eexists _, _. split; [done|].
  destruct (nodes_set_child (Node c h k v ch) i child)
    as (l1 & l2 & H1 & H2); [done..|].
  unfold card in *. rewrite H1, H2. simpl in *.
  rewrite !length_app. lia.
Qed.

(** ** The loops of [deleteLowLevel] *)

Lemma largest_fold self l i0 sz0 i sz :
  fold_left
    (fun '(i, size) j =>
       if bool_decide (Size (children self j) > size)
       then (Z.of_nat j, Size (children self j))
       else (i, size))
    l (i0, sz0) = (i, sz) →
  ((i = i0 ∧ sz = sz0) ∨
   (0 ≤ i ∧ Z.to_nat i ∈ l ∧ sz = count (children self (Z.to_nat i)))) ∧
  sz0 ≤ sz ∧
  ∀ j, j ∈ l → count (children self j) ≤ sz.
Proof.
  revert i0 sz0. induction l as [|a l IH]; simpl; intros i0 sz0 Hf.
  - injection Hf as -> ->. split; [by left|]. split; [lia|].
    by intros j ?%elem_of_nil.
  - unfold Size in *. case_bool_decide as Hgt;
      apply IH in Hf as (Hcase & Hle & Hall).
    + split; [right|split; [lia|]].
      * destruct Hcase as [[-> ->]|(? & ? & ?)].
        -- rewrite Nat2Z.id. split; [lia|]. split; [left|done].
        -- split; [done|]. split; [by right|done].
      * intros j [->|?]%elem_of_cons; [lia|by apply Hall].
    + split; [|split; [lia|]].
      * destruct Hcase as [?|(? & ? & ?)]; [by left|right].
        split; [done|]. split; [by right|done].
      * intros j [->|?]%elem_of_cons; [lia|by apply Hall].
Qed.

Lemma largest_spec self i sz :
  largest self = (i, sz) →
  (i = -1 ∧ ∀ j, (j < childCount)%nat → count (children self j) ≤ -1) ∨
  (0 ≤ i ∧ (Z.to_nat i < childCount)%nat ∧
   sz = count (children self (Z.to_nat i)) ∧
   ∀ j, (j < childCount)%nat → count (children self j) ≤ sz).
Proof.
  intros (Hcase & _ & Hall)%largest_fold.
  destruct Hcase as [[-> ->]|(? & ?%elem_of_slots & ?)]; [left|right].
  - split; [done|]. intros j Hj. by apply Hall, elem_of_slots.
  - repeat split; [done..|]. intros j Hj. by apply Hall, elem_of_slots.
Qed.

Lemma adopt_fold self child i l newMap :
  let r :=
    fold_left
      (fun newMap j =>
         if decide (Z.of_nat j = i)
         then set_child newMap j child
         else set_child newMap j (children self j))
      l newMap in
  root r = root newMap ∧
  ∀ j, children r j =
       if decide (j ∈ l)
       then (if decide (Z.of_nat j = i) then child else children self j)
       else children newMap j.
Proof.
  revert newMap. induction l as [|a l IH]; intros newMap; cbn [fold_left].
  - split; [done|]. intros j. by rewrite decide_False by apply not_elem_of_nil.
  - match goal with |- context [fold_left _ l ?nm] =>
      destruct (IH nm) as [Hroot Hch] end.
    split; [rewrite Hroot; by case_decide|].
    intros j. rewrite Hch.
    destruct (decide (j ∈ l)) as [Hin|Hnin].
    + by rewrite (decide_True (P:=j ∈ a :: l)) by (by right).
    + destruct (decide (j = a)) as [->|Hne].
      * rewrite (decide_True (P:=a ∈ a :: l)) by left.
        case_decide; simpl; by rewrite decide_True.
      * rewrite (decide_False (P:=j ∈ a :: l))
          by (by intros [?|?]%elem_of_cons).
        case_decide; simpl; by rewrite decide_False.
Qed.

(** The node [deleteLowLevel] builds from the replacement and the donor
    slot's remaining tree. *)
Lemma adopt_spec self replacement i child :
  0 ≤ i →
  let newMap := recalculateCount (adopt self (clone replacement) i child) in
  newMap ≠ nilMap ∧ root newMap = root replacement ∧
  ∀ j, (j < childCount)%nat →
       children newMap j =
       if decide (j = Z.to_nat i) then child else children self j.
Proof.
  intros Hi newMap.
  destruct (adopt_fold self child i slots (clone replacement)) as [Hroot Hch].
  split; [done|]. split; [exact Hroot|].
  intros j Hj. subst newMap. unfold recalculateCount, set_count. simpl.
  unfold adopt. rewrite Hch, decide_True by (by apply elem_of_slots).
  repeat case_decide; try done; lia.
Qed.

Lemma routed_intro s m :
  (∀ j, (j < childCount)%nat →
        (∀ h', h' ∈ hashes (children m j) →
               h' ≠ hash m ∧ slot (N.shiftr h' s) = j) ∧
        routed (s + shiftSize) (children m j)) →
  routed s m.
Proof. by destruct m. Qed.

(** ** Delete *)

#[local] Arguments largest : simpl never.
#[local] Arguments adopt : simpl never.

Lemma deleteLowLevel_sub s m h m' b :
  routed s m → deleteLowLevel m (N.shiftr h s) h = Ok (m', b) →
  routed s m' ∧
  if b then ∃ k v, (h, (k, v)) :: nodes m' ⊆+ nodes m
  else m' = m ∧ h ∉ hashes m.
Proof.
  revert s m' b. induction m as [|c h0 k0 v0 ch IH]; intros s m' b Hr.
  { simpl. intros [= <- <-]. split; [done|]. split; [done|].
    apply not_elem_of_nil. }
  simpl. case_decide as Hne.
  - destruct (deleteLowLevel (ch _) _ _) as [[child found]|] eqn:Hd;
      simpl; [|done].
    rewrite shiftr_next in Hd. set (i := slot (N.shiftr h s)) in *.
    assert (i < childCount)%nat as Hi by apply slot_lt.
    destruct (Hr i Hi) as [Hs Hri].
    apply (IH i) in Hd as [Hrc Hcase]; [|done].
    destruct found; simpl; intros [= <- <-].
    + destruct Hcase as (k & v & Hsub). split.
      * apply routed_set_child; [done..|]. intros h' Hh'. apply Hs.
        eapply elem_of_submseteq; [exact Hh'|]. apply submseteq_hashes.
        trans ((h, (k, v)) :: nodes child); [by apply submseteq_cons|done].
      * exists k, v.
        destruct (nodes_set_child (Node c h0 k0 v0 ch) i child)
          as (l1 & l2 & -> & ->); [done..|].
        by apply submseteq_middle_skip.
    + destruct Hcase as [-> Hnot]. split; [done|]. split; [done|].
      rewrite elem_of_hashes_Node. intros [->|(j & Hj & Hhj)]; [done|].
      destruct (Hr j Hj) as [Hsj _]. destruct (Hsj _ Hhj) as [_ Heq].
      fold i in Heq. by subst j.
  - subst h0. destruct (isLeaf _).
    { intros [= <- <-]. split; [done|]. exists k0, v0.
      rewrite nodes_Node. apply submseteq_skip, submseteq_nil_l. }
    destruct (largest _) as [i sz] eqn:Hl. case_bool_decide as Hneg; [done|].
    destruct (deleteLeftmost _) as [[replacement child]|] eqn:Hdl;
      simpl; [|done].
    intros [= <- <-].
    apply largest_spec in Hl as [[-> _]|(Hi0 & Hi & _)]; [lia|].
    destruct (Hr _ Hi) as [Hs Hri].
    apply (deleteLeftmost_sub (s + shiftSize)) in Hdl
      as (Hrepl & Hrc & Hsub); [|done].
    destruct (adopt_spec (Node c h k0 v0 ch) replacement i child Hi0)
      as (Hnn & Hroot & Hch).
    set (newMap := recalculateCount _) in *.
    assert (hash replacement ∈ hashes (ch (Z.to_nat i))) as Hin.
    { eapply elem_of_submseteq; [|apply submseteq_hashes, Hsub]. by left. }
    destruct (Hs _ Hin) as [Hrh Hrs].
    split.
    + apply routed_intro. intros j Hj. rewrite (Hch j Hj).
      replace (hash newMap) with (hash replacement)
        by (by injection Hroot).
      case_decide as Hji; [subst j|].
      * split; [|done]. intros h' Hh'. split.
        -- intros ->.
           assert (NoDup (hash replacement :: hashes child)) as Hnd.
           { eapply submseteq_NoDup; [|eapply routed_NoDup, Hri].
             by apply (submseteq_hashes (root replacement :: nodes child)). }
           by apply NoDup_cons in Hnd as [? _].
        -- apply Hs. eapply elem_of_submseteq; [exact Hh'|].
           apply submseteq_hashes.
           trans (root replacement :: nodes child);
             [by apply submseteq_cons|done].
      * destruct (Hr j Hj) as [Hsj Hrj]. split; [|done].
        intros h' Hh'. destruct (Hsj _ Hh') as [_ Hslot].
        split; [|done]. intros ->. congruence.
    + exists k0, v0.
      destruct (nodes_update (Node c h k0 v0 ch) newMap (Z.to_nat i))
        as (l1 & l2 & -> & ->); [done..| |].
      { intros j Hj Hne. by rewrite (Hch j Hj), decide_False. }
      rewrite (Hch _ Hi), decide_True, Hroot by done.
      simpl. by apply submseteq_skip, submseteq_middle.
Qed.

Lemma deleteLowLevel_recounted m p h m' b :
  recounted m → deleteLowLevel m p h = Ok (m', b) → recounted m'.
Proof.
  revert p m' b. induction m as [|c h0 k0 v0 ch IH]; intros p m' b Hm.
  { simpl. by intros [= <- <-]. }
  simpl. case_decide as Hne.
  - destruct (deleteLowLevel (ch _) _ _) as [[child found]|] eqn:Hd;
      simpl; [|done].
    apply IH in Hd; [|by apply Hm, slot_lt].
    destruct found; simpl; intros [= <- <-]; [|done].
    by apply recounted_set_child.
  - destruct (isLeaf _); [by intros [= <- <-]|].
    destruct (largest _) as [i sz] eqn:Hl. case_bool_decide as Hneg; [done|].
    destruct (deleteLeftmost _) as [[replacement child]|] eqn:Hdl;
      simpl; [|done].
    intros [= <- <-].
    apply largest_spec in Hl as [[-> _]|(Hi0 & Hi & _)]; [lia|].
    apply deleteLeftmost_recounted in Hdl; [|by apply Hm].
    destruct (adopt_spec (Node c h0 k0 v0 ch) replacement i child Hi0)
      as (Hnn & Hroot & Hch).
    split; [done|]. intros j Hj.
    change (recounted (children (recalculateCount
      (adopt (Node c h0 k0 v0 ch) (clone replacement) i child)) j)).
    rewrite (Hch j Hj). case_decide; [done|]. by apply Hm.
Qed.

Lemma deleteLowLevel_counted m p h :
  counted m →
  ∃ m' b, deleteLowLevel m p h = Ok (m', b) ∧
          (b = true → (card m' + 1 = card m)%nat).
Proof.
  revert p. induction m as [|c h0 k0 v0 ch IH]; intros p Hc.
  { by exists nilMap, false. }
  simpl. case_decide as Hne.
  - assert (slot p < childCount)%nat as Hi by apply slot_lt.
    destruct (IH (slot p) (N.shiftr p shiftSize)) as (child & found & -> & Hcard).
    { by apply Hc. }
    destruct found; simpl; [|by eexists _, _].
    eexists _, _. split; [done|]. intros _.
    destruct (nodes_set_child (Node c h0 k0 v0 ch) (slot p) child)
      as (l1 & l2 & H1 & H2); [done..|].
    specialize (Hcard eq_refl). unfold card in *. rewrite H1, H2.
    simpl in *. rewrite !length_app. lia.
  - unfold isLeaf. simpl. case_bool_decide as Hleaf.
    { eexists _, _. split; [done|]. intros _. apply Nat2Z.inj.
      rewrite <-(counted_card _ Hc). simpl. lia. }
    destruct (counted_not_leaf _ _ _ _ _ Hc Hleaf) as (j & Hj & Hpos).
    destruct (largest _) as [i sz] eqn:Hl.
    apply largest_spec in Hl as [[_ Hall]|(Hi0 & Hi & -> & Hmax)].
    { specialize (Hall j Hj). simpl in Hall. lia. }
    rewrite bool_decide_false by lia.
    destruct (deleteLeftmost_counted (ch (Z.to_nat i)))
      as (replacement & child & Hdl & Hcard).
    { by apply Hc. }
    { specialize (Hmax j Hj). simpl in Hmax.
      destruct (ch (Z.to_nat i)); simpl in *; [lia|done]. }
    simpl in Hdl. rewrite Hdl. simpl. eexists _, _. split; [done|]. intros _.
    destruct (adopt_spec (Node c h0 k0 v0 ch) replacement i child Hi0)
      as (Hnn & Hroot & Hch).
    set (newMap := recalculateCount _) in *.
    destruct (nodes_update (Node c h0 k0 v0 ch) newMap (Z.to_nat i))
      as (l1 & l2 & H1 & H2); [done..| |].
    { intros j' Hj' Hne'. by rewrite (Hch j' Hj'), decide_False. }
    rewrite (Hch _ Hi), decide_True in H2 by done.
    unfold card in *. rewrite H1, H2. simpl in *. rewrite !length_app. lia.
Qed.

Lemma deleteLowLevel_absent m p h :
  h ∉ hashes m → deleteLowLevel m p h = Ok (m, false).
Proof.
  revert p. induction m as [|c h0 k0 v0 ch IH]; intros p Hnot; [done|].
  simpl. rewrite elem_of_hashes_Node in Hnot.
  rewrite decide_True by (intros ->; apply Hnot; by left).
  rewrite IH; [done|]. intros Hin. apply Hnot. right. eauto using slot_lt.
Qed.

(** ** Invariants of the maps a program can hold *)

Lemma Set_spec m k v m' :
  routed 0 m → Set_ m k v = Ok m' →
  routed 0 m' ∧
  ∃ l, nodes m' ≡ₚ (hashKey k, (k, v)) :: l ∧
       ((nodes m ≡ₚ l ∧ hashKey k ∉ hashes m) ∨
        (∃ v0, nodes m ≡ₚ (hashKey k, (k, v0)) :: l)).
Proof.
  unfold Set_. intros Hr Hset.
  rewrite <-(N.shiftr_0_r (hashKey k)) in Hset at 1.
  by apply setLowLevel_spec in Hset.
Qed.

Lemma Delete_sub m k m' :
  routed 0 m → Delete m k = Ok m' → routed 0 m' ∧ nodes m' ⊆+ nodes m.
Proof.
  unfold Delete. intros Hr.
  destruct (deleteLowLevel _ _ _) as [[newMap b]|] eqn:Hd; simpl; [|done].
  intros [= <-]. rewrite <-(N.shiftr_0_r (hashKey k)) in Hd at 1.
  apply deleteLowLevel_sub in Hd as [Hr' Hcase]; [|done]. split; [done|].
  destruct b; [|by destruct Hcase as [-> _]].
  destruct Hcase as (k0 & v0 & Hsub).
  trans ((hashKey k, (k0, v0)) :: nodes newMap); [by apply submseteq_cons|done].
Qed.

Lemma Reachable_inv m : Reachable m → routed 0 m ∧ hashed m ∧ recounted m.
Proof.
  induction 1 as [|m k v m' _ (Hr & Hh & Hc) Hset
                   |m k m' _ (Hr & Hh & Hc) Hdel].
  - split; [done|]. split; [|done]. by intros h k v ?%elem_of_nil.
  - destruct (Set_spec _ _ _ _ Hr Hset) as (Hr' & l & Hl & Hcase).
    split; [done|]. split; [|by eapply setLowLevel_recounted].
    intros h1 k1 v1 Hin. rewrite Hl in Hin.
    apply elem_of_cons in Hin as [[= -> -> ->]|Hin]; [done|].
    apply (Hh h1 k1 v1). destruct Hcase as [[-> _]|[v0 ->]]; [done|by right].
  - destruct (Delete_sub _ _ _ Hr Hdel) as (Hr' & Hsub).
    split; [done|]. split.
    + intros h1 k1 v1 Hin. apply (Hh h1 k1 v1).
      by eapply elem_of_submseteq.
    + unfold Delete in Hdel.
      destruct (deleteLowLevel _ _ _) as [[newMap b]|] eqn:Hd; [|done].
      injection Hdel as <-. by eapply deleteLowLevel_recounted.
Qed.

Lemma hashed_hashes m : hashed m → hashes m = hashKey <$> keys m.
Proof.
  intros Hh. unfold hashes, keys, bindings. rewrite <-!list_fmap_compose.
  apply list_fmap_ext. intros i [h [k v]] Hi. apply (Hh h k v).
  by eapply list_elem_of_lookup_2.
Qed.

Lemma hashed_elem_of_hashes m k :
  hashed m → k ∈ keys m → hashKey k ∈ hashes m.
Proof. intros ->%hashed_hashes ?. by apply list_elem_of_fmap_2. Qed.

Lemma NoCollision_elem_of_hashes m k :
  hashed m → NoCollision (k :: keys m) →
  hashKey k ∈ hashes m → k ∈ keys m.
Proof.
  intros Hh Hnc Hin. rewrite (hashed_hashes _ Hh) in Hin.
  apply list_elem_of_fmap in Hin as (k' & Heq & Hk').
  rewrite (Hnc k k'); [done|by left|by right|done].
Qed.

Lemma Reachable_NoDup_keys m : Reachable m → NoDup (keys m).
Proof.
  intros (Hr & Hh & _)%Reachable_inv. apply (NoDup_fmap_1 hashKey).
  rewrite <-hashed_hashes by done. by eapply routed_NoDup.
Qed.

(** ** Enumeration *)

Lemma visit_all_app {S} (f : string → string → S → result S) l1 l2 s :
  visit_all f (l1 ++ l2) s = s' ← visit_all f l1 s; visit_all f l2 s'.
Proof.
  revert s. induction l1 as [|[k v] l1 IH]; intros s; [done|].
  simpl. destruct (f k v s); simpl; [apply IH|done].
Qed.

Lemma bindings_Node c h k v ch :
  bindings (Node c h k v ch) = (k, v) :: (slots ≫= fun j => bindings (ch j)).
Proof. unfold bindings. by rewrite nodes_Node, fmap_cons, fmap_bind_slots. Qed.

(** [ForEach] calls [f] on the bindings of the tree, in order. *)
Lemma ForEach_visit_all {S} (f : string → string → S → result S) m s :
  ForEach m f s = visit_all f (bindings m) s.
Proof.
  revert s. induction m as [|c h k v ch IH]; intros s; [done|].
  rewrite bindings_Node. simpl. destruct (f k v s) as [s1|]; simpl; [|done].
  assert (∀ l r,
    fold_left
      (fun acc j =>
         s ← acc;
         if negb (IsNil (ch j)) then ForEach (ch j) f s else Ok s) l r =
    s ← r; visit_all f (l ≫= fun j => bindings (ch j)) s) as Hloop.
  { clear s s1. induction l as [|j l IHl]; intros r; [by destruct r|].
    rewrite bind_cons. simpl. rewrite IHl. destruct r as [s|]; simpl; [|done].
    rewrite visit_all_app, <-IH. by destruct (ch j). }
  apply (Hloop slots (Ok s1)).
Qed.

Lemma store_key_all l pre :
  Z.of_nat (length pre + length l) ≤ max_int →
  visit_all store_key l
    (pre ++ replicate (length l) "", Z.of_nat (length pre)) =
  Ok (pre ++ l.*1, Z.of_nat (length pre + length l)).
Proof.
  revert pre. induction l as [|[k v] l IH]; intros pre Hfit.
  - simpl. by rewrite Nat.add_0_r.
  - simpl in *. rewrite bool_decide_true; last first.
    { rewrite length_app. simpl. rewrite length_replicate. lia. }
    simpl. rewrite Nat2Z.id.
    replace (<[length pre:=k]> (pre ++ "" :: replicate (length l) ""))
      with ((pre ++ [k]) ++ replicate (length l) ""); last first.
    { rewrite <-(Nat.add_0_r (length pre)) at 1.
      rewrite insert_app_r. simpl. by rewrite <-app_assoc. }
    replace (int_add (Z.of_nat (length pre)) 1)
      with (Z.of_nat (length (pre ++ [k]))); last first.
    { rewrite length_app. simpl. rewrite int_add_id; lia. }
    rewrite IH.
    + rewrite <-app_assoc. simpl. do 3 f_equal.
      rewrite length_app. simpl. lia.
    + rewrite length_app. simpl. lia.
Qed.

Lemma Keys_keys m :
  Size m = Z.of_nat (card m) → Z.of_nat (card m) ≤ max_int →
  Keys m = Ok (keys m).
Proof.
  intros Hsize Hfit. unfold Keys. rewrite Hsize.
  rewrite bool_decide_false by lia. rewrite Nat2Z.id.
  rewrite ForEach_visit_all.
  pose proof (store_key_all (bindings m) []) as Hall. simpl in Hall.
  unfold card, bindings in *. rewrite length_fmap in Hall.
  change (Z.of_nat 0) with 0 in Hall. rewrite Hall by done. done.
Qed.

Lemma visit_all_record l calls : visit_all record l calls = Ok (calls ++ l).
Proof.
  revert calls. induction l as [|[k v] l IH]; intros calls; simpl.
  - by rewrite app_nil_r.
  - by rewrite IH, <-app_assoc.
Qed.

(** ** Set and Delete on the maps a program can hold *)

Lemma Reachable_counted m :
  Reachable m → Z.of_nat (card m) ≤ max_int →
  counted m ∧ Size m = Z.of_nat (card m).
Proof.
  intros (_ & _ & Hc)%Reachable_inv Hfit.
  apply recounted_counted in Hc; [|done]. split; [done|].
  by apply counted_card.
Qed.

Lemma Set_ok m k v :
  hashed m → NoCollision (k :: keys m) → ∃ m', Set_ m k v = Ok m'.
Proof.
  intros Hh Hnc. apply setLowLevel_ok. intros k0 v0 Hin.
  apply Hnc; [right; apply elem_of_keys; eauto|by left|].
  symmetry. by apply (Hh _ _ v0).
Qed.

Lemma Set_keys m k v m' :
  Reachable m → Set_ m k v = Ok m' →
  if decide (hashKey k ∈ hashes m)
  then keys m' ≡ₚ keys m
  else keys m' ≡ₚ k :: keys m.
Proof.
  intros (Hr & _ & _)%Reachable_inv Hset.
  destruct (Set_spec _ _ _ _ Hr Hset) as (_ & l & Hl & Hcase).
  unfold keys, bindings.
  destruct Hcase as [[Hm Hnot]|[v0 Hm]].
  - rewrite decide_False by done. by rewrite Hl, Hm.
  - rewrite decide_True; [by rewrite Hl, Hm|].
    apply elem_of_hashes. exists k, v0. rewrite Hm. by left.
Qed.

Lemma Delete_spec m k :
  routed 0 m → counted m →
  ∃ m', Delete m k = Ok m' ∧ routed 0 m' ∧
        (((hashKey k ∉ hashes m) ∧ m' = m) ∨
         (∃ k0 v0, nodes m ≡ₚ (hashKey k, (k0, v0)) :: nodes m')).
Proof.
  intros Hr Hc. unfold Delete.
  destruct (deleteLowLevel_counted m (hashKey k) (hashKey k) Hc)
    as (m' & b & Hd & Hcard).
  rewrite Hd. simpl. exists m'. split; [done|].
  rewrite <-(N.shiftr_0_r (hashKey k)) in Hd at 1.
  apply deleteLowLevel_sub in Hd as [Hr' Hcase]; [|done]. split; [done|].
  destruct b.
  - right. destruct Hcase as (k0 & v0 & Hsub). exists k0, v0. symmetry.
    apply submseteq_length_Permutation; [done|].
    specialize (Hcard eq_refl). unfold card in Hcard. simpl. lia.
  - left. by destruct Hcase.
Qed.

Lemma set_all_Reachable kvs m m' :
  Reachable m → set_all kvs m = Ok m' → Reachable m'.
Proof.
  revert m. induction kvs as [|[k v] kvs IH]; intros m Hm; simpl.
  - by intros [= <-].
  - destruct (Set_ m k v) as [m1|] eqn:Hset; simpl; [|done].
    apply IH. by eapply Reachable_set.
Qed.

(** A test for [NoCollision] that computes. *)
Lemma NoCollision_check ks :
  forallb (fun k1 =>
    forallb (fun k2 =>
      implb (hashKey k1 =? hashKey k2)%N (bool_decide (k1 = k2))) ks) ks
  = true →
  NoCollision ks.
Proof.
  intros Hall k1 k2 Hk1 Hk2 Heq.
  rewrite forallb_forall in Hall.
  specialize (Hall k1 (proj1 (list_elem_of_In _ _) Hk1)).
  rewrite forallb_forall in Hall.
  specialize (Hall k2 (proj1 (list_elem_of_In _ _) Hk2)).
  rewrite Heq, N.eqb_refl in Hall. simpl in Hall.
  by apply bool_decide_eq_true in Hall.
Qed.

(** ** The properties of the specification *)

(** C1: on a map built by Set and Delete from the empty map, when no key
    of the map shares its digest with [k], [Set] of [k] to [v] returns a
    map on which [Lookup] of [k] returns [(v, true)]. *)
Theorem Lookup_Set m k v :
  Reachable m → NoCollision (k :: keys m) →
  ∃ m', Set_ m k v = Ok m' ∧ Lookup m' k = (v, true).
Proof.
  intros Hreach Hnc. destruct (Reachable_inv _ Hreach) as (Hr & Hh & _).
  destruct (Set_ok m k v Hh Hnc) as [m' Hset]. exists m'. split; [done|].
  destruct (Set_spec _ _ _ _ Hr Hset) as (Hr' & l & Hl & _).
  unfold Lookup. rewrite <-(N.shiftr_0_r (hashKey k)) at 1.
  apply (lookup_present 0 m' _ k); [done|]. rewrite Hl. by left.
Qed.

Lemma Set_Size m k v m' :
  Reachable m → Set_ m k v = Ok m' → Z.of_nat (card m) < max_int →
  Size m' = if decide (hashKey k ∈ hashes m) then Size m else Size m + 1.
Proof.
  intros Hreach Hset Hfit.
  assert (Reachable m') as Hreach' by (by eapply Reachable_set).
  pose proof (Set_keys _ _ _ _ Hreach Hset) as Hkeys.
  destruct (Reachable_counted m) as [_ ->]; [done|lia|].
  assert (length (keys m) = card m) as Hlen
    by (unfold keys, bindings, card; by rewrite !length_fmap).
  assert (length (keys m') = card m') as Hlen'
    by (unfold keys, bindings, card; by rewrite !length_fmap).
  case_decide; apply Permutation_length in Hkeys; simpl in Hkeys;
    (destruct (Reachable_counted m') as [_ ->]; [done|lia|lia]).
Qed.

Lemma set_all_Size kvs m :
  Reachable m → NoDup kvs.*1 → (∀ k, k ∈ kvs.*1 → k ∉ keys m) →
  NoCollision (kvs.*1 ++ keys m) →
  Z.of_nat (card m + length kvs) ≤ max_int →
  ∃ m', set_all kvs m = Ok m' ∧ Size m' = Size m + Z.of_nat (length kvs).
Proof.
  revert m. induction kvs as [|[k v] kvs IH]; intros m Hreach Hnd Hfresh Hnc Hfit.
  { exists m. split; [done|]. simpl. lia. }
  rewrite fmap_cons in *. simpl in *.
  apply NoDup_cons in Hnd as [Hk Hnd].
  destruct (Reachable_inv _ Hreach) as (Hr & Hh & _).
  assert (hashKey k ∉ hashes m) as Hnot.
  { intros Hin. apply (Hfresh k); [by left|].
    apply NoCollision_elem_of_hashes; [done| |done].
    intros k1 k2 Hk1 Hk2. apply Hnc; rewrite elem_of_cons, elem_of_app;
      apply elem_of_cons in Hk1, Hk2; tauto. }
  destruct (Set_ok m k v Hh) as [m1 Hset].
  { intros k1 k2 Hk1 Hk2. apply Hnc; rewrite elem_of_cons, elem_of_app;
      apply elem_of_cons in Hk1, Hk2; tauto. }
  rewrite Hset. simpl.
  pose proof (Set_keys _ _ _ _ Hreach Hset) as Hkeys.
  pose proof (Set_Size _ _ _ _ Hreach Hset ltac:(lia)) as Hsize.
  rewrite decide_False in Hkeys by done.
  rewrite decide_False in Hsize by done.
  assert (card m1 = S (card m)) as Hcard.
  { apply Permutation_length in Hkeys. revert Hkeys.
    unfold keys, bindings, card. simpl. by rewrite !length_fmap. }
  destruct (IH m1) as (m' & Hall & Hsize'); [by eapply Reachable_set|done| | |lia|].
  - intros k' Hk'. rewrite Hkeys. intros [->|Hin]%elem_of_cons; [done|].
    apply (Hfresh k'); [by right|done].
  - intros k1 k2 Hk1 Hk2. apply Hnc.
    + rewrite Hkeys in Hk1. rewrite elem_of_cons, elem_of_app.
      rewrite elem_of_app, elem_of_cons in Hk1. tauto.
    + rewrite Hkeys in Hk2. rewrite elem_of_cons, elem_of_app.
      rewrite elem_of_app, elem_of_cons in Hk2. tauto.
  - exists m'. split; [done|]. lia.
Qed.

(** C2: on a reachable map with room for one more node, when no key of
    the map shares its digest with [k], [Set] of [k] returns a map whose
    [Size] is one more if [k] was absent and the same if [k] was present;
    and [n] calls of [Set] with distinct, collision-free keys from the
    empty map give a map of [Size] [n]. *)
Theorem Size_Set :
  (∀ m k v,
     Reachable m → NoCollision (k :: keys m) →
     Z.of_nat (card m) < max_int →
     ∃ m', Set_ m k v = Ok m' ∧
           (k ∉ keys m → Size m' = Size m + 1) ∧
           (k ∈ keys m → Size m' = Size m)) ∧
  (∀ kvs,
     NoDup kvs.*1 → NoCollision kvs.*1 →
     Z.of_nat (length kvs) ≤ max_int →
     ∃ m, set_all kvs NewStringMap = Ok m ∧ Size m = Z.of_nat (length kvs)).
Proof.
  split.
  - intros m k v Hreach Hnc Hfit.
    destruct (Reachable_inv _ Hreach) as (Hr & Hh & _).
    destruct (Set_ok m k v Hh Hnc) as [m' Hset]. exists m'. split; [done|].
    rewrite (Set_Size _ _ _ _ Hreach Hset Hfit). split; intros Hk.
    + rewrite decide_False; [done|]. intros Hin. apply Hk.
      by apply NoCollision_elem_of_hashes.
    + rewrite decide_True; [done|]. by apply hashed_elem_of_hashes.
  - intros kvs Hnd Hnc Hfit.
    destruct (set_all_Size kvs NewStringMap) as (m & Hall & Hsize);
      [apply Reachable_new|done| | |done|].
    + intros k _. apply not_elem_of_nil.
    + by rewrite app_nil_r.
    + exists m. split; [done|]. rewrite Hsize. simpl. lia.
Qed.

Lemma Lookup_absent m k : hashKey k ∉ hashes m → Lookup m k = ("", false).
Proof. apply lookup_absent. Qed.

Lemma Lookup_present m k k0 v :
  routed 0 m → (hashKey k, (k0, v)) ∈ nodes m → Lookup m k = (v, true).
Proof.
  intros Hr Hin. unfold Lookup. rewrite <-(N.shiftr_0_r (hashKey k)) at 1.
  by apply (lookup_present 0 m _ k0).
Qed.

(** C3: on a reachable map whose number of nodes fits an [int], [Delete]
    of a key present in the map returns a map whose [Size] is one less
    and on which [Lookup] of that key finds nothing. *)
Theorem Delete_present m k :
  Reachable m → Z.of_nat (card m) ≤ max_int → k ∈ keys m →
  ∃ m', Delete m k = Ok m' ∧ Size m' = Size m - 1 ∧
        Lookup m' k = ("", false).
Proof.
  intros Hreach Hfit Hk. destruct (Reachable_inv _ Hreach) as (Hr & Hh & _).
  destruct (Reachable_counted _ Hreach Hfit) as [Hc Hsize].
  destruct (Delete_spec m k Hr Hc) as (m' & Hdel & Hr' & Hcase).
  exists m'. split; [done|].
  destruct Hcase as [[Hnot _]|(k0 & v0 & Hperm)].
  { destruct Hnot. by apply hashed_elem_of_hashes. }
  assert (card m = S (card m')) as Hcard.
  { unfold card. by rewrite Hperm. }
  split.
  - destruct (Reachable_counted m') as [_ ->];
      [by eapply Reachable_delete|lia|]. lia.
  - apply Lookup_absent. pose proof (routed_NoDup _ _ Hr) as Hnd.
    unfold hashes in *. rewrite Hperm, fmap_cons in Hnd.
    by apply NoDup_cons in Hnd as [? _].
Qed.

(** C4: on a reachable map, when no key of the map shares its digest with
    [k], [Delete] of a key [k] that is not in the map returns the map
    itself: the same [Size], the same [Lookup] result for every key and
    the same bindings. *)
Theorem Delete_absent m k :
  Reachable m → NoCollision (k :: keys m) → k ∉ keys m →
  ∃ m', Delete m k = Ok m' ∧ Size m' = Size m ∧
        (∀ k', Lookup m' k' = Lookup m k') ∧
        bindings m' ≡ₚ bindings m.
Proof.
  intros Hreach Hnc Hk. destruct (Reachable_inv _ Hreach) as (_ & Hh & _).
  exists m. split; [|done]. unfold Delete.
  rewrite deleteLowLevel_absent; [done|].
  intros Hin. by apply Hk, NoCollision_elem_of_hashes.
Qed.

(** C6: the count of the sentinel is 0; on a reachable map whose number
    of nodes fits an [int], every node's count is one more than the sum
    of its children's counts, and [Size] is the number of bindings. *)
Theorem count_invariant m :
  Reachable m → Z.of_nat (card m) ≤ max_int →
  count nilMap = 0 ∧ counted m ∧ Size m = Z.of_nat (length (bindings m)).
Proof.
  intros Hreach Hfit. split; [done|].
  destruct (Reachable_counted _ Hreach Hfit) as [Hc ->]. split; [done|].
  unfold card, bindings. by rewrite length_fmap.
Qed.

(** C7: on a reachable map whose number of nodes fits an [int], [Keys]
    returns a list of length [Size] without duplicates, and [ForEach]
    calls its function once for each binding of the map: whatever the
    function, its calls are a list [calls] of bindings in which no key
    occurs twice (the keys are those of [Keys], in order), every binding
    of the list is what [Lookup] returns for its key, and every binding
    [Lookup] finds (for a key not colliding with a key of the map) is in
    the list. *)
Theorem Keys_ForEach m :
  Reachable m → Z.of_nat (card m) ≤ max_int →
  ∃ ks calls,
    Keys m = Ok ks ∧ Z.of_nat (length ks) = Size m ∧ NoDup ks ∧
    (∀ (St : Type) (f : string → string → St → result St) s,
       ForEach m f s = visit_all f calls s) ∧
    ForEach m record [] = Ok calls ∧ calls.*1 = ks ∧
    (∀ k v, (k, v) ∈ calls → Lookup m k = (v, true)) ∧
    (∀ k v, NoCollision (k :: keys m) →
            Lookup m k = (v, true) → (k, v) ∈ calls).
Proof.
  intros Hreach Hfit. destruct (Reachable_inv _ Hreach) as (Hr & Hh & _).
  destruct (Reachable_counted _ Hreach Hfit) as [Hc Hsize].
  exists (keys m), (bindings m).
  split; [by apply Keys_keys|]. split.
  { rewrite Hsize. unfold keys, bindings, card. by rewrite !length_fmap. }
  split; [by apply Reachable_NoDup_keys|].
  split; [intros St f s; apply ForEach_visit_all|].
  split; [by rewrite ForEach_visit_all, visit_all_record|].
  split; [done|]. split.
  - intros k v [h Hin]%elem_of_bindings.
    rewrite (Hh _ _ _ Hin) in Hin. by eapply Lookup_present.
  - intros k v Hnc [k0 Hin]%lookup_found. apply elem_of_bindings.
    exists (hashKey k). assert (k0 = k) as <-; [|done].
    apply Hnc; [right; apply elem_of_keys; eauto|by left|].
    symmetry. by apply (Hh _ _ v).
Qed.

(** C8: on a reachable map that contains a key [k1], [Set] of a different
    key [k2] with the digest of [k1] panics with the collision message
    naming [k1] and [k2]; it returns no map. *)
Theorem Set_collision m k1 k2 v :
  Reachable m → k1 ∈ keys m → k2 ≠ k1 → hashKey k2 = hashKey k1 →
  Set_ m k2 v = Panic (collision_message k1 k2).
Proof.
  intros (Hr & Hh & _)%Reachable_inv (h & v1 & Hin)%elem_of_keys Hne Heq.
  unfold Set_. rewrite <-(N.shiftr_0_r (hashKey k2)) at 1.
  apply (setLowLevel_collision 0 m _ _ _ k1 v1); [done| |done].
  by rewrite Heq, <-(Hh _ _ _ Hin).
Qed.

(** C9: [deleteLeftmost] of a node whose count is 1 returns the node and
    the sentinel.  A node that satisfies the count invariant (its count
    is one more than the sum of its children's counts, which excludes
    the sentinel, and so on below it) and is not a leaf has a child that
    is not the sentinel, and on every such node [deleteLeftmost] returns:
    it does not reach its panic. *)
Theorem deleteLeftmost_total :
  (∀ m, Size m = 1 → deleteLeftmost m = Ok (m, nilMap)) ∧
  (∀ m, counted m →
        count m = 1 + foldr Z.add 0 ((fun j => count (children m j)) <$> slots) →
        (Size m ≠ 1 →
         ∃ j, (j < childCount)%nat ∧ children m j ≠ nilMap) ∧
        ∃ deleted rest, deleteLeftmost m = Ok (deleted, rest)).
Proof.
  split.
  - intros m Hm. destruct m as [|c h k v ch]; [done|].
    simpl in *. unfold isLeaf. simpl. by rewrite bool_decide_true.
  - intros m Hc Hroot.
    assert (m ≠ nilMap) as Hm.
    { intros ->. simpl in Hroot.
      assert (foldr Z.add 0 ((fun _ : nat => 0) <$> slots) = 0) as Hz
        by (clear; induction slots as [|j l IH]; [done|];
            rewrite fmap_cons; simpl; lia).
      lia. }
    split.
    + destruct m as [|c h k v ch]; [done|]. intros Hne.
      destruct (counted_not_leaf _ _ _ _ _ Hc Hne) as (j & Hj & Hpos).
      exists j. split; [done|]. simpl. intros Hnil. rewrite Hnil in Hpos.
      simpl in Hpos. lia.
    + destruct (deleteLeftmost_counted m Hc Hm) as (d & r & Hd & _). eauto.
Qed.

(** C10: on a reachable map whose number of nodes fits an [int], when
    [k], [k'] and the keys of the map have no digest in common, [Delete]
    of a key [k] of the map returns a map on which [Lookup] of any other
    key [k'] returns what it returned before. *)
Theorem Lookup_Delete_other m k k' :
  Reachable m → Z.of_nat (card m) ≤ max_int →
  NoCollision (k :: k' :: keys m) → k ∈ keys m → k' ≠ k →
  ∃ m', Delete m k = Ok m' ∧ Lookup m' k' = Lookup m k'.
Proof.
  intros Hreach Hfit Hnc Hk Hne.
  destruct (Reachable_inv _ Hreach) as (Hr & Hh & _).
  destruct (Reachable_counted _ Hreach Hfit) as [Hc _].
  destruct (Delete_spec m k Hr Hc) as (m' & Hdel & Hr' & Hcase).
  exists m'. split; [done|].
  destruct Hcase as [[_ ->]|(k0 & v0 & Hperm)]; [done|].
  assert (hashKey k' ≠ hashKey k) as Hhne.
  { intros Heq. apply Hne, Hnc; [right; left|left|]; done. }
  destruct (decide (hashKey k' ∈ hashes m)) as [Hin|Hnot].
  - apply elem_of_hashes in Hin as (k1 & v1 & Hin).
    rewrite (Lookup_present m k' k1 v1) by done.
    apply (Lookup_present m' k' k1 v1); [done|].
    rewrite Hperm in Hin. apply elem_of_cons in Hin as [[=]|?]; done.
  - rewrite (Lookup_absent m) by done. apply Lookup_absent.
    intros Hin. apply Hnot. unfold hashes in *. rewrite Hperm, fmap_cons.
    by right.
Qed.

(** ** Further properties of the functions *)

(** *** What [Lookup] returns after [Set] *)

Lemma lookup_setLowLevel_other m p p' h h' k v m' :
  setLowLevel m p h k v = Ok m' → h' ≠ h →
  lookupLowLevel m' p' h' = lookupLowLevel m p' h'.
Proof.
  revert p p' m'. induction m as [|c h0 k0 v0 ch IH]; intros p p' m'; simpl.
  - intros [= <-] Hne. simpl. by rewrite decide_True.
  - case_decide as Hne0; [|case_decide as Hk; [done|]].
    + destruct (setLowLevel (ch _) _ _ _ _) as [t|] eqn:Ht; simpl; [|done].
      intros [= <-] Hne. simpl. case_decide; [|done].
      case_decide as Hslot; [|done]. rewrite Hslot. by eapply IH.
    + intros [= <-] Hne. simpl. subst h0. by rewrite !decide_True.
Qed.

Lemma lookup_setLowLevel_same m p h k v m' :
  setLowLevel m p h k v = Ok m' → lookupLowLevel m' p h = (v, true).
Proof.
  revert p m'. induction m as [|c h0 k0 v0 ch IH]; intros p m'; simpl.
  - intros [= <-]. simpl. by rewrite decide_False by (by intros []).
  - case_decide as Hne0; [|case_decide as Hk; [done|]].
    + destruct (setLowLevel (ch _) _ _ _ _) as [t|] eqn:Ht; simpl; [|done].
      intros [= <-]. simpl. rewrite decide_True by done.
      rewrite decide_True by done. by eapply IH.
    + intros [= <-]. simpl. subst h0. by rewrite decide_False by (by intros []).
Qed.

(** X1: on every tree, when [Set] of [k] to [v] returns, [Lookup] on the
    result returns [(v, true)] for every key with the digest of [k] and
    what it returned before for every other key. *)
Theorem Lookup_after_Set m k v m' k' :
  Set_ m k v = Ok m' →
  Lookup m' k' =
  if decide (hashKey k' = hashKey k) then (v, true) else Lookup m k'.
Proof.
  unfold Set_, Lookup. intros Hset. case_decide as Heq.
  - rewrite Heq. by eapply lookup_setLowLevel_same.
  - by eapply lookup_setLowLevel_other.
Qed.

(** *** The bindings after [Set] and [Delete] *)

Lemma others_all (h : N) (l : list (N * (string * string))) :
  h ∉ l.*1 → filter (fun n => n.1 ≠ h) l = l.
Proof.
  induction l as [|[h0 kv] l IH]; [done|]. rewrite fmap_cons, not_elem_of_cons.
  simpl. intros [Hne Hl]. rewrite filter_cons_True by (simpl; congruence).
  by rewrite IH.
Qed.

Lemma others_bindings m k :
  hashed m →
  others k (bindings m) = (filter (fun n => n.1 ≠ hashKey k) (nodes m)).*2.
Proof.
  intros Hh. unfold others, bindings.
  assert (Forall (fun n => n.1 = hashKey n.2.1) (nodes m)) as Hall.
  { apply Forall_forall. intros [h [k0 v0]] Hin. by apply (Hh _ _ v0). }
  induction Hall as [|[h [k0 v0]] l Hn Hall IH]; [done|].
  simpl in Hn. rewrite fmap_cons. simpl.
  destruct (decide (hashKey k0 = hashKey k)) as [Heq|Hne].
  - rewrite !filter_cons_False by (simpl; rewrite ?Hn; tauto). apply IH.
  - rewrite !filter_cons_True by (simpl; rewrite ?Hn; done).
    rewrite fmap_cons. simpl. by rewrite IH.
Qed.

Lemma Set_nodes m k v m' :
  routed 0 m → Set_ m k v = Ok m' →
  nodes m' ≡ₚ
  (hashKey k, (k, v)) :: filter (fun n => n.1 ≠ hashKey k) (nodes m).
Proof.
  intros Hr Hset. pose proof (routed_NoDup _ _ Hr) as Hnd.
  destruct (Set_spec _ _ _ _ Hr Hset) as (_ & l & Hl & Hcase).
  rewrite Hl. apply Permutation_skip.
  destruct Hcase as [[Hm Hnot]|[v0 Hm]].
  - rewrite others_all by done. by symmetry.
  - unfold hashes in Hnd. rewrite Hm, fmap_cons in Hnd.
    apply NoDup_cons in Hnd as [Hnot _]. rewrite Hm. simpl in *.
    rewrite filter_cons_False by (simpl; tauto). by rewrite others_all.
Qed.

Lemma Delete_nodes m k :
  routed 0 m → counted m →
  ∃ m', Delete m k = Ok m' ∧ routed 0 m' ∧
        nodes m' ≡ₚ filter (fun n => n.1 ≠ hashKey k) (nodes m).
Proof.
  intros Hr Hc. pose proof (routed_NoDup _ _ Hr) as Hnd.
  destruct (Delete_spec m k Hr Hc) as (m' & Hdel & Hr' & Hcase).
  exists m'. split; [done|]. split; [done|].
  destruct Hcase as [[Hnot ->]|(k0 & v0 & Hm)].
  - by rewrite others_all.
  - unfold hashes in Hnd. rewrite Hm, fmap_cons in Hnd.
    apply NoDup_cons in Hnd as [Hnot _]. rewrite Hm. simpl in *.
    rewrite filter_cons_False by (simpl; tauto). by rewrite others_all.
Qed.

(** X2: on a reachable map, when [Set] of [k] to [v] returns, the
    bindings of the result are the binding of [k] to [v] and the bindings
    of the map whose key has another digest than [k]. *)
Theorem Set_bindings m k v m' :
  Reachable m → Set_ m k v = Ok m' →
  bindings m' ≡ₚ (k, v) :: others k (bindings m).
Proof.
  intros (Hr & Hh & _)%Reachable_inv Hset.
  rewrite others_bindings by done. unfold bindings at 1.
  by rewrite (Set_nodes _ _ _ _ Hr Hset).
Qed.

(** X3: on a reachable map whose number of nodes fits an [int], [Delete]
    returns, whatever the key, and the bindings of the result are the
    bindings of the map whose key has another digest than [k]. *)
Theorem Delete_bindings m k :
  Reachable m → Z.of_nat (card m) ≤ max_int →
  ∃ m', Delete m k = Ok m' ∧ bindings m' ≡ₚ others k (bindings m).
Proof.
  intros Hreach Hfit. destruct (Reachable_inv _ Hreach) as (Hr & Hh & _).
  destruct (Reachable_counted _ Hreach Hfit) as [Hc _].
  destruct (Delete_nodes m k Hr Hc) as (m' & Hdel & _ & Hm').
  exists m'. split; [done|]. rewrite others_bindings by done.
  unfold bindings at 1. by rewrite Hm'.
Qed.

(** *** [Lookup] depends on the bindings, not on the shape of the tree *)

Lemma hashed_nodes m :
  hashed m → nodes m = (fun kv => (hashKey kv.1, kv)) <$> bindings m.
Proof.
  intros Hh. unfold bindings. rewrite <-list_fmap_compose.
  rewrite <-(list_fmap_id (nodes m)) at 1.
  apply list_fmap_ext. intros i [h [k v]] Hi. simpl. f_equal.
  apply (Hh h k v). by eapply list_elem_of_lookup_2.
Qed.

Lemma Lookup_nodes a b k :
  routed 0 a → routed 0 b → nodes a ≡ₚ nodes b → Lookup a k = Lookup b k.
Proof.
  intros Ha Hb Hab.
  destruct (decide (hashKey k ∈ hashes a)) as [Hin|Hnot].
  - apply elem_of_hashes in Hin as (k1 & v1 & Hin).
    rewrite (Lookup_present a k k1 v1) by done.
    symmetry. apply (Lookup_present b k k1 v1); [done|]. by rewrite <-Hab.
  - rewrite (Lookup_absent a) by done. symmetry. apply Lookup_absent.
    unfold hashes in *. by rewrite <-Hab.
Qed.

(** X4: two reachable maps with the same bindings, in whatever order,
    answer every [Lookup] alike. *)
Theorem Lookup_bindings a b :
  Reachable a → Reachable b → bindings a ≡ₚ bindings b →
  ∀ k, Lookup a k = Lookup b k.
Proof.
  intros (Ha & Hha & _)%Reachable_inv (Hb & Hhb & _)%Reachable_inv Hab k.
  apply Lookup_nodes; [done..|].
  by rewrite (hashed_nodes a), (hashed_nodes b), Hab.
Qed.

(** *** The only failure of [Set] *)

Lemma setLowLevel_panic m p h k v msg :
  setLowLevel m p h k v = Panic msg →
  ∃ k0 v0, (h, (k0, v0)) ∈ nodes m ∧ k0 ≠ k ∧ msg = collision_message k0 k.
Proof.
  revert p. induction m as [|c h0 k0 v0 ch IH]; intros p; simpl; [done|].
  case_decide as Hne; [|case_decide as Hk; [|done]].
  - destruct (setLowLevel (ch _) _ _ _ _) as [t|msg'] eqn:Ht; simpl; [done|].
    intros [= <-]. apply IH in Ht as (k1 & v1 & Hin & Hk1 & Hmsg).
    exists k1, v1. split; [|done].
    apply elem_of_nodes_Node. right. eauto using slot_lt.
  - subst h0. intros [= <-]. exists k0, v0. split; [|by split].
    apply elem_of_nodes_Node. by left.
Qed.

(** X5: on a reachable map, [Set] of [k] panics only when the map holds
    another key with the digest of [k], and then with the collision
    message that names the two keys. *)
Theorem Set_panics_only_on_collision m k v msg :
  Reachable m → Set_ m k v = Panic msg →
  ∃ k0, k0 ∈ keys m ∧ k0 ≠ k ∧ hashKey k0 = hashKey k ∧
        msg = collision_message k0 k.
Proof.
  intros (_ & Hh & _)%Reachable_inv
    (k0 & v0 & Hin & Hne & Hmsg)%setLowLevel_panic.
  exists k0. split; [apply elem_of_keys; eauto|]. split; [done|].
  split; [|done]. symmetry. by apply (Hh _ _ v0).
Qed.

(** *** The order of two calls of [Set] *)

Lemma filter_others_comm (h1 h2 : N) (l : list (N * (string * string))) :
  filter (fun n => n.1 ≠ h2) (filter (fun n => n.1 ≠ h1) l) =
  filter (fun n => n.1 ≠ h1) (filter (fun n => n.1 ≠ h2) l).
Proof. rewrite !list_filter_filter. apply list_filter_iff. tauto. Qed.

(** X6: on a reachable map, when [Set] of [k1] and then [Set] of [k2], a
    key with another digest, return, so do the two calls in the other
    order, and the two results have the same bindings and answer every
    [Lookup] alike. *)
Theorem Set_commutes m k1 v1 k2 v2 a a' :
  Reachable m → hashKey k1 ≠ hashKey k2 →
  Set_ m k1 v1 = Ok a → Set_ a k2 v2 = Ok a' →
  ∃ b b', Set_ m k2 v2 = Ok b ∧ Set_ b k1 v1 = Ok b' ∧
          bindings a' ≡ₚ bindings b' ∧
          ∀ k, Lookup a' k = Lookup b' k.
Proof.
  intros Hreach Hne Ha Ha'. destruct (Reachable_inv _ Hreach) as (Hr & _).
  destruct (Set_spec _ _ _ _ Hr Ha) as [Hra _].
  destruct (Set_spec _ _ _ _ Hra Ha') as [Hra' _].
  pose proof (Set_nodes _ _ _ _ Hr Ha) as Hna.
  pose proof (Set_nodes _ _ _ _ Hra Ha') as Hna'.
  destruct (Set_ m k2 v2) as [b|msg] eqn:Hb; last first.
  { apply setLowLevel_panic in Hb as (k0 & v0 & Hin & Hk0 & _).
    assert ((hashKey k2, (k0, v0)) ∈ nodes a) as Hin'.
    { rewrite Hna. right. apply list_elem_of_filter. split; [|done].
      simpl. congruence. }
    unfold Set_ in Ha'. rewrite <-(N.shiftr_0_r (hashKey k2)) in Ha' at 1.
    by rewrite (setLowLevel_collision 0 a _ k2 v2 k0 v0) in Ha'. }
  destruct (Set_spec _ _ _ _ Hr Hb) as [Hrb _].
  pose proof (Set_nodes _ _ _ _ Hr Hb) as Hnb.
  destruct (Set_ b k1 v1) as [b'|msg] eqn:Hb'; last first.
  { apply setLowLevel_panic in Hb' as (k0 & v0 & Hin & Hk0 & _).
    rewrite Hnb in Hin. apply elem_of_cons in Hin as [[=]|Hin]; [done|].
    apply list_elem_of_filter in Hin as [_ Hin].
    unfold Set_ in Ha. rewrite <-(N.shiftr_0_r (hashKey k1)) in Ha at 1.
    by rewrite (setLowLevel_collision 0 m _ k1 v1 k0 v0) in Ha. }
  destruct (Set_spec _ _ _ _ Hrb Hb') as [Hrb' _].
  pose proof (Set_nodes _ _ _ _ Hrb Hb') as Hnb'.
  exists b, b'. split; [done|]. split; [done|].
  assert (nodes a' ≡ₚ nodes b') as Hsame.
  { rewrite Hna', Hnb', Hna, Hnb.
    rewrite !filter_cons_True by (simpl; congruence).
    rewrite filter_others_comm. apply perm_swap. }
  split.
  - unfold bindings. by rewrite Hsame.
  - intros k. by apply Lookup_nodes.
Qed.

(** *** Deleting again, and deleting every key *)

Lemma Delete_gone m k m' :
  routed 0 m → counted m → Delete m k = Ok m' → hashKey k ∉ hashes m'.
Proof.
  intros Hr Hc Hdel.
  destruct (Delete_nodes m k Hr Hc) as (m1 & Hdel1 & _ & Hm1).
  assert (m1 = m') as -> by congruence.
  unfold hashes. rewrite Hm1. intros Hin.
  apply list_elem_of_fmap in Hin as ([h kv] & Heq & Hin).
  apply list_elem_of_filter in Hin as [Hne _]. simpl in *. congruence.
Qed.

(** X7: on a reachable map whose number of nodes fits an [int], [Delete]
    never panics, and [Delete] of the same key on its result returns that
    result. *)
Theorem Delete_idempotent m k :
  Reachable m → Z.of_nat (card m) ≤ max_int →
  ∃ m', Delete m k = Ok m' ∧ Delete m' k = Ok m'.
Proof.
  intros Hreach Hfit. destruct (Reachable_inv _ Hreach) as (Hr & _).
  destruct (Reachable_counted _ Hreach Hfit) as [Hc _].
  destruct (Delete_spec m k Hr Hc) as (m' & Hdel & _).
  exists m'. split; [done|].
  pose proof (Delete_gone _ _ _ Hr Hc Hdel) as Hnot.
  unfold Delete. by rewrite deleteLowLevel_absent.
Qed.

Lemma Delete_keys m k :
  Reachable m → Z.of_nat (card m) ≤ max_int → k ∈ keys m →
  ∃ m', Delete m k = Ok m' ∧ keys m ≡ₚ k :: keys m'.
Proof.
  intros Hreach Hfit Hk. destruct (Reachable_inv _ Hreach) as (Hr & Hh & _).
  destruct (Reachable_counted _ Hreach Hfit) as [Hc _].
  destruct (Delete_spec m k Hr Hc) as (m' & Hdel & _ & Hcase).
  exists m'. split; [done|].
  destruct Hcase as [[Hnot _]|(k0 & v0 & Hperm)].
  { destruct Hnot. by apply hashed_elem_of_hashes. }
  assert (k0 = k) as ->.
  { pose proof (routed_NoDup _ _ Hr) as Hnd.
    unfold hashes in Hnd. rewrite Hperm, fmap_cons in Hnd.
    apply NoDup_cons in Hnd as [Hnot _].
    apply elem_of_keys in Hk as (h & v & Hin).
    pose proof (Hh _ _ _ Hin) as ->. rewrite Hperm in Hin.
    apply elem_of_cons in Hin as [[=]|Hin]; [done|].
    destruct Hnot. apply list_elem_of_fmap. by exists (hashKey k, (k, v)). }
  unfold keys, bindings. by rewrite Hperm.
Qed.

Lemma card_keys m : length (keys m) = card m.
Proof. unfold keys, bindings, card. by rewrite !length_fmap. Qed.

Lemma delete_all_keys ks m :
  Reachable m → Z.of_nat (card m) ≤ max_int → ks ≡ₚ keys m →
  delete_all ks m = Ok NewStringMap.
Proof.
  revert m. induction ks as [|k ks IH]; intros m Hreach Hfit Hks.
  - apply Permutation_nil_l in Hks. destruct m as [|c h k v ch]; [done|].
    unfold keys, bindings in Hks. by rewrite nodes_Node in Hks.
  - destruct (Delete_keys m k) as (m' & Hdel & Hperm); [done..| |].
    { rewrite <-Hks. by left. }
    simpl. rewrite Hdel. simpl.
    assert (ks ≡ₚ keys m') as Hks'.
    { apply (Permutation_cons_inv (a:=k)). by rewrite Hks. }
    apply IH; [by eapply Reachable_delete| |done].
    apply Permutation_length in Hperm. simpl in Hperm.
    rewrite !card_keys in Hperm. lia.
Qed.

(** X8: on a reachable map whose number of nodes fits an [int], [Delete]
    of each key that [Keys] returns, one after the other in whatever
    order, returns, and the last result is the empty map itself. *)
Theorem Delete_all_keys m ks0 ks :
  Reachable m → Z.of_nat (card m) ≤ max_int →
  Keys m = Ok ks0 → ks ≡ₚ ks0 →
  delete_all ks m = Ok NewStringMap.
Proof.
  intros Hreach Hfit Hkeys Hks.
  destruct (Reachable_counted _ Hreach Hfit) as [_ Hsize].
  rewrite (Keys_keys m Hsize Hfit) in Hkeys. injection Hkeys as <-.
  by apply delete_all_keys.
Qed.

(** *** The empty map *)

(** X9: on a reachable map whose number of nodes fits an [int], [IsNil]
    holds exactly when [Size] is 0. *)
Theorem IsNil_Size m :
  Reachable m → Z.of_nat (card m) ≤ max_int →
  IsNil m = bool_decide (Size m = 0).
Proof.
  intros Hreach Hfit. destruct (Reachable_counted _ Hreach Hfit) as [_ Hsize].
  destruct m as [|c h k v ch]; [done|].
  symmetry. apply bool_decide_eq_false. rewrite Hsize.
  unfold card. rewrite nodes_Node. simpl length. lia.
Qed.

(** *** The text of a map *)

Lemma append_assoc (s1 s2 s3 : string) :
  (s1 +:+ s2) +:+ s3 = s1 +:+ s2 +:+ s3.
Proof.
  induction s1 as [|c s1 IH]; [done|].
  change (String c ((s1 +:+ s2) +:+ s3) = String c (s1 +:+ s2 +:+ s3)).
  by rewrite IH.
Qed.

Lemma append_nil_r (s : string) : s +:+ "" = s.
Proof.
  induction s as [|c s IH]; [done|].
  change (String c (s +:+ "") = String c s). by rewrite IH.
Qed.

Lemma render_cons k v l :
  render ((k, v) :: l) = k +:+ ": " +:+ v +:+ ", " +:+ render l.
Proof. done. Qed.

Lemma write_entries m (l : list (string * string)) buf :
  Forall (fun kv => Lookup m kv.1 = (kv.2, true)) l →
  fold_left
    (fun buf key => let '(val, _) := Lookup m key in write_entry buf key val)
    l.*1 buf =
  buf +:+ render l.
Proof.
  revert buf. induction l as [|[k v] l IH]; intros buf Hall.
  - simpl. by rewrite append_nil_r.
  - apply Forall_cons in Hall as [Hk Hall]. simpl in Hk.
    rewrite fmap_cons. cbn [fold_left fst]. rewrite Hk, IH by done.
    unfold write_entry. by rewrite render_cons, !append_assoc.
Qed.

(** X10: on a reachable map whose number of nodes fits an [int],
    [String] returns an opening brace, then [key: value, ] for each
    binding in the order of [ForEach], then a closing brace and a line
    feed: the value it looks up for each key is the value of that key's
    binding. *)
Theorem String_renders m :
  Reachable m → Z.of_nat (card m) ≤ max_int →
  String_ m = Ok ("{" +:+ render (bindings m) +:+ "}" +:+ newline).
Proof.
  intros Hreach Hfit. destruct (Reachable_inv _ Hreach) as (Hr & Hh & _).
  destruct (Reachable_counted _ Hreach Hfit) as [_ Hsize].
  unfold String_. rewrite (Keys_keys m Hsize Hfit).
  cbn [mbind result_bind]. unfold keys. rewrite write_entries.
  - unfold write_end. by rewrite append_assoc.
  - apply Forall_forall. intros [k v] [h Hin]%elem_of_bindings. simpl.
    rewrite (Hh _ _ _ Hin) in Hin. by eapply Lookup_present.
Qed.

(** *** The number of subtrees *)

Lemma subtreeCount_loop (ch : nat → StringMap) (l : list nat) (a : Z) :
  0 ≤ a → a + Z.of_nat (length l) ≤ max_int →
  fold_left
    (fun count j => if negb (IsNil (ch j)) then int_add count 1 else count)
    l a =
  a + Z.of_nat (length (filter (fun j => IsNil (ch j) = false) l)).
Proof.
  revert a. induction l as [|j l IH]; intros a Ha Hfit; simpl in *; [lia|].
  destruct (IsNil (ch j)) eqn:Hj; simpl.
  - rewrite IH by lia. rewrite filter_cons_False; [done|]. by rewrite Hj.
  - rewrite int_add_id by lia. rewrite IH by lia.
    rewrite filter_cons_True by done. simpl length. lia.
Qed.

(** X11: on a node that satisfies the count invariant, with a branching
    factor that fits an [int], [subtreeCount] is the number of children
    that are not the sentinel, and [isLeaf] holds exactly when the node is
    not the sentinel and [subtreeCount] is 0. *)
Theorem subtreeCount_isLeaf m :
  counted m → Z.of_nat childCount ≤ max_int →
  subtreeCount m =
    Z.of_nat (length (filter (fun j => IsNil (children m j) = false) slots)) ∧
  (isLeaf m = true ↔ IsNil m = false ∧ subtreeCount m = 0).
Proof.
  intros Hc Hcc.
  assert (subtreeCount m =
    Z.of_nat (length (filter (fun j => IsNil (children m j) = false) slots)))
    as Hn.
  { unfold subtreeCount. rewrite subtreeCount_loop; [lia|lia|].
    unfold slots. rewrite length_seq. lia. }
  split; [done|]. rewrite Hn. clear Hn.
  destruct m as [|c h k v ch]; [by split; [|intros [[=] _]]|].
  unfold isLeaf. rewrite bool_decide_eq_true. simpl Size. simpl children.
  split.
  - intros ->. split; [done|].
    destruct (filter _ slots) as [|j l] eqn:Hf; [done|].
    assert (j ∈ filter (fun j => IsNil (ch j) = false) slots) as Hj
      by (rewrite Hf; by left).
    apply list_elem_of_filter in Hj as [Hnn Hj].
    destruct Hc as [Hsum Hch]. apply elem_of_slots in Hj as Hlt.
    pose proof (foldr_add_elem_le (fun j => count (ch j)) slots j) as Hle.
    simpl in Hle.
    assert (∀ y, y ∈ slots → 0 ≤ count (ch y)) as Hnonneg.
    { intros y Hy%elem_of_slots. by apply counted_nonneg, Hch. }
    specialize (Hle Hnonneg Hj).
    rewrite (counted_card _ (Hch j Hlt)) in Hle.
    destruct (ch j) as [|c' h' k' v' ch']; [done|].
    unfold card in Hle. rewrite nodes_Node in Hle. simpl length in Hle. lia.
  - intros [_ Hz]. destruct (decide (c = 1)) as [|Hne]; [done|].
    destruct (counted_not_leaf _ _ _ _ _ Hc Hne) as (j & Hj & Hpos).
    assert (j ∈ filter (fun j => IsNil (ch j) = false) slots) as Hin.
    { apply list_elem_of_filter. split; [|by apply elem_of_slots].
      destruct (ch j); [simpl in Hpos; lia|done]. }
    destruct (filter _ slots); [by apply elem_of_nil in Hin|].
    simpl in Hz. lia.
Qed.

(** *** What [deleteLeftmost] removes *)

Lemma find_first_child (ch : nat → StringMap) (l : list nat) i :
  NoDup l → find (fun j => negb (IsNil (ch j))) l = Some i →
  ∃ l2, (l ≫= fun j => nodes (ch j)) = nodes (ch i) ++ l2 ∧
        ∀ t, (l ≫= fun j => nodes (if decide (j = i) then t else ch j)) =
             nodes t ++ l2.
Proof.
  induction l as [|j l IH]; intros Hnd; [done|].
  apply NoDup_cons in Hnd as [Hj Hnd]. cbn [find].
  destruct (IsNil (ch j)) eqn:Hnil; cbn [negb].
  - intros Hfind. destruct (IH Hnd Hfind) as (l2 & H1 & H2).
    apply find_some in Hfind as [_ Hi].
    assert (j ≠ i) as Hne by (intros ->; by rewrite Hnil in Hi).
    exists l2. split.
    + rewrite bind_cons, H1. by destruct (ch j).
    + intros t. rewrite bind_cons, decide_False, H2 by done.
      by destruct (ch j).
  - intros [= ->]. exists (l ≫= fun j => nodes (ch j)).
    split; [by rewrite bind_cons|]. intros t.
    rewrite bind_cons, decide_True by done. f_equal.
    apply (bind_ext_notin _ _ l i); [done|].
    intros j ? ?. by rewrite decide_False.
Qed.

Lemma deleteLeftmost_nodes m d r :
  counted m → deleteLeftmost m = Ok (d, r) →
  count d = 1 ∧
  ∃ pre post, nodes m = pre ++ root d :: post ∧ nodes r = pre ++ post.
Proof.
  revert d r. induction m as [|c h k v ch IH]; intros d r Hc; [done|].
  simpl. unfold isLeaf. simpl. case_bool_decide as Hleaf.
  { intros [= <- <-]. split; [done|]. exists [], [].
    split; [|done]. apply counted_card in Hc. simpl in Hc.
    unfold card in Hc. rewrite nodes_Node in *. simpl length in Hc.
    destruct (slots ≫= _); [done|]. simpl in Hc. lia. }
  destruct (find _ slots) as [i|] eqn:Hfind; [|done].
  destruct (find_first_child ch slots i NoDup_slots Hfind) as (l2 & H1 & H2).
  apply find_some in Hfind as [Hi _].
  apply list_elem_of_In, elem_of_slots in Hi.
  destruct (deleteLeftmost (ch i)) as [[d' child]|] eqn:Hdl; simpl; [|done].
  intros [= <- <-].
  apply IH in Hdl as (Hd & pre & post & Hpre & Hpost); [|by apply Hc].
  split; [done|]. exists ((h, (k, v)) :: pre), (post ++ l2).
  unfold recalculateCount, set_child, set_count. simpl.
  rewrite !nodes_Node, H1, (H2 child), Hpre, Hpost.
  by rewrite <-!app_assoc.
Qed.

(** X12: on a node that satisfies the count invariant, when
    [deleteLeftmost] returns, the deleted node is a leaf, and the tree
    left over holds the other bindings of the node in the order they had:
    only the binding of the deleted node is gone. *)
Theorem deleteLeftmost_order m d r :
  counted m → deleteLeftmost m = Ok (d, r) →
  Size d = 1 ∧
  ∃ pre post,
    bindings m = pre ++ (key d, value d) :: post ∧ bindings r = pre ++ post.
Proof.
  intros Hc Hdl.
  destruct (deleteLeftmost_nodes _ _ _ Hc Hdl)
    as (Hd & pre & post & Hm & Hr).
  split; [done|]. exists pre.*2, post.*2. unfold bindings.
  by rewrite Hm, Hr, !fmap_app.
Qed.

(** *** [Lookup] in terms of the bindings *)

(** X13: on a reachable map, [Lookup] of [k] returns the value of the
    binding whose key has the digest of [k], with [true], and the empty
    string with [false] when the map has no such binding. *)
Theorem Lookup_spec m k :
  Reachable m →
  Lookup m k =
  match list_find (fun kv => hashKey kv.1 = hashKey k) (bindings m) with
  | Some (_, (_, v)) => (v, true)
  | None => ("", false)
  end.
Proof.
  intros (Hr & Hh & _)%Reachable_inv.
  destruct (list_find _ _) as [[i [k0 v]]|] eqn:Hfind.
  - apply list_find_Some in Hfind as (Hi & Heq & _). simpl in Heq.
    apply list_elem_of_lookup_2, elem_of_bindings in Hi as [h Hin].
    apply (Lookup_present m k k0 v); [done|].
    by rewrite <-Heq, <-(Hh _ _ _ Hin).
  - apply list_find_None in Hfind. apply Lookup_absent.
    intros (k0 & v & Hin)%elem_of_hashes.
    rewrite Forall_forall in Hfind. apply (Hfind (k0, v)).
    + apply elem_of_bindings. eauto.
    + simpl. symmetry. by apply (Hh _ _ v).
Qed.

(** *** [Set] of a new key, then [Delete] of it *)

(** X14: on a reachable map with room for one more node, when [Lookup]
    of [k] finds nothing, [Set] of [k] returns, [Delete] of [k] on its
    result returns, and the map it returns has the bindings of the map
    before [Set] and answers every [Lookup] as that map does. *)
Theorem Delete_after_Set m k v v0 :
  Reachable m → Z.of_nat (card m) < max_int → Lookup m k = (v0, false) →
  ∃ m1 m2, Set_ m k v = Ok m1 ∧ Delete m1 k = Ok m2 ∧
           bindings m2 ≡ₚ bindings m ∧
           ∀ k', Lookup m2 k' = Lookup m k'.
Proof.
  intros Hreach Hfit Hlookup. destruct (Reachable_inv _ Hreach) as (Hr & _).
  assert (hashKey k ∉ hashes m) as Hnot.
  { intros (k1 & v1 & Hin)%elem_of_hashes.
    by rewrite (Lookup_present m k k1 v1) in Hlookup. }
  destruct (setLowLevel_ok m (hashKey k) (hashKey k) k v) as [m1 Hset].
  { intros k1 v1 Hin. destruct Hnot. apply elem_of_hashes. eauto. }
  assert (Reachable m1) as Hreach1 by (by eapply Reachable_set).
  destruct (Set_spec _ _ _ _ Hr Hset) as [Hr1 _].
  pose proof (Set_nodes _ _ _ _ Hr Hset) as Hn1.
  rewrite others_all in Hn1 by done.
  assert (card m1 = S (card m)) as Hcard by (unfold card; by rewrite Hn1).
  destruct (Reachable_counted _ Hreach1) as [Hc1 _]; [lia|].
  destruct (Delete_nodes m1 k Hr1 Hc1) as (m2 & Hdel & Hr2 & Hn2).
  assert (nodes m2 ≡ₚ nodes m) as Hsame.
  { rewrite Hn2, Hn1. rewrite filter_cons_False by (simpl; tauto).
    by rewrite others_all. }
  exists m1, m2. split; [done|]. split; [done|]. split.
  - unfold bindings. by rewrite Hsame.
  - intros k'. by apply Lookup_nodes.
Qed.

(** *** The order of the bindings after [Set] and [Delete] *)

Ltac list_assoc :=
  simpl; repeat first [rewrite <-app_assoc | rewrite <-app_comm_cons]; simpl.

Lemma setLowLevel_order m p h k v m' :
  setLowLevel m p h k v = Ok m' →
  ∃ pre post,
    nodes m' = pre ++ (h, (k, v)) :: post ∧
    (nodes m = pre ++ post ∨ ∃ v0, nodes m = pre ++ (h, (k, v0)) :: post).
Proof.
  revert p m'. induction m as [|c h0 k0 v0 ch IH]; intros p m'; simpl.
  - intros [= <-]. exists [], []. split; [|by left].
    rewrite nodes_unfold by done. simpl. f_equal.
    clear. by induction slots.
  - case_decide as Hne; [|case_decide as Hk; [done|]].
    + destruct (setLowLevel (ch _) _ _ _ _) as [t|] eqn:Ht; simpl; [|done].
      intros [= <-]. apply IH in Ht as (pre & post & Ht & Hcase).
      destruct (nodes_set_child (Node c h0 k0 v0 ch) (slot p) t)
        as (l1 & l2 & H1 & H2); [done|apply slot_lt|].
      exists ((h0, (k0, v0)) :: l1 ++ pre), (post ++ l2).
      rewrite H1, H2, Ht. simpl children. simpl root. split.
      { by list_assoc. }
      destruct Hcase as [Hcase|[v1 Hcase]]; [left|right; exists v1];
        rewrite Hcase; by list_assoc.
    + subst h0. assert (k = k0) as <- by (by destruct (decide (k = k0))).
      intros [= <-]. exists [], (slots ≫= fun j => nodes (ch j)).
      split; [done|]. right. by exists v0.
Qed.

(** X15: on every tree, when [Set] of [k] to [v] returns, the bindings
    of the result, in the order of [ForEach], are those of the tree in
    their order, with the binding of [k] to [v] added at one place or put
    in the place of the binding [k] had. *)
Theorem Set_order m k v m' :
  Set_ m k v = Ok m' →
  ∃ pre post,
    bindings m' = pre ++ (k, v) :: post ∧
    (bindings m = pre ++ post ∨ ∃ v0, bindings m = pre ++ (k, v0) :: post).
Proof.
  intros (pre & post & Hm' & Hcase)%setLowLevel_order.
  exists pre.*2, post.*2. unfold bindings. rewrite Hm', fmap_app.
  split; [done|].
  destruct Hcase as [->|[v0 ->]]; [left|right; exists v0];
    by rewrite fmap_app.
Qed.

Lemma deleteLowLevel_order m p h m' :
  counted m → deleteLowLevel m p h = Ok (m', true) →
  ∃ k0 v0 pre mid r post,
    nodes m = pre ++ (h, (k0, v0)) :: mid ++ r ++ post ∧
    nodes m' = pre ++ r ++ mid ++ post ∧ (length r ≤ 1)%nat.
Proof.
  revert p m'. induction m as [|c h0 k0 v0 ch IH]; intros p m' Hc; [done|].
  simpl. case_decide as Hne.
  - destruct (deleteLowLevel (ch _) _ _) as [[child found]|] eqn:Hd;
      simpl; [|done].
    destruct found; simpl; [|done]. intros [= <-].
    apply IH in Hd as (k1 & v1 & pre & mid & r & post & Hm & Hm' & Hr);
      [|by apply Hc, slot_lt].
    destruct (nodes_set_child (Node c h0 k0 v0 ch) (slot p) child)
      as (l1 & l2 & H1 & H2); [done|apply slot_lt|].
    exists k1, v1, ((h0, (k0, v0)) :: l1 ++ pre), mid, r, (post ++ l2).
    rewrite H1, H2. simpl children. simpl root. rewrite Hm, Hm'.
    split; [|split; [|done]]; by list_assoc.
  - subst h0. unfold isLeaf. simpl Size. case_bool_decide as Hleaf.
    { intros [= <-]. exists k0, v0, [], [], [], [].
      split; [|split; [done|simpl; lia]].
      apply counted_card in Hc. simpl in Hc. unfold card in Hc.
      rewrite nodes_Node in *. simpl length in Hc.
      destruct (slots ≫= _); [done|]. simpl in Hc. lia. }
    destruct (largest _) as [i sz] eqn:Hl. case_bool_decide as Hneg; [done|].
    destruct (deleteLeftmost _) as [[replacement child]|] eqn:Hdl;
      simpl; [|done].
    intros [= <-].
    apply largest_spec in Hl as [[-> _]|(Hi0 & Hi & _)]; [lia|].
    apply deleteLeftmost_nodes in Hdl as (_ & pre & post & Hpre & Hpost);
      [|by apply Hc].
    destruct (adopt_spec (Node c h k0 v0 ch) replacement i child Hi0)
      as (Hnn & Hroot & Hch).
    set (newMap := recalculateCount _) in *.
    destruct (nodes_update (Node c h k0 v0 ch) newMap (Z.to_nat i))
      as (l1 & l2 & H1 & H2); [done..| |].
    { intros j Hj Hne. by rewrite (Hch j Hj), decide_False. }
    rewrite (Hch _ Hi), decide_True, Hroot in H2 by done.
    simpl children in H1. simpl root in H1.
    exists k0, v0, [], (l1 ++ pre), [root replacement], (post ++ l2).
    rewrite H1, H2, Hpre, Hpost. split; [|split; [|done]]; by list_assoc.
Qed.

(** X16: on a reachable map whose number of nodes fits an [int], when
    [Delete] of [k] returns another map than the one it was called on,
    the binding whose key has the digest of [k] is gone, at most one
    other binding has moved, into its place, and all the others are in
    the order they had. *)
Theorem Delete_order m k m' :
  Reachable m → Z.of_nat (card m) ≤ max_int → Delete m k = Ok m' →
  m' = m ∨
  ∃ k0 v0 pre mid r post,
    hashKey k0 = hashKey k ∧
    bindings m = pre ++ (k0, v0) :: mid ++ r ++ post ∧
    bindings m' = pre ++ r ++ mid ++ post ∧ (length r ≤ 1)%nat.
Proof.
  intros Hreach Hfit. destruct (Reachable_inv _ Hreach) as (Hr & Hh & _).
  destruct (Reachable_counted _ Hreach Hfit) as [Hc _].
  unfold Delete.
  destruct (deleteLowLevel _ _ _) as [[newMap b]|] eqn:Hd; simpl; [|done].
  intros [= <-]. destruct b.
  - right.
    apply deleteLowLevel_order in Hd
      as (k0 & v0 & pre & mid & r & post & Hm & Hm' & Hlen); [|done].
    exists k0, v0, pre.*2, mid.*2, r.*2, post.*2.
    split; [|split; [|split]].
    + symmetry. apply (Hh _ _ v0). rewrite Hm, elem_of_app. right. by left.
    + unfold bindings. by rewrite Hm, fmap_app, fmap_cons, !fmap_app.
    + unfold bindings. by rewrite Hm', !fmap_app.
    + by rewrite length_fmap.
  - left. rewrite <-(N.shiftr_0_r (hashKey k)) in Hd at 1.
    apply deleteLowLevel_sub in Hd as [_ [-> _]]; done.
Qed.

End StringMap.

(** * The tree in a store

    Nodes live in a store and are addressed by pointers; the sentinel is
    the node at address [nilMap], whose children all point back at it.
    [clone] allocates a node, the field assignments of the code write to
    the store, and every pointer comparison of the code is a comparison
    of addresses.  Recursion is bounded by a budget: [None] is the
    outcome of a run that exhausted it. *)

Module Heap.

(** Addresses. *)
Abbreviation loc := nat.

Record node : Type := Build_node {
  node_count : Z;
  node_hash : N;
  node_key : string;
  node_value : string;
  node_children : list loc
}.

Global Instance node_eq_dec : EqDecision node.
Proof. solve_decision. Defined.

(** The store: the node at address [l] is the [l]-th of the list. *)
Abbreviation heap := (list node).

(** Read-only computations and computations that may write. *)
Definition R (A : Type) : Type := heap → option (result A).
Definition M (A : Type) : Type := heap → option (result (A * heap)).

Definition retR {A} (a : A) : R A := fun _ => Some (Ok a).
Definition bindR {A B} (c : R A) (f : A → R B) : R B := fun h =>
  match c h with
  | Some (Ok a) => f a h
  | Some (Panic msg) => Some (Panic msg)
  | None => None
  end.
Definition retM {A} (a : A) : M A := fun h => Some (Ok (a, h)).
Definition bindM {A B} (c : M A) (f : A → M B) : M B := fun h =>
  match c h with
  | Some (Ok (a, h')) => f a h'
  | Some (Panic msg) => Some (Panic msg)
  | None => None
  end.
Definition read {A} (c : R A) : M A := fun h =>
  match c h with
  | Some (Ok a) => Some (Ok (a, h))
  | Some (Panic msg) => Some (Panic msg)
  | None => None
  end.
Definition panic {A} (msg : string) : R A := fun _ => Some (Panic msg).
Definition out_of_fuel {A} : R A := fun _ => None.
(** The result of a callback, as a computation. *)
Definition call {A} (r : result A) : R A := fun _ => Some r.

Declare Scope heap_scope.
Delimit Scope heap_scope with heap.
Notation "'let!' x := c 'in' k" := (bindR c (fun x => k))
  (at level 10, x name, c at level 100, k at level 200) : heap_scope.
Notation "'let!' ' p := c 'in' k" := (bindR c (fun p => k))
  (at level 10, p strict pattern, c at level 100, k at level 200)
  : heap_scope.
Notation "'do!' x := c 'in' k" := (bindM c (fun x => k))
  (at level 10, x name, c at level 100, k at level 200) : heap_scope.
Notation "'do!' ' p := c 'in' k" := (bindM c (fun p => k))
  (at level 10, p strict pattern, c at level 100, k at level 200)
  : heap_scope.
Local Open Scope heap_scope.

Definition nil_dereference_message : string :=
  "runtime error: invalid memory address or nil pointer dereference".

(** ** Access to the store *)

Definition load (l : loc) : R node := fun h =>
  match h !! l with
  | Some n => Some (Ok n)
  | None => Some (Panic nil_dereference_message)
  end.

Definition alloc (n : node) : M loc := fun h =>
  Some (Ok (length h, h ++ [n])).

Definition store (l : loc) (n : node) : M unit := fun h =>
  if decide (l < length h)%nat then Some (Ok (tt, <[l := n]> h))
  else Some (Panic nil_dereference_message).

(** [m.count = c], [m.hash = x], ..., [m.children[i] = t] *)
Definition set_count (m : loc) (c : Z) : M unit :=
  do! n := read (load m) in
  store m (Build_node c (node_hash n) (node_key n) (node_value n)
             (node_children n)).
Definition set_hash (m : loc) (x : N) : M unit :=
  do! n := read (load m) in
  store m (Build_node (node_count n) x (node_key n) (node_value n)
             (node_children n)).
Definition set_key (m : loc) (k : string) : M unit :=
  do! n := read (load m) in
  store m (Build_node (node_count n) (node_hash n) k (node_value n)
             (node_children n)).
Definition set_value (m : loc) (v : string) : M unit :=
  do! n := read (load m) in
  store m (Build_node (node_count n) (node_hash n) (node_key n) v
             (node_children n)).
Definition set_child (m : loc) (i : nat) (t : loc) : M unit :=
  do! n := read (load m) in
  if decide (i < length (node_children n))%nat then
    store m (Build_node (node_count n) (node_hash n) (node_key n)
               (node_value n) (<[i := t]> (node_children n)))
  else read (panic index_message).

(** [m.children[i]] *)
Definition child (m : loc) (i : nat) : R loc :=
  let! n := load m in
  match node_children n !! i with
  | Some t => retR t
  | None => panic index_message
  end.

(** A loop over a list with an accumulator. *)
Fixpoint foldR {A B} (f : B → A → R B) (l : list A) (b : B) : R B :=
  match l with
  | [] => retR b
  | a :: l => let! b := f b a in foldR f l b
  end.
Fixpoint foldM {A B} (f : B → A → M B) (l : list A) (b : B) : M B :=
  match l with
  | [] => retM b
  | a :: l => do! b := f b a in foldM f l b
  end.

(** The address of the sentinel. *)
Definition nilMap : loc := 0%nat.

Definition NewStringMap : loc := nilMap.

Definition IsNil (self : loc) : bool := bool_decide (self = nilMap).

Definition clone (self : loc) : M loc :=
  do! n := read (load self) in alloc n.

Definition Size (m : loc) : R Z :=
  let! n := load m in retR (node_count n).

Definition isLeaf (m : loc) : R bool :=
  let! size := Size m in retR (bool_decide (size = 1)).

Definition recalculateCount (m : loc) : M unit :=
  do! n := read (load m) in
  do! count := read (foldR (fun count t =>
                              let! size := Size t in
                              retR (int_add count size))
                       (node_children n) 0) in
  set_count m (int_add count 1).

(** [count := 0; for _, t := range m.children { if t != nilMap { count++ } }] *)
Definition subtreeCount (m : loc) : R Z :=
  let! n := load m in
  foldR (fun count t =>
           retR (if negb (IsNil t) then int_add count 1 else count))
        (node_children n) 0.

Section HeapModel.

Variable childCount : nat.
Variable shiftSize : N.
Variable hashKey : string → N.

(** The store after [init]: the sentinel alone, its children itself. *)
Definition init : heap :=
  [Build_node 0 0 "" "" (replicate childCount nilMap)].

Fixpoint setLowLevel (fuel : nat) (self : loc) (partialHash hash : N)
    (key value : string) : M loc :=
  match fuel with
  | O => read out_of_fuel
  | S fuel =>
      if IsNil self then
        do! m := clone self in
        do! _ := set_count m 1 in
        do! _ := set_hash m hash in
        do! _ := set_key m key in
        do! _ := set_value m value in
        retM m
      else
        do! s := read (load self) in
        if decide (hash ≠ node_hash s) then
          do! m := clone self in
          let i := slot childCount partialHash in
          do! c := read (child self i) in
          do! t := setLowLevel fuel c (N.shiftr partialHash shiftSize)
                     hash key value in
          do! _ := set_child m i t in
          do! _ := recalculateCount m in
          retM m
        else if decide (key ≠ node_key s) then
          read (panic (collision_message (node_key s) key))
        else
          do! m := clone self in
          do! _ := set_value m value in
          retM m
  end.

Definition Set_ (fuel : nat) (self : loc) (key value : string) : M loc :=
  let hash := hashKey key in
  setLowLevel fuel self hash hash key value.

Fixpoint deleteLeftmost (fuel : nat) (m : loc) : M (loc * loc) :=
  match fuel with
  | O => read out_of_fuel
  | S fuel =>
      do! leaf := read (isLeaf m) in
      if leaf : bool then retM (m, nilMap)
      else
        do! n := read (load m) in
        match list_find (fun t => t ≠ nilMap) (node_children n) with
        | Some (i, t) =>
            do! '(deleted, child) := deleteLeftmost fuel t in
            do! newMap := clone m in
            do! _ := set_child newMap i child in
            do! _ := recalculateCount newMap in
            retM (deleted, newMap)
        | None => read (panic no_children_message)
        end
  end.

Definition largest (self : loc) : R (Z * Z) :=
  let! n := load self in
  foldR (fun '(i, size) '(j, t) =>
           let! tsize := Size t in
           if bool_decide (tsize > size)
           then retR (Z.of_nat j, tsize)
           else retR (i, size))
        (imap pair (node_children n)) (-1, -1).

Definition adopt (self newMap : loc) (i : Z) (child : loc) : M unit :=
  foldM (fun _ j =>
           if decide (Z.of_nat j = i)
           then set_child newMap j child
           else
             do! t := read (Heap.child self j) in
             set_child newMap j t)
        (slots childCount) tt.

Fixpoint deleteLowLevel (fuel : nat) (self : loc) (partialHash hash : N)
    : M (loc * bool) :=
  match fuel with
  | O => read out_of_fuel
  | S fuel =>
      if IsNil self then retM (self, false)
      else
        do! s := read (load self) in
        if decide (hash ≠ node_hash s) then
          let i := slot childCount partialHash in
          do! c := read (child self i) in
          do! '(child, found) := deleteLowLevel fuel c
                                   (N.shiftr partialHash shiftSize) hash in
          if negb found then retM (self, false)
          else
            do! newMap := clone self in
            do! _ := set_child newMap i child in
            do! _ := recalculateCount newMap in
            retM (newMap, true)
        else
          do! leaf := read (isLeaf self) in
          if leaf : bool then retM (nilMap, true)
          else
            do! '(i, _) := read (largest self) in
            if bool_decide (i < 0) then read (panic index_message)
            else
              do! t := read (child self (Z.to_nat i)) in
              do! '(replacement, child) := deleteLeftmost fuel t in
              do! newMap := clone replacement in
              do! _ := adopt self newMap i child in
              do! _ := recalculateCount newMap in
              retM (newMap, true)
  end.

Definition Delete (fuel : nat) (m : loc) (key : string) : M loc :=
  let hash := hashKey key in
  do! '(newMap, _) := deleteLowLevel fuel m hash hash in
  retM newMap.

Fixpoint lookupLowLevel (fuel : nat) (self : loc) (partialHash hash : N)
    : R (string * bool) :=
  match fuel with
  | O => out_of_fuel
  | S fuel =>
      if IsNil self then retR ("", false)
      else
        let! s := load self in
        if decide (hash ≠ node_hash s) then
          let! c := child self (slot childCount partialHash) in
          lookupLowLevel fuel c (N.shiftr partialHash shiftSize) hash
        else retR (node_value s, true)
  end.

Definition Lookup (fuel : nat) (m : loc) (key : string) : R (string * bool) :=
  let hash := hashKey key in
  lookupLowLevel fuel m hash hash.

Fixpoint ForEach {S : Type} (fuel : nat) (m : loc)
    (f : string → string → S → result S) (s : S) : R S :=
  match fuel with
  | O => out_of_fuel
  | S fuel =>
      if IsNil m then retR s
      else
        let! n := load m in
        let! s := call (f (node_key n) (node_value n) s) in
        foldR (fun s t =>
                 if negb (IsNil t) then ForEach fuel t f s else retR s)
              (node_children n) s
  end.

Definition Keys (fuel : nat) (m : loc) : R (list string) :=
  let! size := Size m in
  if bool_decide (size < 0) then panic negative_len_message
  else
    let keys := replicate (Z.to_nat size) "" in
    let! '(keys, _) := ForEach fuel m (store_key) (keys, 0) in
    retR keys.

(** [keys := m.Keys(); buf := bytes.NewBufferString("{");
     for _, key := range keys { val, _ := m.Lookup(key); ... };
     fmt.Fprintf(buf, "}\n"); return buf.String()] *)
Definition String_ (fuel : nat) (m : loc) : R string :=
  let! ks := Keys fuel m in
  let! buf :=
    foldR (fun buf key =>
             let! '(val, _) := Lookup fuel m key in
             retR (write_entry buf key val))
          ks "{" in
  retR (write_end buf).

(** A program on the store. *)
Definition apply_op (fuel : nat) (m : loc) (o : op) : M loc :=
  match o with
  | op_set key value => Set_ fuel m key value
  | op_delete key => Delete fuel m key
  end.

Fixpoint run (fuel : nat) (ops : list op) (m : loc) : M loc :=
  match ops with
  | [] => retM m
  | o :: ops => do! m := apply_op fuel m o in run fuel ops m
  end.

(** ** Well-formed stores *)

(** A read-only computation is stable on [h] when it gives the same
    outcome on every store that extends [h]. *)
Definition stable {A} (h : heap) (c : R A) : Prop :=
  ∀ h', h `prefix_of` h' → c h' = c h.

(** Every pointer stored in a node is the address of a node. *)
Definition closed (h : heap) : Prop :=
  Forall (fun n => Forall (fun c => c < length h)%nat (node_children n)) h.

(** What a call maintains of the store [h0] it was entered with: the
    nodes of [h0] are still there, unchanged, and the store is closed. *)
Definition kept (h0 h : heap) : Prop := h0 `prefix_of` h ∧ closed h.

Lemma closed_init : closed init.
Proof.
  apply Forall_singleton, Forall_forall. simpl.
  intros c [-> _]%elem_of_replicate. unfold nilMap. lia.
Qed.

(** ** Running computations *)

Lemma bindM_inv {A B} (c : M A) (f : A → M B) h r h' :
  bindM c f h = Some (Ok (r, h')) →
  ∃ a h1, c h = Some (Ok (a, h1)) ∧ f a h1 = Some (Ok (r, h')).
Proof.
  unfold bindM. destruct (c h) as [[[a h1]|]|]; [|done..]. eauto.
Qed.

Lemma bindR_inv {A B} (c : R A) (f : A → R B) h r :
  bindR c f h = Some (Ok r) → ∃ a, c h = Some (Ok a) ∧ f a h = Some (Ok r).
Proof. unfold bindR. destruct (c h) as [[a|]|]; [|done..]. eauto. Qed.

Lemma read_inv {A} (c : R A) h a h' :
  read c h = Some (Ok (a, h')) → h' = h ∧ c h = Some (Ok a).
Proof. unfold read. destruct (c h) as [[a'|]|]; naive_solver. Qed.

Lemma retM_inv {A} (a : A) h r h' :
  retM a h = Some (Ok (r, h')) → r = a ∧ h' = h.
Proof. unfold retM. naive_solver. Qed.

Lemma retR_inv {A} (a : A) h r : retR a h = Some (Ok r) → r = a.
Proof. unfold retR. naive_solver. Qed.

Lemma load_inv l h n : load l h = Some (Ok n) → h !! l = Some n.
Proof. unfold load. destruct (h !! l); naive_solver. Qed.

Lemma alloc_inv n h l h' :
  alloc n h = Some (Ok (l, h')) → l = length h ∧ h' = h ++ [n].
Proof. unfold alloc. naive_solver. Qed.

Lemma store_inv l n h u h' :
  store l n h = Some (Ok (u, h')) → (l < length h)%nat ∧ h' = <[l := n]> h.
Proof. unfold store. case_decide; naive_solver. Qed.

Ltac inv_run :=
  repeat match goal with
  | H : bindM _ _ _ = Some (Ok _) |- _ =>
      let a := fresh "a" in let h := fresh "h" in let Ha := fresh "Hrun" in
      apply bindM_inv in H as (a & h & Ha & H);
      try (is_var a; lazymatch type of a with
                     | prod _ _ => destruct a; simpl in H end)
  | H : bindR _ _ _ = Some (Ok _) |- _ =>
      let a := fresh "a" in let Ha := fresh "Hrun" in
      apply bindR_inv in H as (a & Ha & H);
      try (is_var a; lazymatch type of a with
                     | prod _ _ => destruct a; simpl in H end)
  | H : read _ _ = Some (Ok _) |- _ => apply read_inv in H as [-> H]
  | H : retM _ _ = Some (Ok _) |- _ =>
      apply retM_inv in H as [? ?]; simplify_eq
  | H : retR _ _ = Some (Ok _) |- _ => apply retR_inv in H; simplify_eq
  | H : load _ _ = Some (Ok _) |- _ => apply load_inv in H
  | H : alloc _ _ = Some (Ok _) |- _ => apply alloc_inv in H as [-> ->]
  | H : store _ _ _ = Some (Ok _) |- _ => apply store_inv in H as [? ->]
  | H : panic _ _ = Some (Ok _) |- _ => discriminate H
  | H : out_of_fuel _ = Some _ |- _ => discriminate H
  end.

(** ** Stores grow and stay closed *)

Lemma kept_refl h : closed h → kept h h.
Proof. by split. Qed.

Lemma closed_lookup h l n c :
  closed h → h !! l = Some n → c ∈ node_children n → (c < length h)%nat.
Proof.
  intros Hc Hl Hin. unfold closed in Hc. rewrite Forall_forall in Hc.
  specialize (Hc n (list_elem_of_lookup_2 _ _ _ Hl)).
  rewrite Forall_forall in Hc. by apply Hc.
Qed.

Lemma kept_alloc h0 h n :
  kept h0 h → Forall (fun c => c < length h)%nat (node_children n) →
  kept h0 (h ++ [n]).
Proof.
  intros [Hp Hc] Hn. split; [by apply prefix_app_r|].
  unfold closed in *. rewrite length_app. simpl.
  apply Forall_app. split.
  - eapply Forall_impl; [exact Hc|]. intros n' Hn'. simpl in Hn'.
    eapply Forall_impl; [exact Hn'|]. simpl. lia.
  - apply Forall_singleton. eapply Forall_impl; [exact Hn|]. simpl. lia.
Qed.

Lemma kept_store h0 h l n :
  kept h0 h → (length h0 ≤ l)%nat →
  Forall (fun c => c < length h)%nat (node_children n) →
  kept h0 (<[l := n]> h).
Proof.
  intros [[k ->] Hc] Hl Hn. split.
  - rewrite insert_app_r_alt by done. by apply prefix_app_r.
  - unfold closed in *. rewrite length_insert.
    by apply Forall_insert.
Qed.

Lemma closed_load h l n :
  closed h → h !! l = Some n →
  Forall (fun c => c < length h)%nat (node_children n).
Proof.
  intros Hc Hl. apply Forall_forall. intros c Hin. by eapply closed_lookup.
Qed.

Lemma child_valid h m i c :
  closed h → child m i h = Some (Ok c) → (c < length h)%nat.
Proof.
  intros Hc Hrun. unfold child in Hrun. inv_run.
  destruct (node_children a !! i) as [t|] eqn:Hi; inv_run.
  eapply closed_lookup; [done..|]. by eapply list_elem_of_lookup_2.
Qed.

Lemma clone_kept h0 h self m h' :
  kept h0 h → clone self h = Some (Ok (m, h')) →
  kept h0 h' ∧ m = length h ∧ length h' = S (length h).
Proof.
  intros Hk Hrun. unfold clone in Hrun. inv_run.
  split; [|by rewrite length_app, Nat.add_1_r].
  apply kept_alloc; [done|]. destruct Hk. by eapply closed_load.
Qed.

Lemma set_count_kept h0 h m c u h' :
  kept h0 h → (length h0 ≤ m)%nat →
  set_count m c h = Some (Ok (u, h')) → kept h0 h' ∧ length h' = length h.
Proof.
  intros Hk Hm Hrun. unfold set_count in Hrun. inv_run.
  split; [|by rewrite length_insert].
  apply kept_store; [done..|]. simpl. destruct Hk. by eapply closed_load.
Qed.

Lemma set_hash_kept h0 h m x u h' :
  kept h0 h → (length h0 ≤ m)%nat →
  set_hash m x h = Some (Ok (u, h')) → kept h0 h' ∧ length h' = length h.
Proof.
  intros Hk Hm Hrun. unfold set_hash in Hrun. inv_run.
  split; [|by rewrite length_insert].
  apply kept_store; [done..|]. simpl. destruct Hk. by eapply closed_load.
Qed.

Lemma set_key_kept h0 h m k u h' :
  kept h0 h → (length h0 ≤ m)%nat →
  set_key m k h = Some (Ok (u, h')) → kept h0 h' ∧ length h' = length h.
Proof.
  intros Hk Hm Hrun. unfold set_key in Hrun. inv_run.
  split; [|by rewrite length_insert].
  apply kept_store; [done..|]. simpl. destruct Hk. by eapply closed_load.
Qed.

Lemma set_value_kept h0 h m v u h' :
  kept h0 h → (length h0 ≤ m)%nat →
  set_value m v h = Some (Ok (u, h')) → kept h0 h' ∧ length h' = length h.
Proof.
  intros Hk Hm Hrun. unfold set_value in Hrun. inv_run.
  split; [|by rewrite length_insert].
  apply kept_store; [done..|]. simpl. destruct Hk. by eapply closed_load.
Qed.

Lemma set_child_kept h0 h m i t u h' :
  kept h0 h → (length h0 ≤ m)%nat → (t < length h)%nat →
  set_child m i t h = Some (Ok (u, h')) → kept h0 h' ∧ length h' = length h.
Proof.
  intros Hk Hm Ht Hrun. unfold set_child in Hrun. inv_run.
  case_decide; inv_run.
  split; [|by rewrite length_insert].
  apply kept_store; [done..|]. simpl. destruct Hk.
  apply Forall_insert; [|done]. by eapply closed_load.
Qed.

Lemma recalculateCount_kept h0 h m u h' :
  kept h0 h → (length h0 ≤ m)%nat →
  recalculateCount m h = Some (Ok (u, h')) →
  kept h0 h' ∧ length h' = length h.
Proof.
  intros Hk Hm Hrun. unfold recalculateCount in Hrun. inv_run.
  by eapply set_count_kept.
Qed.

(** One step of a run, on the store it has reached. *)
Ltac kept_step :=
  match goal with
  | Hk : kept ?h0 ?h, H : clone _ ?h = Some (Ok _) |- _ =>
      apply (clone_kept h0 h _ _ _ Hk) in H as (? & ? & ?)
  | Hk : kept ?h0 ?h, H : set_count _ _ ?h = Some (Ok _) |- _ =>
      apply (set_count_kept h0 h _ _ _ _ Hk) in H as [? ?]; [|lia]
  | Hk : kept ?h0 ?h, H : set_hash _ _ ?h = Some (Ok _) |- _ =>
      apply (set_hash_kept h0 h _ _ _ _ Hk) in H as [? ?]; [|lia]
  | Hk : kept ?h0 ?h, H : set_key _ _ ?h = Some (Ok _) |- _ =>
      apply (set_key_kept h0 h _ _ _ _ Hk) in H as [? ?]; [|lia]
  | Hk : kept ?h0 ?h, H : set_value _ _ ?h = Some (Ok _) |- _ =>
      apply (set_value_kept h0 h _ _ _ _ Hk) in H as [? ?]; [|lia]
  | Hk : kept ?h0 ?h, H : set_child _ _ _ ?h = Some (Ok _) |- _ =>
      apply (set_child_kept h0 h _ _ _ _ _ Hk) in H as [? ?]; [|lia|lia]
  | Hk : kept ?h0 ?h, H : recalculateCount _ ?h = Some (Ok _) |- _ =>
      apply (recalculateCount_kept h0 h _ _ _ Hk) in H as [? ?]; [|lia]
  | Hk : kept ?h0 ?h, H : child _ _ ?h = Some (Ok _) |- _ =>
      apply child_valid in H; [|by destruct Hk]
  end.

Lemma kept_length h0 h : kept h0 h → (length h0 ≤ length h)%nat.
Proof. intros [Hp _]. by apply prefix_length. Qed.

Lemma setLowLevel_kept fuel h0 h self partialHash hash key value m h' :
  kept h0 h → (self < length h)%nat →
  setLowLevel fuel self partialHash hash key value h = Some (Ok (m, h')) →
  kept h0 h' ∧ (length h ≤ length h' ≤ length h + fuel)%nat ∧
  (m < length h')%nat.
Proof.
  revert h self partialHash m h'.
  induction fuel as [|fuel IH]; intros h self partialHash m h' Hk Hself Hrun;
    simpl in Hrun; [inv_run|].
  pose proof (kept_length _ _ Hk) as Hle.
  destruct (IsNil self).
  { inv_run. repeat kept_step. split; [done|]. lia. }
  inv_run. case_decide; [|case_decide]; inv_run.
  - do 2 kept_step.
    match goal with
    | Hk : kept h0 ?h, H : setLowLevel _ _ _ _ _ _ ?h = _ |- _ =>
        apply (IH _ _ _ _ _ Hk) in H as (? & ? & ?); [|lia]
    end.
    repeat kept_step. split; [done|]. lia.
  - repeat kept_step. split; [done|]. lia.
Qed.

Lemma deleteLeftmost_kept fuel h0 h m deleted rest h' :
  kept h0 h → (m < length h)%nat →
  deleteLeftmost fuel m h = Some (Ok ((deleted, rest), h')) →
  kept h0 h' ∧ (length h ≤ length h' ≤ length h + fuel)%nat ∧
  (deleted < length h')%nat ∧ (rest < length h')%nat.
Proof.
  revert h m deleted rest h'.
  induction fuel as [|fuel IH]; intros h m deleted rest h' Hk Hm Hrun;
    simpl in Hrun; [inv_run|].
  pose proof (kept_length _ _ Hk) as Hle.
  inv_run. destruct a as [|].
  { inv_run. unfold nilMap. split; [done|]. lia. }
  inv_run.
  destruct (list_find _ _) as [[i t]|] eqn:Hfind; inv_run.
  apply list_find_Some in Hfind as (Hi & _ & _).
  assert (t < length h)%nat as Ht.
  { destruct Hk. eapply closed_lookup; [done..|].
    by eapply list_elem_of_lookup_2. }
  match goal with
  | H : deleteLeftmost _ _ _ = _ |- _ =>
      apply (IH _ _ _ _ _ Hk Ht) in H as (? & ? & ? & ?)
  end.
  repeat kept_step. split; [done|]. lia.
Qed.

Lemma adopt_kept h0 h self newMap i child u h' :
  kept h0 h → (length h0 ≤ newMap)%nat → (child < length h)%nat →
  adopt self newMap i child h = Some (Ok (u, h')) →
  kept h0 h' ∧ length h' = length h.
Proof.
  unfold adopt. generalize (slots childCount) tt. intros l.
  revert h. induction l as [|j l IH]; intros h u0 Hk Hm Hc Hrun;
    simpl in Hrun; inv_run; [done|].
  match goal with
  | H : (if decide _ then _ else _) _ = Some (Ok (_, ?h1)) |- _ =>
      assert (kept h0 h1 ∧ length h1 = length h) as [Hk1 Hl1];
        [case_decide; inv_run; repeat kept_step; done|]
  end.
  apply IH in Hrun as [Hk2 Hl2]; [|done..|lia]. split; [done|lia].
Qed.

Lemma deleteLowLevel_kept fuel h0 h self partialHash hash m found h' :
  kept h0 h → (self < length h)%nat →
  deleteLowLevel fuel self partialHash hash h = Some (Ok ((m, found), h')) →
  kept h0 h' ∧ (length h ≤ length h' ≤ length h + fuel)%nat ∧
  (m < length h')%nat.
Proof.
  revert h self partialHash m found h'.
  induction fuel as [|fuel IH];
    intros h self partialHash m found h' Hk Hself Hrun;
    simpl in Hrun; [inv_run|].
  pose proof (kept_length _ _ Hk) as Hle.
  destruct (IsNil self).
  { inv_run. split; [done|lia]. }
  inv_run. case_decide; inv_run.
  - kept_step.
    match goal with
    | H : deleteLowLevel _ _ _ _ _ = _ |- _ =>
        apply (IH _ _ _ _ _ _ Hk) in H as (? & ? & ?); [|done]
    end.
    match goal with
    | H : (if negb ?b then _ else _) _ = _ |- _ => destruct b; simpl in H
    end; inv_run.
    + repeat kept_step. split; [done|]. lia.
    + split; [done|lia].
  - match goal with
    | H : (if ?b then _ else _) _ = _ |- _ => destruct b
    end; inv_run.
    { unfold nilMap. split; [done|lia]. }
    case_bool_decide; inv_run. kept_step.
    match goal with
    | H : deleteLeftmost _ _ _ = _ |- _ =>
        apply (deleteLeftmost_kept _ h0 _ _ _ _ _ Hk) in H
          as (? & ? & ? & ?); [|done]
    end.
    kept_step.
    match goal with
    | Hk' : kept h0 ?h, H : adopt _ _ _ _ ?h = _ |- _ =>
        apply (adopt_kept h0 h _ _ _ _ _ _ Hk') in H as [? ?]; [|lia|lia]
    end.
    kept_step. split; [done|]. lia.
Qed.

(** A deletion that finds nothing returns the root it was given and
    leaves the store as it is: nothing is cloned. *)
Lemma deleteLowLevel_not_found fuel h self partialHash hash m h' :
  deleteLowLevel fuel self partialHash hash h = Some (Ok ((m, false), h')) →
  m = self ∧ h' = h.
Proof.
  revert h self partialHash m h'.
  induction fuel as [|fuel IH]; intros h self partialHash m h' Hrun;
    simpl in Hrun; [inv_run|].
  destruct (IsNil self); [by inv_run|].
  inv_run. case_decide; inv_run.
  - match goal with
    | H : (if negb ?b then _ else _) _ = _ |- _ => destruct b; simpl in H
    end; inv_run.
    match goal with
    | H : deleteLowLevel _ _ _ _ _ = _ |- _ => by apply IH in H as [_ ->]
    end.
  - match goal with
    | H : (if ?b then _ else _) _ = _ |- _ => destruct b
    end; inv_run.
    case_bool_decide; inv_run.
Qed.

(** No call of [Set] or [Delete] changes a node that existed before, and
    a call allocates at most one node per level of its recursion. *)
Lemma Set_kept fuel h self key value m h' :
  closed h → (self < length h)%nat →
  Set_ fuel self key value h = Some (Ok (m, h')) →
  h `prefix_of` h' ∧ closed h' ∧ (m < length h')%nat ∧
  (length h' ≤ length h + fuel)%nat.
Proof.
  intros Hc Hself Hrun. unfold Set_ in Hrun.
  apply (setLowLevel_kept _ h) in Hrun as ([? ?] & [_ ?] & ?); [done| |done].
  by apply kept_refl.
Qed.

Lemma Delete_kept fuel h self key m h' :
  closed h → (self < length h)%nat →
  Delete fuel self key h = Some (Ok (m, h')) →
  h `prefix_of` h' ∧ closed h' ∧ (m < length h')%nat ∧
  (length h' ≤ length h + fuel)%nat.
Proof.
  intros Hc Hself Hrun. unfold Delete in Hrun. inv_run.
  match goal with
  | H : deleteLowLevel _ _ _ _ _ = _ |- _ =>
      apply (deleteLowLevel_kept _ h) in H as ([? ?] & [_ ?] & ?);
        [done| |done]
  end.
  by apply kept_refl.
Qed.

(** ** Reading from an extended store *)

Lemma stable_retR {A} h (a : A) : stable h (retR a).
Proof. by intros h' _. Qed.

Lemma stable_panic {A} h msg : stable h (panic (A:=A) msg).
Proof. by intros h' _. Qed.

Lemma stable_call {A} h (r : result A) : stable h (call r).
Proof. by intros h' _. Qed.

Lemma stable_out_of_fuel {A} h : stable h (out_of_fuel (A:=A)).
Proof. by intros h' _. Qed.

Lemma stable_bindR {A B} h (c : R A) (f : A → R B) :
  stable h c → (∀ a, c h = Some (Ok a) → stable h (f a)) →
  stable h (bindR c f).
Proof.
  intros Hc Hf h' Hp. unfold bindR. rewrite (Hc h' Hp).
  destruct (c h) as [[a|]|] eqn:Hrun; [|done..]. by apply Hf.
Qed.

Lemma stable_load h l : (l < length h)%nat → stable h (load l).
Proof.
  intros Hl h' Hp. unfold load.
  destruct (lookup_lt_is_Some_2 h l Hl) as [n Hn].
  by rewrite Hn, (prefix_lookup_Some _ _ _ _ Hn Hp).
Qed.

Lemma stable_child h m i : (m < length h)%nat → stable h (child m i).
Proof.
  intros Hm. apply stable_bindR; [by apply stable_load|].
  intros n _. destruct (node_children n !! i);
    [apply stable_retR|apply stable_panic].
Qed.

Lemma stable_Size h m : (m < length h)%nat → stable h (Size m).
Proof.
  intros Hm. apply stable_bindR; [by apply stable_load|].
  intros n _. apply stable_retR.
Qed.

Lemma stable_foldR {A B} h (f : B → A → R B) (l : list A) b :
  (∀ b a, a ∈ l → stable h (f b a)) → stable h (foldR f l b).
Proof.
  revert b. induction l as [|a l IH]; intros b Hf; simpl.
  - apply stable_retR.
  - apply stable_bindR; [apply Hf; by left|].
    intros b' _. apply IH. intros b'' a' Ha'. apply Hf. by right.
Qed.

Lemma stable_lookupLowLevel fuel h self partialHash hash :
  closed h → (self < length h)%nat →
  stable h (lookupLowLevel fuel self partialHash hash).
Proof.
  intros Hc. revert self partialHash.
  induction fuel as [|fuel IH]; intros self partialHash Hself; simpl.
  { apply stable_out_of_fuel. }
  destruct (IsNil self); [apply stable_retR|].
  apply stable_bindR; [by apply stable_load|]. intros s _.
  case_decide; [|apply stable_retR].
  apply stable_bindR; [by apply stable_child|]. intros c Hrun.
  apply IH. by eapply child_valid.
Qed.

Lemma stable_ForEach {S} fuel h m (f : string → string → S → result S) s :
  closed h → (m < length h)%nat → stable h (ForEach fuel m f s).
Proof.
  intros Hc. revert m s.
  induction fuel as [|fuel IH]; intros m s Hm; simpl.
  { apply stable_out_of_fuel. }
  destruct (IsNil m); [apply stable_retR|].
  apply stable_bindR; [by apply stable_load|]. intros n Hn%load_inv.
  apply stable_bindR; [apply stable_call|]. intros s' _.
  apply stable_foldR. intros s'' t Ht.
  destruct (negb (IsNil t)); [|apply stable_retR].
  apply IH. by eapply closed_lookup.
Qed.

Lemma stable_Keys fuel h m :
  closed h → (m < length h)%nat → stable h (Keys fuel m).
Proof.
  intros Hc Hm. apply stable_bindR; [by apply stable_Size|]. intros size _.
  case_bool_decide; [apply stable_panic|].
  apply stable_bindR; [by apply stable_ForEach|].
  intros [keys i] _. apply stable_retR.
Qed.

(** C5: in a closed store, a call of [Set] or [Delete] on a map [m1] that
    returns leaves every node of the store as it was, and therefore
    every [Lookup], [Size] and [Keys] on [m1] gives after the call the
    outcome it gave before; the call only adds nodes to the store, at
    most one for each level of its recursion (the copied path). *)
Theorem persistence fuel h m1 k v m2 h' :
  closed h → (m1 < length h)%nat →
  Set_ fuel m1 k v h = Some (Ok (m2, h')) ∨
  Delete fuel m1 k h = Some (Ok (m2, h')) →
  (∀ l n, h !! l = Some n → h' !! l = Some n) ∧
  (∀ fuel' k', Lookup fuel' m1 k' h' = Lookup fuel' m1 k' h) ∧
  Size m1 h' = Size m1 h ∧
  (∀ fuel', Keys fuel' m1 h' = Keys fuel' m1 h) ∧
  (length h' ≤ length h + fuel)%nat.
Proof.
  intros Hc Hm Hrun.
  assert (h `prefix_of` h' ∧ (length h' ≤ length h + fuel)%nat) as [Hp Hlen].
  { destruct Hrun as [Hrun|Hrun].
    - by apply Set_kept in Hrun as (? & _ & _ & ?).
    - by apply Delete_kept in Hrun as (? & _ & _ & ?). }
  split; [|split; [|split; [|split]]].
  - intros l n Hl. by eapply prefix_lookup_Some.
  - intros fuel' k'. by apply stable_lookupLowLevel.
  - by apply stable_Size.
  - intros fuel'. by apply stable_Keys.
  - done.
Qed.

(** ** The root [Set] returns *)

Lemma setLowLevel_root fuel h self partialHash hash key value m h' :
  setLowLevel fuel self partialHash hash key value h = Some (Ok (m, h')) →
  m = length h.
Proof.
  destruct fuel as [|fuel]; simpl; intros Hrun; [inv_run|].
  destruct (IsNil self).
  - inv_run.
    match goal with
    | H : clone _ _ = Some (Ok _) |- _ => unfold clone in H; inv_run
    end.
    done.
  - inv_run. case_decide; [|case_decide]; inv_run;
      match goal with
      | H : clone _ _ = Some (Ok _) |- _ => unfold clone in H; inv_run
      end; done.
Qed.

(** X17: on a closed store, when [Set] returns, its result is a node the
    call allocated, the first one, never the node it was called on; the
    store is still closed and has grown by at least one node and at most
    one node per level of the recursion. *)
Theorem Set_fresh_root fuel h self key value m h' :
  closed h → (self < length h)%nat →
  Set_ fuel self key value h = Some (Ok (m, h')) →
  m = length h ∧ m ≠ self ∧ closed h' ∧
  (length h < length h' ≤ length h + fuel)%nat.
Proof.
  intros Hc Hself Hrun.
  pose proof (setLowLevel_root _ _ _ _ _ _ _ _ _ Hrun) as Hm.
  apply Set_kept in Hrun as (_ & Hc' & Hlt & Hle); [|done..].
  split; [done|]. split; [lia|]. split; [done|]. lia.
Qed.

End HeapModel.

End Heap.

(** * The tree in the store represents the inductive tree

    The two embeddings agree: when an address represents a tree, the
    functions on the store return what the functions on the tree return
    (given a recursion budget above the depth of the tree), the new root
    represents the new tree, and the old root still represents the old
    one. *)

Section Refinement.

Variable childCount : nat.
Variable shiftSize : N.
Variable hashKey : string → N.
Hypothesis childCount_pos : (0 < childCount)%nat.

(** The node [init] stores at the address of the sentinel. *)
Definition sentinel : Heap.node :=
  Heap.Build_node 0 0 "" "" (replicate childCount Heap.nilMap).

(** The number of nodes on the longest path of a tree. *)
Fixpoint depth (t : StringMap) : nat :=
  match t with
  | nilMap => 0
  | Node _ _ _ _ ch => S (max_list ((fun j => depth (ch j)) <$> slots childCount))
  end.

(** [repr A h l t]: in the store [h] the address [l] represents the tree
    [t], through nodes whose addresses satisfy [A]. *)
Fixpoint repr (A : nat → Prop) (h : list Heap.node) (l : nat)
    (t : StringMap) : Prop :=
  match t with
  | nilMap => l = Heap.nilMap
  | Node c x k v ch =>
      l ≠ Heap.nilMap ∧ A l ∧
      ∃ cs, h !! l = Some (Heap.Build_node c x k v cs) ∧
            length cs = childCount ∧
            ∀ j cj, cs !! j = Some cj → repr A h cj (ch j)
  end.

(** A store of the program: the sentinel is at its address. *)
Definition with_sentinel (h : list Heap.node) : Prop :=
  h !! Heap.nilMap = Some sentinel.

(** The address [l] represents the tree [t] in the store [h]. *)
Definition represents (h : list Heap.node) (l : nat) (t : StringMap) : Prop :=
  with_sentinel h ∧ repr (fun y => y < length h)%nat h l t.

(** A test for [represents] that computes. *)
Fixpoint reprb (h : list Heap.node) (l : nat) (t : StringMap) : bool :=
  match t with
  | nilMap => bool_decide (l = Heap.nilMap)
  | Node c x k v ch =>
      bool_decide (l ≠ Heap.nilMap) &&
      match h !! l with
      | Some n =>
          bool_decide (n = Heap.Build_node c x k v (Heap.node_children n)) &&
          bool_decide (length (Heap.node_children n) = childCount) &&
          forallb (fun '(j, cj) => reprb h cj (ch j))
                  (imap pair (Heap.node_children n))
      | None => false
      end
  end.

Lemma repr_mono (A B : nat → Prop) h l t :
  (∀ x, A x → B x) → repr A h l t → repr B h l t.
Proof.
  intros HAB. revert l. induction t as [|c x k v ch IH]; intros l; [done|].
  intros (Hl & HA & cs & Hcs & Hlen & Hch).
  split; [done|]. split; [by apply HAB|]. exists cs. split; [done|].
  split; [done|]. intros j cj Hj. apply IH. by apply Hch.
Qed.

Lemma repr_frame (A : nat → Prop) h h' l t :
  (∀ x, A x → h' !! x = h !! x) → repr A h l t → repr A h' l t.
Proof.
  intros Hsame. revert l. induction t as [|c x k v ch IH]; intros l; [done|].
  intros (Hl & HA & cs & Hcs & Hlen & Hch).
  split; [done|]. split; [done|]. exists cs.
  split; [by rewrite Hsame|]. split; [done|].
  intros j cj Hj. apply IH. by apply Hch.
Qed.

Lemma repr_prefix (A : nat → Prop) h h' l t :
  h `prefix_of` h' → (∀ x, A x → x < length h)%nat →
  repr A h l t → repr A h' l t.
Proof.
  intros Hp HA. apply repr_frame. intros x Hx.
  destruct (lookup_lt_is_Some_2 h x (HA x Hx)) as [n Hn].
  by rewrite Hn, (prefix_lookup_Some _ _ _ _ Hn Hp).
Qed.

Lemma depth_child c x k v ch j :
  (j < childCount)%nat → (depth (ch j) < depth (Node c x k v ch))%nat.
Proof.
  intros Hj. simpl. apply Nat.lt_succ_r, max_list_elem_of_le.
  apply list_elem_of_fmap. exists j. split; [done|].
  unfold slots. apply elem_of_seq. lia.
Qed.

(** ** Running a computation forward *)

Lemma bindM_run {A B} (c : Heap.M A) (f : A → Heap.M B) h a h1 :
  c h = Some (Ok (a, h1)) → Heap.bindM c f h = f a h1.
Proof. unfold Heap.bindM. by intros ->. Qed.

Lemma bindM_panic {A B} (c : Heap.M A) (f : A → Heap.M B) h msg :
  c h = Some (Panic msg) → Heap.bindM c f h = Some (Panic msg).
Proof. unfold Heap.bindM. by intros ->. Qed.

Lemma bindR_run {A B} (c : Heap.R A) (f : A → Heap.R B) h a :
  c h = Some (Ok a) → Heap.bindR c f h = f a h.
Proof. unfold Heap.bindR. by intros ->. Qed.

Lemma read_run {A} (c : Heap.R A) h a :
  c h = Some (Ok a) → Heap.read c h = Some (Ok (a, h)).
Proof. unfold Heap.read. by intros ->. Qed.

Lemma load_run h l n : h !! l = Some n → Heap.load l h = Some (Ok n).
Proof. unfold Heap.load. by intros ->. Qed.

Lemma store_run h l n n' :
  h !! l = Some n → Heap.store l n' h = Some (Ok (tt, <[l := n']> h)).
Proof.
  intros Hl%lookup_lt_Some. unfold Heap.store. by rewrite decide_True.
Qed.

Lemma clone_run h l n :
  h !! l = Some n → Heap.clone l h = Some (Ok (length h, h ++ [n])).
Proof.
  intros Hl. unfold Heap.clone.
  by rewrite (bindM_run _ _ _ _ _ (read_run _ _ _ (load_run _ _ _ Hl))).
Qed.

Lemma child_run h l n i c :
  h !! l = Some n → Heap.node_children n !! i = Some c →
  Heap.child l i h = Some (Ok c).
Proof.
  intros Hl Hi. unfold Heap.child.
  rewrite (bindR_run _ _ _ _ (load_run _ _ _ Hl)). by rewrite Hi.
Qed.

Lemma Size_run h l n :
  h !! l = Some n → Heap.Size l h = Some (Ok (Heap.node_count n)).
Proof.
  intros Hl. unfold Heap.Size.
  by rewrite (bindR_run _ _ _ _ (load_run _ _ _ Hl)).
Qed.

Lemma set_count_run h m n c :
  h !! m = Some n →
  Heap.set_count m c h =
  Some (Ok (tt, <[m := Heap.Build_node c (Heap.node_hash n) (Heap.node_key n)
                        (Heap.node_value n) (Heap.node_children n)]> h)).
Proof.
  intros Hm. unfold Heap.set_count.
  rewrite (bindM_run _ _ _ _ _ (read_run _ _ _ (load_run _ _ _ Hm))).
  by eapply store_run.
Qed.

Lemma set_hash_run h m n x :
  h !! m = Some n →
  Heap.set_hash m x h =
  Some (Ok (tt, <[m := Heap.Build_node (Heap.node_count n) x (Heap.node_key n)
                        (Heap.node_value n) (Heap.node_children n)]> h)).
Proof.
  intros Hm. unfold Heap.set_hash.
  rewrite (bindM_run _ _ _ _ _ (read_run _ _ _ (load_run _ _ _ Hm))).
  by eapply store_run.
Qed.

Lemma set_key_run h m n k :
  h !! m = Some n →
  Heap.set_key m k h =
  Some (Ok (tt, <[m := Heap.Build_node (Heap.node_count n) (Heap.node_hash n) k
                        (Heap.node_value n) (Heap.node_children n)]> h)).
Proof.
  intros Hm. unfold Heap.set_key.
  rewrite (bindM_run _ _ _ _ _ (read_run _ _ _ (load_run _ _ _ Hm))).
  by eapply store_run.
Qed.

Lemma set_value_run h m n v :
  h !! m = Some n →
  Heap.set_value m v h =
  Some (Ok (tt, <[m := Heap.Build_node (Heap.node_count n) (Heap.node_hash n)
                        (Heap.node_key n) v (Heap.node_children n)]> h)).
Proof.
  intros Hm. unfold Heap.set_value.
  rewrite (bindM_run _ _ _ _ _ (read_run _ _ _ (load_run _ _ _ Hm))).
  by eapply store_run.
Qed.

Lemma set_child_run h m n i t :
  h !! m = Some n → (i < length (Heap.node_children n))%nat →
  Heap.set_child m i t h =
  Some (Ok (tt, <[m := Heap.Build_node (Heap.node_count n) (Heap.node_hash n)
                        (Heap.node_key n) (Heap.node_value n)
                        (<[i := t]> (Heap.node_children n))]> h)).
Proof.
  intros Hm Hi. unfold Heap.set_child.
  rewrite (bindM_run _ _ _ _ _ (read_run _ _ _ (load_run _ _ _ Hm))).
  rewrite decide_True by done. by eapply store_run.
Qed.

(** ** Reading *)

Lemma IsNil_repr A h l t : repr A h l t → Heap.IsNil l = IsNil t.
Proof.
  unfold Heap.IsNil. destruct t; simpl.
  - intros ->. by rewrite bool_decide_true.
  - intros [? _]. by rewrite bool_decide_false.
Qed.

Lemma Size_refines A h l t :
  with_sentinel h → repr A h l t → Heap.Size l h = Some (Ok (Size t)).
Proof.
  intros Hs. destruct t as [|c x k v ch]; simpl.
  - intros ->. by rewrite (Size_run _ _ _ Hs).
  - intros (_ & _ & cs & Hl & _). by rewrite (Size_run _ _ _ Hl).
Qed.

Lemma lookupLowLevel_refines A h l t fuel p x :
  repr A h l t → (depth t < fuel)%nat →
  Heap.lookupLowLevel childCount shiftSize fuel l p x h =
  Some (Ok (lookupLowLevel childCount shiftSize t p x)).
Proof.
  revert l fuel p. induction t as [|c x0 k v ch IH]; intros l fuel p Hr Hd;
    (destruct fuel as [|fuel]; [lia|]); simpl;
    rewrite (IsNil_repr _ _ _ _ Hr); simpl; [done|].
  destruct Hr as (_ & _ & cs & Hl & Hlen & Hch).
  rewrite (bindR_run _ _ _ _ (load_run _ _ _ Hl)). simpl.
  case_decide; [|done].
  assert (slot childCount p < childCount)%nat as Hslot by by apply slot_lt.
  destruct (lookup_lt_is_Some_2 cs (slot childCount p)) as [cj Hcj]; [lia|].
  rewrite (bindR_run _ _ _ _ (child_run _ _ _ _ _ Hl Hcj)).
  apply IH; [by apply Hch|].
  pose proof (depth_child c x0 k v ch _ Hslot). lia.
Qed.

(** The loop of [recalculateCount] over the children of a node. *)
Lemma foldR_sizes h cs (g : nat → Z) start acc :
  (∀ j cj, cs !! j = Some cj → Heap.Size cj h = Some (Ok (g (start + j)%nat))) →
  Heap.foldR (fun count t =>
                Heap.bindR (Heap.Size t)
                  (fun size => Heap.retR (int_add count size))) cs acc h =
  Some (Ok (fold_left (fun count j => int_add count (g j))
              (seq start (length cs)) acc)).
Proof.
  revert start acc. induction cs as [|c cs IH]; intros start acc Hg; [done|].
  simpl. rewrite (bindR_run _ _ _ (int_add acc (g start))).
  - apply IH. intros j cj Hj.
    replace (S start + j)%nat with (start + S j)%nat by lia.
    by apply (Hg (S j)).
  - rewrite (bindR_run _ _ _ (g start)); [done|].
    specialize (Hg 0%nat c eq_refl). by rewrite Nat.add_0_r in Hg.
Qed.

Lemma recalculateCount_run h m n (ch : nat → StringMap) :
  h !! m = Some n → length (Heap.node_children n) = childCount →
  (∀ j cj, Heap.node_children n !! j = Some cj →
           Heap.Size cj h = Some (Ok (count (ch j)))) →
  Heap.recalculateCount m h =
  Some (Ok (tt,
    <[m := Heap.Build_node
             (count (recalculateCount childCount
                       (Node (Heap.node_count n) (Heap.node_hash n)
                          (Heap.node_key n) (Heap.node_value n) ch)))
             (Heap.node_hash n) (Heap.node_key n) (Heap.node_value n)
             (Heap.node_children n)]> h)).
Proof.
  intros Hm Hlen Hsizes. unfold Heap.recalculateCount.
  rewrite (bindM_run _ _ _ _ _ (read_run _ _ _ (load_run _ _ _ Hm))).
  rewrite (bindM_run _ _ _ _ _
             (read_run _ _ _ (foldR_sizes h _ (fun j => count (ch j)) 0 0 Hsizes))).
  rewrite (set_count_run _ _ _ _ Hm). by rewrite Hlen.
Qed.

(** ** Writing *)

Lemma lookup_fresh (h : list Heap.node) n : (h ++ [n]) !! length h = Some n.
Proof. by apply list_lookup_middle. Qed.

Lemma insert_fresh (h : list Heap.node) n n' :
  <[length h := n']> (h ++ [n]) = h ++ [n'].
Proof.
  rewrite insert_app_r_alt by done. by rewrite Nat.sub_diag.
Qed.

Lemma with_sentinel_prefix h h' :
  with_sentinel h → h `prefix_of` h' → with_sentinel h'.
Proof. intros Hs Hp. by eapply prefix_lookup_Some. Qed.

Lemma with_sentinel_insert h m n :
  with_sentinel h → m ≠ Heap.nilMap → with_sentinel (<[m := n]> h).
Proof. intros Hs Hm. unfold with_sentinel. by rewrite list_lookup_insert_ne. Qed.

Lemma prefix_insert_fresh (h0 h : list Heap.node) m n :
  h0 `prefix_of` h → (length h0 ≤ m)%nat → h0 `prefix_of` <[m := n]> h.
Proof.
  intros [k ->] Hm. rewrite insert_app_r_alt by done. by apply prefix_app_r.
Qed.

(** A clone with one child replaced and its count recalculated. *)
Lemma rebuild_run (A : nat → Prop) h m c x k v cs ch i lt t :
  with_sentinel h → m ≠ Heap.nilMap → ¬ A m →
  h !! m = Some (Heap.Build_node c x k v cs) →
  length cs = childCount → (i < childCount)%nat →
  (∀ j cj, cs !! j = Some cj → j ≠ i → repr A h cj (ch j)) →
  repr A h lt t →
  ∃ n1 n',
    Heap.set_child m i lt h = Some (Ok (tt, <[m := n1]> h)) ∧
    Heap.recalculateCount m (<[m := n1]> h) = Some (Ok (tt, <[m := n']> h)) ∧
    repr (fun y => A y ∨ y = m) (<[m := n']> h) m
      (recalculateCount childCount (set_child (clone (Node c x k v ch)) i t)).
Proof.
  intros Hs Hm HA Hl Hlen Hi Hch Ht.
  set (n1 := Heap.Build_node c x k v (<[i := lt]> cs)).
  set (ch' := fun j => if decide (j = i) then t else ch j).
  assert (∀ n' j cj, (<[i := lt]> cs) !! j = Some cj →
            repr A (<[m := n']> h) cj (ch' j)) as Hch'.
  { intros n' j cj Hj. apply (repr_frame A h).
    { intros y Hy. apply list_lookup_insert_ne. by intros ->. }
    unfold ch'. destruct (decide (j = i)) as [->|Hne].
    - rewrite list_lookup_insert_eq in Hj by lia. by injection Hj as <-.
    - rewrite list_lookup_insert_ne in Hj by done. by apply Hch. }
  assert (<[m := n1]> h !! m = Some n1) as Hm1.
  { apply list_lookup_insert_eq. by eapply lookup_lt_Some. }
  assert (i < length (Heap.node_children (Heap.Build_node c x k v cs)))%nat
    as Hi' by (simpl; lia).
  exists n1. eexists. split; [|split].
  - by rewrite (set_child_run _ _ _ _ lt Hl Hi').
  - rewrite (recalculateCount_run _ _ _ ch' Hm1).
    + by rewrite list_insert_insert_eq.
    + simpl. by rewrite length_insert.
    + intros j cj Hj. apply (Size_refines A).
      * by apply with_sentinel_insert.
      * by apply Hch'.
  - simpl. split; [done|]. split; [by right|]. eexists. split.
    + apply list_lookup_insert_eq. by eapply lookup_lt_Some.
    + split; [by rewrite length_insert|].
      intros j cj Hj. eapply repr_mono; [|by apply Hch'].
      intros y Hy. by left.
Qed.

Lemma with_sentinel_length h : with_sentinel h → (0 < length h)%nat.
Proof. by intros ?%lookup_lt_Some. Qed.

Lemma setLowLevel_refines b fuel h l t p x k v :
  with_sentinel h → (b ≤ length h)%nat →
  repr (fun y => y < b)%nat h l t → (depth t < fuel)%nat →
  match setLowLevel childCount shiftSize t p x k v with
  | Ok t' =>
      ∃ l' h',
        Heap.setLowLevel childCount shiftSize fuel l p x k v h =
          Some (Ok (l', h')) ∧
        h `prefix_of` h' ∧
        repr (fun y => y < b ∨ length h ≤ y)%nat h' l' t'
  | Panic msg =>
      Heap.setLowLevel childCount shiftSize fuel l p x k v h =
        Some (Panic msg)
  end.
Proof.
  revert b fuel h l p.
  induction t as [|c x0 k0 v0 ch IH]; intros b fuel h l p Hs Hb Hr Hd;
    (destruct fuel as [|fuel]; [lia|]);
    pose proof (with_sentinel_length _ Hs) as Hlen0.
  - simpl in Hr. subst l. cbn [setLowLevel Heap.setLowLevel].
    change (Heap.IsNil Heap.nilMap) with true. cbv iota.
    exists (length h). eexists. split.
    + rewrite (bindM_run _ _ _ _ _ (clone_run _ _ _ Hs)).
      rewrite (bindM_run _ _ _ _ _ (set_count_run _ _ _ _ (lookup_fresh _ _))).
      rewrite insert_fresh.
      rewrite (bindM_run _ _ _ _ _ (set_hash_run _ _ _ _ (lookup_fresh _ _))).
      rewrite insert_fresh.
      rewrite (bindM_run _ _ _ _ _ (set_key_run _ _ _ _ (lookup_fresh _ _))).
      rewrite insert_fresh.
      rewrite (bindM_run _ _ _ _ _ (set_value_run _ _ _ _ (lookup_fresh _ _))).
      rewrite insert_fresh. simpl. reflexivity.
    + split; [by apply prefix_app_r|]. simpl.
      split; [unfold Heap.nilMap; lia|]. split; [lia|].
      eexists. split; [apply lookup_fresh|]. split; [apply length_replicate|].
      by intros j cj [-> _]%lookup_replicate.
  - destruct Hr as (Hl0 & Hlb & cs & Hl & Hcs & Hch).
    cbn [setLowLevel Heap.setLowLevel].
    replace (Heap.IsNil l) with false
      by (symmetry; by apply bool_decide_eq_false).
    cbv iota.
    rewrite (bindM_run _ _ _ _ _ (read_run _ _ _ (load_run _ _ _ Hl))).
    cbn [Heap.node_hash Heap.node_key].
    set (n := Heap.Build_node c x0 k0 v0 cs) in *.
    assert ((h ++ [n]) !! l = Some n) as Hl1
      by (by apply lookup_app_l_Some).
    case_decide as Hx; [|case_decide as Hk].
    + set (i := slot childCount p).
      assert (i < childCount)%nat as Hi by by apply slot_lt.
      destruct (lookup_lt_is_Some_2 cs i) as [cj Hcj]; [lia|].
      rewrite (bindM_run _ _ _ _ _ (clone_run _ _ _ Hl)).
      rewrite (bindM_run _ _ _ _ _
                 (read_run _ _ _ (child_run _ _ _ _ _ Hl1 Hcj))).
      assert (h `prefix_of` h ++ [n]) as Hp1 by by apply prefix_app_r.
      pose proof (IH i b fuel (h ++ [n]) cj (N.shiftr p shiftSize)) as IHi.
      destruct (setLowLevel childCount shiftSize (ch i) _ x k v)
        as [t1|msg] eqn:Hpure; simpl.
      * destruct IHi as (lt & h2 & Hrun & Hp2 & Hrt).
        { by eapply with_sentinel_prefix. }
        { rewrite length_app. simpl. lia. }
        { eapply repr_prefix; [done| |by apply Hch]. simpl. lia. }
        { pose proof (depth_child c x0 k0 v0 ch i Hi). lia. }
        rewrite (bindM_run _ _ _ _ _ Hrun).
        destruct (rebuild_run (fun y => y < b ∨ length (h ++ [n]) ≤ y)%nat
                    h2 (length h) c x0 k0 v0 cs ch i lt t1)
          as (n1 & n' & Hrun1 & Hrun2 & Hr'); [| | | |done|done| |done|].
        { eapply with_sentinel_prefix; [|done].
          by eapply with_sentinel_prefix. }
        { unfold Heap.nilMap. lia. }
        { rewrite length_app. simpl. lia. }
        { eapply prefix_lookup_Some; [apply lookup_fresh|done]. }
        { intros j cj' Hj _. eapply repr_mono; last first.
          - eapply (repr_prefix _ h); [by trans (h ++ [n])| |by apply Hch].
            simpl. lia.
          - simpl. tauto. }
        rewrite (bindM_run _ _ _ _ _ Hrun1), (bindM_run _ _ _ _ _ Hrun2).
        eexists _, _. split; [done|]. split.
        { apply prefix_insert_fresh; [by trans (h ++ [n])|done]. }
        refine (repr_mono _ (fun y => y < b ∨ length h ≤ y)%nat _ _ _ _ Hr').
        intros y. rewrite length_app. simpl. lia.
      * rewrite (bindM_panic _ _ _ msg); [done|]. apply IHi.
        { by eapply with_sentinel_prefix. }
        { rewrite length_app. simpl. lia. }
        { eapply repr_prefix; [done| |by apply Hch]. simpl. lia. }
        { pose proof (depth_child c x0 k0 v0 ch i Hi). lia. }
    + done.
    + rewrite (bindM_run _ _ _ _ _ (clone_run _ _ _ Hl)).
      rewrite (bindM_run _ _ _ _ _ (set_value_run _ _ _ _ (lookup_fresh _ _))).
      rewrite insert_fresh. simpl.
      eexists _, _. split; [done|]. split; [by apply prefix_app_r|].
      simpl. split; [unfold Heap.nilMap; lia|]. split; [lia|].
      eexists. split; [apply lookup_fresh|]. split; [done|].
      intros j cj Hj. eapply repr_mono; last first.
      * eapply (repr_prefix _ h); [by apply prefix_app_r| |by apply Hch].
        simpl. lia.
      * simpl. tauto.
Qed.

(** The scan of [deleteLeftmost] for the first child that is not the
    sentinel. *)
Lemma find_slots (ch : nat → StringMap) (cs : list nat) start :
  (∀ j cj, cs !! j = Some cj →
           (cj = Heap.nilMap ↔ ch (start + j)%nat = nilMap)) →
  match find (fun i => negb (IsNil (ch i))) (seq start (length cs)) with
  | Some i =>
      ∃ j cj, i = (start + j)%nat ∧
              list_find (fun t => t ≠ Heap.nilMap) cs = Some (j, cj)
  | None => list_find (fun t => t ≠ Heap.nilMap) cs = None
  end.
Proof.
  revert start. induction cs as [|c cs IH]; intros start Hnil; [done|].
  pose proof (Hnil 0%nat c eq_refl) as H0. rewrite Nat.add_0_r in H0.
  cbn [length seq find]. csimpl.
  destruct (ch start) eqn:Hstart; simpl.
  - rewrite decide_False by (intros Hc; apply Hc; by apply H0).
    specialize (IH (S start)).
    destruct (find _ _) as [i|].
    + destruct IH as (j & cj & -> & ->).
      { intros j cj Hj. rewrite Nat.add_succ_comm. by apply (Hnil (S j)). }
      exists (S j), cj. split; [lia|done].
    + rewrite IH; [done|].
      intros j cj Hj. rewrite Nat.add_succ_comm. by apply (Hnil (S j)).
  - rewrite decide_True by (intros Hc; by apply H0 in Hc).
    exists 0%nat, c. split; [lia|done].
Qed.

Lemma repr_IsNil_iff A h cj t :
  repr A h cj t → (cj = Heap.nilMap ↔ t = nilMap).
Proof. destruct t; simpl; [done|]. intros [? _]. by split. Qed.

Lemma deleteLeftmost_refines fuel h l t :
  with_sentinel h → repr (fun y => y < length h)%nat h l t →
  (depth t < fuel)%nat →
  match deleteLeftmost childCount t with
  | Ok (d, r) =>
      ∃ ld lr h',
        Heap.deleteLeftmost fuel l h = Some (Ok ((ld, lr), h')) ∧
        h `prefix_of` h' ∧ d ≠ nilMap ∧
        repr (fun y => y < length h)%nat h ld d ∧
        repr (fun y => y < length h')%nat h' lr r
  | Panic msg => Heap.deleteLeftmost fuel l h = Some (Panic msg)
  end.
Proof.
  revert fuel h l.
  induction t as [|c x k v ch IH]; intros fuel h l Hs Hr Hd;
    (destruct fuel as [|fuel]; [lia|]);
    pose proof (with_sentinel_length _ Hs) as Hlen0.
  - simpl in Hr. subst l. cbn [deleteLeftmost Heap.deleteLeftmost].
    unfold Heap.isLeaf, isLeaf.
    rewrite (bindM_run _ _ _ false h); last first.
    { apply read_run. by rewrite (bindR_run _ _ _ _ (Size_run _ _ _ Hs)). }
    simpl.
    rewrite (bindM_run _ _ _ _ _ (read_run _ _ _ (load_run _ _ _ Hs))).
    simpl. replace (list_find _ _) with (@None (nat * nat)); [done|].
    symmetry. apply list_find_None, Forall_forall.
    intros y [-> _]%elem_of_replicate. by intros [].
  - pose proof Hr as (Hl0 & Hlb & cs & Hl & Hcs & Hch).
    cbn [deleteLeftmost Heap.deleteLeftmost].
    unfold Heap.isLeaf, isLeaf.
    rewrite (bindM_run _ _ _ (bool_decide (c = 1)) h); last first.
    { apply read_run. by rewrite (bindR_run _ _ _ _ (Size_run _ _ _ Hl)). }
    simpl. case_bool_decide as Hleaf.
    { eexists _, _, _. split; [done|]. split; [done|]. split; [done|].
      split; [done|]. done. }
    rewrite (bindM_run _ _ _ _ _ (read_run _ _ _ (load_run _ _ _ Hl))).
    simpl.
    pose proof (find_slots ch cs 0) as Hfind. rewrite Hcs in Hfind.
    unfold slots.
    assert (∀ j cj, cs !! j = Some cj →
              cj = Heap.nilMap ↔ ch (0 + j)%nat = nilMap) as Hnil.
    { intros j cj Hj. eapply repr_IsNil_iff. by apply Hch. }
    destruct (find _ (seq 0 childCount)) as [i|] eqn:Hpure;
      [|by rewrite Hfind].
    destruct (Hfind Hnil) as (j & cj & -> & Hf). rewrite Hf.
    apply list_find_Some in Hf as (Hj & _).
    apply find_some in Hpure as [Hi _]. apply in_seq in Hi.
    change (0 + j)%nat with j in *.
    pose proof (IH j fuel h cj Hs (Hch j cj Hj)) as IHj.
    destruct (deleteLeftmost childCount (ch j)) as [[d child]|msg];
      cbn [mbind result_bind].
    + destruct IHj as (ld & lchild & h2 & Hrun & Hp2 & Hd0 & Hrd & Hrc).
      { pose proof (depth_child c x k v ch j ltac:(lia)). lia. }
      rewrite (bindM_run _ _ _ _ _ Hrun).
      set (n := Heap.Build_node c x k v cs) in *.
      assert (h2 !! l = Some n) as Hl2 by by eapply prefix_lookup_Some.
      rewrite (bindM_run _ _ _ _ _ (clone_run _ _ _ Hl2)).
      pose proof (prefix_length _ _ Hp2) as Hle2.
      destruct (rebuild_run (fun y => y < length h2)%nat (h2 ++ [n])
                  (length h2) c x k v cs ch j lchild child)
        as (n1 & n' & Hrun1 & Hrun2 & Hr'); [| | | |done|lia| | |].
      { eapply with_sentinel_prefix; [|by apply prefix_app_r].
        by eapply with_sentinel_prefix. }
      { unfold Heap.nilMap. lia. }
      { lia. }
      { apply lookup_fresh. }
      { intros j' cj' Hj' _. eapply repr_mono; last first.
        - eapply (repr_prefix (fun y => y < length h)%nat h);
            [|done|by apply Hch].
          trans h2; [done|by apply prefix_app_r].
        - simpl. lia. }
      { eapply (repr_prefix (fun y => y < length h2)%nat h2);
          [by apply prefix_app_r|done|done]. }
      rewrite (bindM_run _ _ _ _ _ Hrun1), (bindM_run _ _ _ _ _ Hrun2).
      eexists _, _, _. split; [done|]. split.
      { apply prefix_insert_fresh; [|lia].
        trans h2; [done|by apply prefix_app_r]. }
      split; [done|]. split; [done|].
      refine (repr_mono _ _ _ _ _ _ Hr').
      intros y. rewrite length_insert, length_app. simpl. lia.
    + rewrite (bindM_panic _ _ _ msg); [done|]. apply IHj.
      pose proof (depth_child c x k v ch j ltac:(lia)). lia.
Qed.

(** The scan of [deleteLowLevel] for the largest child. *)
Lemma largest_loop h (g : nat → Z) cs start acc :
  (∀ j cj, cs !! j = Some cj →
           Heap.Size cj h = Some (Ok (g (start + j)%nat))) →
  Heap.foldR
    (fun '(i, size) '(j, t) =>
       Heap.bindR (Heap.Size t) (fun tsize =>
         if bool_decide (tsize > size)
         then Heap.retR (Z.of_nat j, tsize)
         else Heap.retR (i, size)))
    (imap (fun j => pair (start + j)%nat) cs) acc h =
  Some (Ok (fold_left
              (fun '(i, size) j =>
                 if bool_decide (g j > size) then (Z.of_nat j, g j)
                 else (i, size))
              (seq start (length cs)) acc)).
Proof.
  revert start acc. induction cs as [|c cs IH]; intros start acc Hg; [done|].
  rewrite imap_cons. cbn [Heap.foldR length seq fold_left].
  destruct acc as [i size].
  pose proof (Hg 0%nat c eq_refl) as H0. rewrite Nat.add_0_r in *.
  rewrite (bindR_run _ _ _
             (if bool_decide (g start > size) then (Z.of_nat start, g start)
              else (i, size))); last first.
  { rewrite (bindR_run _ _ _ _ H0). by case_bool_decide. }
  rewrite <-(IH (S start)).
  - f_equal. apply imap_ext. intros j cj _. simpl. f_equal. lia.
  - intros j cj Hj. replace (S start + j)%nat with (start + S j)%nat by lia.
    by apply (Hg (S j)).
Qed.

Lemma largest_run h l c x k v cs (ch : nat → StringMap) :
  h !! l = Some (Heap.Build_node c x k v cs) → length cs = childCount →
  (∀ j cj, cs !! j = Some cj → Heap.Size cj h = Some (Ok (count (ch j)))) →
  Heap.largest l h = Some (Ok (largest childCount (Node c x k v ch))).
Proof.
  intros Hl Hlen Hsizes. unfold Heap.largest.
  rewrite (bindR_run _ _ _ _ (load_run _ _ _ Hl)).
  unfold largest, slots. rewrite <-Hlen.
  exact (largest_loop h (fun j => count (ch j)) cs 0 (-1, -1) Hsizes).
Qed.

(** The loop of [deleteLowLevel] that fills the children of the
    replacement. *)
Lemma adopt_loop l m cs i lchild (js : list nat) :
  l ≠ m → length cs = childCount → (∀ j, j ∈ js → j < childCount)%nat →
  ∀ h cl xl kl vl c x k v cm,
    h !! l = Some (Heap.Build_node cl xl kl vl cs) →
    h !! m = Some (Heap.Build_node c x k v cm) →
    length cm = childCount →
    ∃ cm',
      Heap.foldM
        (fun _ j =>
           if decide (Z.of_nat j = i)
           then Heap.set_child m j lchild
           else Heap.bindM (Heap.read (Heap.child l j))
                  (fun t => Heap.set_child m j t))
        js tt h =
      Some (Ok (tt, <[m := Heap.Build_node c x k v cm']> h)) ∧
      length cm' = childCount ∧
      ∀ j, cm' !! j =
           if decide (j ∈ js)
           then (if decide (Z.of_nat j = i) then Some lchild else cs !! j)
           else cm !! j.
Proof.
  intros Hlm Hcs. induction js as [|a js IH];
    intros Hjs h cl xl kl vl c x k v cm Hl Hm Hcm.
  { exists cm. split; [|split; [done|]].
    - simpl. unfold Heap.retM. by rewrite list_insert_id.
    - intros j. by rewrite decide_False by apply not_elem_of_nil. }
  assert (a < childCount)%nat as Ha by (apply Hjs; by left).
  destruct (lookup_lt_is_Some_2 cs a) as [ca Hca]; [lia|].
  set (t := if decide (Z.of_nat a = i) then lchild else ca).
  set (n1 := Heap.Build_node c x k v (<[a := t]> cm)).
  assert ((if decide (Z.of_nat a = i)
           then Heap.set_child m a lchild
           else Heap.bindM (Heap.read (Heap.child l a))
                  (fun t => Heap.set_child m a t)) h =
          Some (Ok (tt, <[m := n1]> h))) as Hstep.
  { unfold t, n1. case_decide.
    - rewrite (set_child_run _ _ _ _ _ Hm); [done|simpl; lia].
    - rewrite (bindM_run _ _ _ _ _
                 (read_run _ _ _ (child_run _ _ _ _ _ Hl Hca))).
      rewrite (set_child_run _ _ _ _ _ Hm); [done|simpl; lia]. }
  destruct (IH ltac:(intros j Hj; apply Hjs; by right) (<[m := n1]> h)
              cl xl kl vl c x k v (<[a := t]> cm))
    as (cm' & Hrun & Hlen & Hcm').
  { by rewrite list_lookup_insert_ne. }
  { apply list_lookup_insert_eq. by eapply lookup_lt_Some. }
  { by rewrite length_insert. }
  exists cm'. split; [|split; [done|]].
  - cbn [Heap.foldM]. rewrite (bindM_run _ _ _ _ _ Hstep), Hrun.
    by rewrite list_insert_insert_eq.
  - intros j. rewrite Hcm'. destruct (decide (j ∈ js)) as [Hin|Hnin].
    + by rewrite (decide_True (P:=j ∈ a :: js)) by (by right).
    + destruct (decide (j = a)) as [->|Hne].
      * rewrite (decide_True (P:=a ∈ a :: js)) by left.
        rewrite list_lookup_insert_eq by lia. unfold t.
        by case_decide.
      * rewrite (decide_False (P:=j ∈ a :: js))
          by (by intros [?|?]%elem_of_cons).
        by rewrite list_lookup_insert_ne.
Qed.

#[local] Arguments adopt : simpl never.
#[local] Arguments recalculateCount : simpl never.
#[local] Arguments largest : simpl never.

Lemma deleteLowLevel_refines fuel h l t p x :
  with_sentinel h → repr (fun y => y < length h)%nat h l t →
  (depth t < fuel)%nat →
  match deleteLowLevel childCount shiftSize t p x with
  | Ok (t', found) =>
      ∃ l' h',
        Heap.deleteLowLevel childCount shiftSize fuel l p x h =
          Some (Ok ((l', found), h')) ∧
        h `prefix_of` h' ∧
        repr (fun y => y < length h')%nat h' l' t'
  | Panic msg =>
      Heap.deleteLowLevel childCount shiftSize fuel l p x h =
        Some (Panic msg)
  end.
Proof.
  revert fuel h l p.
  induction t as [|c x0 k0 v0 ch IH]; intros fuel h l p Hs Hr Hd;
    (destruct fuel as [|fuel]; [lia|]);
    pose proof (with_sentinel_length _ Hs) as Hlen0.
  { simpl in Hr. subst l. simpl. by eexists _, _. }
  pose proof Hr as (Hl0 & Hlb & cs & Hl & Hcs & Hch).
  cbn [deleteLowLevel Heap.deleteLowLevel].
  replace (Heap.IsNil l) with false
    by (symmetry; by apply bool_decide_eq_false).
  cbv iota.
  rewrite (bindM_run _ _ _ _ _ (read_run _ _ _ (load_run _ _ _ Hl))).
  cbn [Heap.node_hash].
  set (n := Heap.Build_node c x0 k0 v0 cs) in *.
  assert (∀ j cj, cs !! j = Some cj →
            Heap.Size cj h = Some (Ok (count (ch j)))) as Hsizes.
  { intros j cj Hj. eapply Size_refines; [done|by apply Hch]. }
  case_decide as Hx.
  - set (i := slot childCount p).
    assert (i < childCount)%nat as Hi by by apply slot_lt.
    destruct (lookup_lt_is_Some_2 cs i) as [cj Hcj]; [lia|].
    rewrite (bindM_run _ _ _ _ _ (read_run _ _ _ (child_run _ _ _ _ _ Hl Hcj))).
    pose proof (IH i fuel h cj (N.shiftr p shiftSize) Hs (Hch i cj Hcj)) as IHi.
    destruct (deleteLowLevel childCount shiftSize (ch i) _ x)
      as [[child found]|msg]; cbn [mbind result_bind]; last first.
    { rewrite (bindM_panic _ _ _ msg); [done|]. apply IHi.
      pose proof (depth_child c x0 k0 v0 ch i Hi). lia. }
    destruct IHi as (lchild & h2 & Hrun & Hp2 & Hrc).
    { pose proof (depth_child c x0 k0 v0 ch i Hi). lia. }
    rewrite (bindM_run _ _ _ _ _ Hrun).
    pose proof (prefix_length _ _ Hp2) as Hle2.
    destruct found; cbn [negb]; cbv iota.
    + assert (h2 !! l = Some n) as Hl2 by by eapply prefix_lookup_Some.
      rewrite (bindM_run _ _ _ _ _ (clone_run _ _ _ Hl2)).
      destruct (rebuild_run (fun y => y < length h2)%nat (h2 ++ [n])
                  (length h2) c x0 k0 v0 cs ch i lchild child)
        as (n1 & n' & Hrun1 & Hrun2 & Hr'); [| | | |done|lia| | |].
      { eapply with_sentinel_prefix; [|by apply prefix_app_r].
        by eapply with_sentinel_prefix. }
      { unfold Heap.nilMap. lia. }
      { lia. }
      { apply lookup_fresh. }
      { intros j' cj' Hj' _. eapply repr_mono; last first.
        - eapply (repr_prefix (fun y => y < length h)%nat h);
            [|done|by apply Hch].
          trans h2; [done|by apply prefix_app_r].
        - simpl. lia. }
      { eapply (repr_prefix (fun y => y < length h2)%nat h2);
          [by apply prefix_app_r|done|done]. }
      rewrite (bindM_run _ _ _ _ _ Hrun1), (bindM_run _ _ _ _ _ Hrun2).
      eexists _, _. split; [done|]. split.
      { apply prefix_insert_fresh; [|lia].
        trans h2; [done|by apply prefix_app_r]. }
      refine (repr_mono _ _ _ _ _ _ Hr').
      intros y. rewrite length_insert, length_app. simpl. lia.
    + eexists _, _. split; [done|]. split; [done|].
      eapply repr_mono; last first.
      * eapply (repr_prefix (fun y => y < length h)%nat h); [done..|].
        exact Hr.
      * simpl. lia.
  - unfold Heap.isLeaf, isLeaf.
    rewrite (bindM_run _ _ _ (bool_decide (c = 1)) h); last first.
    { apply read_run. by rewrite (bindR_run _ _ _ _ (Size_run _ _ _ Hl)). }
    simpl. case_bool_decide as Hleaf.
    { by eexists _, _. }
    rewrite (bindM_run _ _ _ _ _
               (read_run _ _ _ (largest_run _ _ _ _ _ _ _ ch Hl Hcs Hsizes))).
    destruct (largest childCount (Node c x0 k0 v0 ch)) as [i sz] eqn:Hlg.
    case_bool_decide as Hneg; [done|].
    apply (largest_spec childCount childCount_pos) in Hlg
      as [[-> _]|(Hi0 & Hi & _)]; [lia|].
    destruct (lookup_lt_is_Some_2 cs (Z.to_nat i)) as [cj Hcj]; [lia|].
    rewrite (bindM_run _ _ _ _ _ (read_run _ _ _ (child_run _ _ _ _ _ Hl Hcj))).
    pose proof (deleteLeftmost_refines fuel h cj (ch (Z.to_nat i)) Hs
                  (Hch _ _ Hcj)) as Hdl.
    destruct (deleteLeftmost childCount (ch (Z.to_nat i)))
      as [[replacement child]|msg]; cbn [mbind result_bind]; last first.
    { rewrite (bindM_panic _ _ _ msg); [done|]. apply Hdl.
      pose proof (depth_child c x0 k0 v0 ch _ Hi). lia. }
    destruct Hdl as (lr & lchild & h2 & Hrun & Hp2 & Hrnil & Hrr & Hrc).
    { pose proof (depth_child c x0 k0 v0 ch _ Hi). lia. }
    rewrite (bindM_run _ _ _ _ _ Hrun).
    pose proof (prefix_length _ _ Hp2) as Hle2.
    destruct replacement as [|cr xr kr vr chr]; [done|].
    destruct Hrr as (_ & Hlr & csr & Hlr' & Hcsr & _).
    set (nr := Heap.Build_node cr xr kr vr csr) in *.
    assert (h2 !! lr = Some nr) as Hlr2 by by eapply prefix_lookup_Some.
    rewrite (bindM_run _ _ _ _ _ (clone_run _ _ _ Hlr2)).
    set (m := length h2). set (h3 := h2 ++ [nr]).
    assert (h `prefix_of` h3) as Hp3
      by (trans h2; [done|by apply prefix_app_r]).
    destruct (adopt_loop l m cs i lchild (slots childCount))
      with (h := h3) (cl := c) (xl := x0) (kl := k0) (vl := v0)
           (c := cr) (x := xr) (k := kr) (v := vr) (cm := csr)
      as (cm' & Hadopt & Hcm' & Hcm'j); [unfold m; lia|done| | | |done|].
    { intros j Hj. by apply elem_of_slots in Hj. }
    { by eapply prefix_lookup_Some. }
    { apply lookup_fresh. }
    unfold Heap.adopt. rewrite (bindM_run _ _ _ _ _ Hadopt).
    set (self := Node c x0 k0 v0 ch).
    set (X := adopt childCount self (clone (Node cr xr kr vr chr)) i child).
    destruct (adopt_spec childCount childCount_pos self
                (Node cr xr kr vr chr) i child Hi0) as (_ & Hroot & HchX).
    fold X in Hroot, HchX.
    set (n4 := Heap.Build_node cr xr kr vr cm') in *.
    set (h4 := <[m := n4]> h3) in *.
    assert (with_sentinel h4) as Hs4.
    { apply with_sentinel_insert; [|unfold m, Heap.nilMap; lia].
      by eapply with_sentinel_prefix. }
    assert (∀ j cj', cm' !! j = Some cj' →
              repr (fun y => y < length h2)%nat h4 cj' (children X j))
      as Hch4.
    { intros j cj' Hj.
      assert (j < childCount)%nat as Hjlt
        by (rewrite <-Hcm'; by eapply lookup_lt_Some).
      apply (repr_frame _ h3).
      { intros y Hy. apply list_lookup_insert_ne. unfold m. lia. }
      rewrite Hcm'j, decide_True in Hj by (by apply elem_of_slots).
      change (children X j) with
        (children (recalculateCount childCount X) j).
      rewrite (HchX j Hjlt).
      destruct (decide (Z.of_nat j = i)) as [Heq|Hne].
      - injection Hj as <-. rewrite decide_True by lia.
        eapply (repr_prefix (fun y => y < length h2)%nat h2);
          [by apply prefix_app_r|done|done].
      - rewrite decide_False by lia. eapply repr_mono; last first.
        + eapply (repr_prefix (fun y => y < length h)%nat h);
            [done|done|by apply Hch].
        + simpl. lia. }
    assert (h4 !! m = Some n4) as Hm4.
    { apply list_lookup_insert_eq. unfold h3, m.
      rewrite length_app. simpl. lia. }
    rewrite (bindM_run _ _ _ _ _
               (recalculateCount_run _ _ _ (children X) Hm4 Hcm'
                  ltac:(intros j cj' Hj; eapply Size_refines;
                        [done|by apply Hch4]))).
    eexists _, _. split; [done|]. split.
    { unfold h4. rewrite list_insert_insert_eq.
      apply prefix_insert_fresh; [done|unfold m; lia]. }
    unfold h4. rewrite list_insert_insert_eq.
    injection Hroot as Hx' Hk' Hv'.
    change (hash (recalculateCount childCount X)) with (hash X) in Hx'.
    change (key (recalculateCount childCount X)) with (key X) in Hk'.
    change (value (recalculateCount childCount X)) with (value X) in Hv'.
    unfold recalculateCount at 1. unfold set_count. cbn [repr].
    split; [unfold m, Heap.nilMap; lia|]. split.
    { rewrite length_insert. unfold h3, m. rewrite length_app. simpl. lia. }
    exists cm'. split; [|split; [done|]].
    + rewrite list_lookup_insert_eq
        by (unfold h3, m; rewrite length_app; simpl; lia).
      cbn [Heap.node_hash Heap.node_key Heap.node_value Heap.node_children].
      by rewrite Hx', Hk', Hv'.
    + intros j cj' Hj. eapply repr_mono; last first.
      * apply (repr_frame _ h4); [|by apply Hch4].
        intros y Hy. simpl in Hy. unfold h4.
        by rewrite !list_lookup_insert_ne by (unfold m; lia).
      * simpl. intros y Hy. rewrite length_insert. unfold h3.
        rewrite length_app. simpl. lia.
Qed.

(** ** Enumeration *)

Lemma ForEach_loop_panic {St} (g : nat → St → result St) l msg :
  fold_left (fun acc j => s ← acc; g j s) l (Panic msg) = Panic msg.
Proof. by induction l. Qed.

Lemma ForEach_loop {St} fuel h (f : string → string → St → result St)
    (ch : nat → StringMap) cs start s :
  (∀ j cj s, cs !! j = Some cj →
     (if negb (Heap.IsNil cj) then Heap.ForEach fuel cj f s
      else Heap.retR s) h =
     Some (if negb (IsNil (ch (start + j)%nat))
           then ForEach childCount (ch (start + j)%nat) f s else Ok s)) →
  Heap.foldR (fun s t =>
                if negb (Heap.IsNil t) then Heap.ForEach fuel t f s
                else Heap.retR s) cs s h =
  Some (fold_left
          (fun acc j =>
             s ← acc;
             if negb (IsNil (ch j)) then ForEach childCount (ch j) f s
             else Ok s)
          (seq start (length cs)) (Ok s)).
Proof.
  revert start s. induction cs as [|c cs IH]; intros start s Hstep; [done|].
  cbn [Heap.foldR length seq fold_left]. unfold Heap.bindR at 1.
  pose proof (Hstep 0%nat c s eq_refl) as H0. rewrite Nat.add_0_r in H0.
  rewrite H0. cbn [mbind result_bind].
  destruct (if negb (IsNil (ch start)) then _ else _) as [s1|msg].
  - apply IH. intros j cj s' Hj.
    replace (S start + j)%nat with (start + S j)%nat by lia.
    by apply (Hstep (S j)).
  - by rewrite ForEach_loop_panic.
Qed.

Lemma ForEach_refines {St} A h l t fuel
    (f : string → string → St → result St) s :
  repr A h l t → (depth t < fuel)%nat →
  Heap.ForEach fuel l f s h = Some (ForEach childCount t f s).
Proof.
  revert l fuel s. induction t as [|c x k v ch IH]; intros l fuel s Hr Hd;
    (destruct fuel as [|fuel]; [lia|]);
    cbn [Heap.ForEach ForEach]; rewrite (IsNil_repr _ _ _ _ Hr); [done|].
  cbn [IsNil]. cbv iota.
  destruct Hr as (_ & _ & cs & Hl & Hcs & Hch).
  rewrite (bindR_run _ _ _ _ (load_run _ _ _ Hl)).
  cbn [Heap.node_key Heap.node_value Heap.node_children].
  unfold Heap.bindR at 1, Heap.call.
  destruct (f k v s) as [s1|msg]; cbn [mbind result_bind]; [|done].
  rewrite (ForEach_loop fuel h f ch cs 0 s1); [by rewrite Hcs|].
  intros j cj s' Hj. cbn [Nat.add].
  rewrite (IsNil_repr _ _ _ _ (Hch j cj Hj)).
  destruct (IsNil (ch j)) eqn:Hnil; [done|]. cbn [negb]. cbv iota.
  apply IH; [by apply Hch|].
  pose proof (depth_child c x k v ch j
                ltac:(rewrite <-Hcs; by eapply lookup_lt_Some)). lia.
Qed.

Lemma Keys_refines A h l t fuel :
  with_sentinel h → repr A h l t → (depth t < fuel)%nat →
  Heap.Keys fuel l h = Some (Keys childCount t).
Proof.
  intros Hs Hr Hd. unfold Heap.Keys, Keys.
  rewrite (bindR_run _ _ _ _ (Size_refines _ _ _ _ Hs Hr)).
  case_bool_decide; [done|].
  unfold Heap.bindR. rewrite (ForEach_refines _ _ _ _ _ _ _ Hr Hd).
  by destruct (ForEach childCount t store_key _) as [[keys i]|].
Qed.

(** ** The two embeddings agree *)

(** In every visited node the address is an address of the store. *)
Lemma repr_valid A h l t :
  repr A h l t → repr (fun y => A y ∧ y < length h)%nat h l t.
Proof.
  revert l. induction t as [|c x k v ch IH]; intros l; [done|].
  intros (Hl & HA & cs & Hcs & Hlen & Hch).
  split; [done|]. split; [split; [done|by eapply lookup_lt_Some]|].
  exists cs. split; [done|]. split; [done|].
  intros j cj Hj. apply IH. by apply Hch.
Qed.

Lemma represents_init :
  represents (Heap.init childCount) Heap.NewStringMap NewStringMap.
Proof. by split. Qed.

Lemma represents_prefix h h' l t :
  h `prefix_of` h' → represents h l t → represents h' l t.
Proof.
  intros Hp [Hs Hr]. split; [by eapply with_sentinel_prefix|].
  eapply repr_mono; last first.
  - by eapply (repr_prefix (fun y => y < length h)%nat h).
  - simpl. intros y Hy. pose proof (prefix_length _ _ Hp). lia.
Qed.

(** [Lookup], [Size] and [Keys] on the store return what they return on
    the tree. *)
Theorem reads_refine h l t fuel :
  represents h l t → (depth t < fuel)%nat →
  (∀ k, Heap.Lookup childCount shiftSize hashKey fuel l k h =
        Some (Ok (Lookup childCount shiftSize hashKey t k))) ∧
  Heap.Size l h = Some (Ok (Size t)) ∧
  Heap.Keys fuel l h = Some (Keys childCount t).
Proof.
  intros [Hs Hr] Hd. split; [|split].
  - intros k. by eapply lookupLowLevel_refines.
  - by eapply Size_refines.
  - by eapply Keys_refines.
Qed.

(** [Set] on the store returns the root of a representation of what
    [Set] returns on the tree, and panics when it panics; the old root
    still represents the old tree. *)
Theorem Set_refines h l t k v fuel :
  represents h l t → (depth t < fuel)%nat →
  match Set_ childCount shiftSize hashKey t k v with
  | Ok t' =>
      ∃ l' h',
        Heap.Set_ childCount shiftSize hashKey fuel l k v h =
          Some (Ok (l', h')) ∧
        represents h' l' t' ∧ represents h' l t
  | Panic msg =>
      Heap.Set_ childCount shiftSize hashKey fuel l k v h = Some (Panic msg)
  end.
Proof.
  intros [Hs Hr] Hd. unfold Set_, Heap.Set_.
  pose proof (setLowLevel_refines (length h) fuel h l t (hashKey k)
                (hashKey k) k v Hs ltac:(lia) Hr Hd) as Href.
  destruct (setLowLevel _ _ _ _ _ _ _) as [t'|msg]; [|done].
  destruct Href as (l' & h' & Hrun & Hp & Hr').
  exists l', h'. split; [done|]. split.
  - split; [by eapply with_sentinel_prefix|].
    eapply repr_mono; [|by apply repr_valid]. simpl. tauto.
  - by apply (represents_prefix h).
Qed.

(** The same for [Delete]. *)
Theorem Delete_refines h l t k fuel :
  represents h l t → (depth t < fuel)%nat →
  match Delete childCount shiftSize hashKey t k with
  | Ok t' =>
      ∃ l' h',
        Heap.Delete childCount shiftSize hashKey fuel l k h =
          Some (Ok (l', h')) ∧
        represents h' l' t' ∧ represents h' l t
  | Panic msg =>
      Heap.Delete childCount shiftSize hashKey fuel l k h = Some (Panic msg)
  end.
Proof.
  intros [Hs Hr] Hd. unfold Delete, Heap.Delete.
  pose proof (deleteLowLevel_refines fuel h l t (hashKey k) (hashKey k)
                Hs Hr Hd) as Href.
  destruct (deleteLowLevel _ _ _ _ _) as [[t' found]|msg];
    cbn [mbind result_bind]; last first.
  { by rewrite (bindM_panic _ _ _ msg). }
  destruct Href as (l' & h' & Hrun & Hp & Hr').
  exists l', h'. rewrite (bindM_run _ _ _ _ _ Hrun).
  split; [done|]. split.
  - split; [by eapply with_sentinel_prefix|done].
  - by apply (represents_prefix h).
Qed.

(** Every map a program can hold is represented in a closed store. *)
Theorem Reachable_represented t :
  Reachable childCount shiftSize hashKey t →
  ∃ h l, Heap.closed h ∧ represents h l t.
Proof.
  induction 1 as [|t k v t' _ (h & l & Hc & Hrep) Hset
                   |t k t' _ (h & l & Hc & Hrep) Hdel].
  - exists (Heap.init childCount), Heap.NewStringMap.
    split; [apply Heap.closed_init|apply represents_init].
  - pose proof (Set_refines h l t k v (S (depth t)) Hrep ltac:(lia)) as Href.
    rewrite Hset in Href. destruct Href as (l' & h' & Hrun & Hrep' & _).
    exists h', l'. split; [|done].
    apply Heap.Set_kept in Hrun as (_ & ? & _); [done..|].
    destruct Hrep as [Hs Hr]. destruct t; simpl in Hr.
    + subst l. by apply with_sentinel_length.
    + by destruct Hr as (_ & ? & _).
  - pose proof (Delete_refines h l t k (S (depth t)) Hrep ltac:(lia)) as Href.
    rewrite Hdel in Href. destruct Href as (l' & h' & Hrun & Hrep' & _).
    exists h', l'. split; [|done].
    apply Heap.Delete_kept in Hrun as (_ & ? & _); [done..|].
    destruct Hrep as [Hs Hr]. destruct t; simpl in Hr.
    + subst l. by apply with_sentinel_length.
    + by destruct Hr as (_ & ? & _).
Qed.

(** ** The depth of the maps a program can hold *)

Lemma max_list_le (l : list nat) n :
  Forall (fun x => x ≤ n)%nat l → (max_list l ≤ n)%nat.
Proof. induction 1; simpl; lia. Qed.

(** Below a node reached after [s] digest bits, the digests agree on
    their [s] low bits; once the 64 bits of a digest are consumed a node
    has no child. *)
Lemma routed_depth (L : nat) s r t :
  N.of_nat childCount = (2 ^ shiftSize)%N →
  routed childCount shiftSize s t →
  (∀ h, h ∈ hashes childCount t → (h < 2 ^ 64)%N ∧ (h mod 2 ^ s)%N = r) →
  (64 ≤ s + N.of_nat L * shiftSize)%N →
  (depth t ≤ S L)%nat.
Proof.
  intros Hcc. revert L s r.
  induction t as [|c h k v ch IH]; intros L s r Hr Hh HL; [simpl; lia|].
  simpl. apply le_n_S, max_list_le, Forall_forall.
  intros d (j & -> & Hj)%list_elem_of_fmap.
  apply elem_of_slots in Hj; [|done]. destruct (Hr j Hj) as [Hs Hrj].
  assert (∀ h', h' ∈ hashes childCount (ch j) →
                h' ∈ hashes childCount (Node c h k v ch)) as Hsub.
  { intros h' Hh'. apply elem_of_hashes_Node; [done|]. right. eauto. }
  destruct L as [|L].
  - destruct (ch j) as [|c' h' k' v' ch']; [simpl; lia|].
    assert (h' ∈ hashes childCount (Node c' h' k' v' ch')) as Hin.
    { apply elem_of_hashes_Node; [done|]. by left. }
    destruct (Hs h' Hin) as [Hne _]. destruct Hne.
    destruct (Hh h' (Hsub _ Hin)) as [Hlt1 Hm1].
    destruct (Hh h) as [Hlt2 Hm2].
    { apply elem_of_hashes_Node; [done|]. by left. }
    assert (2 ^ 64 ≤ 2 ^ s)%N by (apply N.pow_le_mono_r; lia).
    rewrite N.mod_small in Hm1, Hm2 by lia. congruence.
  - apply (IH j L (s + shiftSize)%N (r + 2 ^ s * N.of_nat j)%N); [done| |lia].
    intros h' Hh'. destruct (Hs h' Hh') as [_ Hslot].
    destruct (Hh h' (Hsub _ Hh')) as [Hlt Hm]. split; [done|].
    rewrite N.pow_add_r, N.Div0.mod_mul_r, Hm. do 2 f_equal.
    unfold slot in Hslot. rewrite N.shiftr_div_pow2, Hcc in Hslot. lia.
Qed.

Lemma hashed_digest t h :
  hashed childCount hashKey t → h ∈ hashes childCount t → ∃ k, h = hashKey k.
Proof.
  intros Hh (k & v & Hin)%elem_of_hashes. exists k. by apply (Hh _ _ v).
Qed.

Lemma Reachable_depth t (L : nat) :
  Reachable childCount shiftSize hashKey t →
  N.of_nat childCount = (2 ^ shiftSize)%N →
  (∀ k, hashKey k < 2 ^ 64)%N →
  (64 ≤ N.of_nat L * shiftSize)%N →
  (depth t ≤ S L)%nat.
Proof.
  intros (Hr & Hh & _)%Reachable_inv Hcc Hlt HL; [|done].
  apply (routed_depth L 0 0); [done..| |lia].
  intros h (k & v & Hin)%elem_of_hashes. rewrite (Hh _ _ _ Hin).
  split; [done|]. by rewrite N.pow_0_r, N.mod_1_r.
Qed.

(** X18: when the branching factor is [2 ^ shiftSize] and digests are
    64-bit numbers, a reachable map has at most [L + 1] nodes on a path,
    for [L] the number of levels that consume the 64 bits of a digest. *)
Theorem depth_bound t (L : nat) :
  Reachable childCount shiftSize hashKey t →
  N.of_nat childCount = (2 ^ shiftSize)%N →
  (∀ k, hashKey k < 2 ^ 64)%N →
  (64 ≤ N.of_nat L * shiftSize)%N →
  (depth t ≤ S L)%nat.
Proof.
  intros (Hr & Hh & _)%Reachable_inv Hcc Hlt HL; [|done].
  apply (routed_depth L 0 0); [done..| |lia].
  intros h [k Hk]%hashed_digest; [|done..].
  rewrite Hk. split; [apply Hlt|]. by rewrite N.pow_0_r, N.mod_1_r.
Qed.

(** X19: when the branching factor is [2 ^ shiftSize], digests are
    64-bit numbers and [L] levels consume the 64 bits of a digest, a
    budget of [L + 2] nested calls or more is enough on every reachable
    map: at an address that represents the map the functions on the
    store return what the functions on the tree return, [Lookup], [Size]
    and [Keys] the same result, [Set] and [Delete] the same panic or the
    root of a representation of the same tree, the old root still
    representing the old tree. *)
Theorem bounded_recursion t h l (L fuel : nat) :
  Reachable childCount shiftSize hashKey t →
  represents h l t →
  N.of_nat childCount = (2 ^ shiftSize)%N →
  (∀ k, hashKey k < 2 ^ 64)%N →
  (64 ≤ N.of_nat L * shiftSize)%N →
  (S L < fuel)%nat →
  (∀ k, Heap.Lookup childCount shiftSize hashKey fuel l k h =
        Some (Ok (Lookup childCount shiftSize hashKey t k))) ∧
  Heap.Size l h = Some (Ok (Size t)) ∧
  Heap.Keys fuel l h = Some (Keys childCount t) ∧
  (∀ k v,
     match Set_ childCount shiftSize hashKey t k v with
     | Ok t' =>
         ∃ l' h',
           Heap.Set_ childCount shiftSize hashKey fuel l k v h =
             Some (Ok (l', h')) ∧
           represents h' l' t' ∧ represents h' l t
     | Panic msg =>
         Heap.Set_ childCount shiftSize hashKey fuel l k v h =
           Some (Panic msg)
     end) ∧
  (∀ k,
     match Delete childCount shiftSize hashKey t k with
     | Ok t' =>
         ∃ l' h',
           Heap.Delete childCount shiftSize hashKey fuel l k h =
             Some (Ok (l', h')) ∧
           represents h' l' t' ∧ represents h' l t
     | Panic msg =>
         Heap.Delete childCount shiftSize hashKey fuel l k h =
           Some (Panic msg)
     end).
Proof.
  intros Hreach Hrep Hcc Hlt HL Hfuel.
  pose proof (Reachable_depth t L Hreach Hcc Hlt HL) as Hd.
  assert (depth t < fuel)%nat as Hdf by lia.
  destruct (reads_refine h l t fuel Hrep Hdf) as (Hlookup & Hsize & Hkeys).
  split; [done|]. split; [done|]. split; [done|]. split.
  - intros k v. by apply Set_refines.
  - intros k. by apply Delete_refines.
Qed.

(** ** A call of [Delete] that finds nothing *)

Lemma deleteLowLevel_lookup t p x v :
  lookupLowLevel childCount shiftSize t p x = (v, false) →
  deleteLowLevel childCount shiftSize t p x = Ok (t, false).
Proof.
  revert p. induction t as [|c x0 k0 v0 ch IH]; intros p; simpl; [done|].
  case_decide; [|done]. intros Hl. by rewrite (IH _ _ Hl).
Qed.

(** X20: when [Lookup] of a key finds nothing at an address that
    represents a tree, [Delete] of that key returns the address it was
    called on and leaves the store as it was: it copies no node. *)
Theorem Delete_not_found h l t k v fuel :
  represents h l t → (depth t < fuel)%nat →
  Heap.Lookup childCount shiftSize hashKey fuel l k h = Some (Ok (v, false)) →
  Heap.Delete childCount shiftSize hashKey fuel l k h = Some (Ok (l, h)).
Proof.
  intros Hrep Hd Hlookup.
  destruct (reads_refine h l t fuel Hrep Hd) as (Hl & _).
  rewrite Hl in Hlookup. injection Hlookup as Hlookup.
  apply deleteLowLevel_lookup in Hlookup. destruct Hrep as [Hs Hr].
  pose proof (deleteLowLevel_refines fuel h l t (hashKey k) (hashKey k)
                Hs Hr Hd) as Href.
  rewrite Hlookup in Href. destruct Href as (l' & h' & Hrun & _).
  apply (Heap.deleteLowLevel_not_found _ _ hashKey) in Hrun as Heq. destruct Heq as [-> ->].
  unfold Heap.Delete. by rewrite (bindM_run _ _ _ _ _ Hrun).
Qed.

(** ** Checking a representation by computation *)

Lemma reprb_repr h l t :
  reprb h l t = true → repr (fun y => y < length h)%nat h l t.
Proof.
  revert l. induction t as [|c x k v ch IH]; intros l; simpl.
  - by intros ?%bool_decide_eq_true.
  - intros [Hl Hn]%andb_prop. apply bool_decide_eq_true in Hl.
    destruct (h !! l) as [n|] eqn:Hhl; [|done].
    apply andb_prop in Hn as [[Hn Hlen]%andb_prop Hall].
    apply bool_decide_eq_true in Hn, Hlen.
    split; [done|]. split; [by eapply lookup_lt_Some|].
    exists (Heap.node_children n). split; [by rewrite <-Hn|].
    split; [done|]. intros j cj Hj. apply IH.
    rewrite forallb_forall in Hall. apply (Hall (j, cj)).
    apply list_elem_of_In, list_elem_of_lookup. exists j.
    by rewrite list_lookup_imap, Hj.
Qed.

Lemma represents_check h l t :
  bool_decide (h !! Heap.nilMap = Some sentinel) && reprb h l t = true →
  represents h l t.
Proof.
  intros [Hs Hr]%andb_prop. apply bool_decide_eq_true in Hs.
  split; [done|]. by apply reprb_repr.
Qed.

(** ** What [Set] allocates *)

Ltac run_inv :=
  repeat match goal with
  | H : Heap.bindM _ _ _ = Some (Ok _) |- _ =>
      let a := fresh "a" in let h := fresh "h" in let Ha := fresh "Hrun" in
      apply Heap.bindM_inv in H as (a & h & Ha & H)
  | H : Heap.read _ _ = Some (Ok _) |- _ =>
      apply (Heap.read_inv hashKey) in H as [-> H]
  | H : Heap.retM _ _ = Some (Ok _) |- _ =>
      apply Heap.retM_inv in H as [? ?]; simplify_eq
  | H : Heap.load _ _ = Some (Ok _) |- _ => apply Heap.load_inv in H
  | H : Heap.panic _ _ = Some (Ok _) |- _ => discriminate H
  | H : Heap.out_of_fuel _ = Some _ |- _ => discriminate H
  end.

Ltac store_step :=
  match goal with
  | Hk : Heap.kept ?h0 ?h, H : Heap.clone _ ?h = Some (Ok _) |- _ =>
      apply (Heap.clone_kept hashKey h0 h _ _ _ Hk) in H as (? & ? & ?)
  | Hk : Heap.kept ?h0 ?h, H : Heap.set_count _ _ ?h = Some (Ok _) |- _ =>
      apply (Heap.set_count_kept hashKey h0 h _ _ _ _ Hk) in H as [? ?];
        [|lia]
  | Hk : Heap.kept ?h0 ?h, H : Heap.set_hash _ _ ?h = Some (Ok _) |- _ =>
      apply (Heap.set_hash_kept hashKey h0 h _ _ _ _ Hk) in H as [? ?];
        [|lia]
  | Hk : Heap.kept ?h0 ?h, H : Heap.set_key _ _ ?h = Some (Ok _) |- _ =>
      apply (Heap.set_key_kept hashKey h0 h _ _ _ _ Hk) in H as [? ?];
        [|lia]
  | Hk : Heap.kept ?h0 ?h, H : Heap.set_value _ _ ?h = Some (Ok _) |- _ =>
      apply (Heap.set_value_kept hashKey h0 h _ _ _ _ Hk) in H as [? ?];
        [|lia]
  | Hk : Heap.kept ?h0 ?h, H : Heap.set_child _ _ _ ?h = Some (Ok _) |- _ =>
      apply (Heap.set_child_kept hashKey h0 h _ _ _ _ _ Hk) in H as [? ?];
        [|lia|lia]
  | Hk : Heap.kept ?h0 ?h,
    H : Heap.recalculateCount _ ?h = Some (Ok _) |- _ =>
      apply (Heap.recalculateCount_kept hashKey h0 h _ _ _ Hk) in H
        as [? ?]; [|lia]
  end.

Lemma child_inv h l n i c :
  h !! l = Some n → Heap.child l i h = Some (Ok c) →
  Heap.node_children n !! i = Some c.
Proof.
  intros Hl Hrun. unfold Heap.child in Hrun.
  apply Heap.bindR_inv in Hrun as (n' & Hn' & Hrun).
  apply Heap.load_inv in Hn'. assert (n' = n) as -> by congruence.
  destruct (Heap.node_children n !! i) as [c'|]; [|done].
  apply Heap.retR_inv in Hrun. by subst.
Qed.

Lemma setLowLevel_allocs fuel b h l t p x k v m h' :
  Heap.closed h → (b ≤ length h)%nat →
  repr (fun y => y < b)%nat h l t →
  Heap.setLowLevel childCount shiftSize fuel l p x k v h = Some (Ok (m, h')) →
  length h' = (length h + visits childCount shiftSize t p x)%nat.
Proof.
  revert b h l t p m h'.
  induction fuel as [|fuel IH]; intros b h l t p m h' Hc Hb Hr Hrun;
    simpl in Hrun; [run_inv|].
  pose proof (Heap.kept_refl _ Hc) as Hk.
  rewrite (IsNil_repr _ _ _ _ Hr) in Hrun.
  destruct t as [|c x0 k0 v0 ch]; simpl in Hrun.
  { run_inv. repeat store_step. simpl. lia. }
  destruct Hr as (Hl0 & Hlb & cs & Hl & Hcs & Hch).
  run_inv.
  match goal with
  | H : h !! l = Some ?a |- _ =>
      is_var a; assert (a = Heap.Build_node c x0 k0 v0 cs) as -> by congruence
  end.
  simpl in Hrun. simpl. case_decide as Hx; [|case_decide as Hkey]; run_inv.
  - store_step.
    match goal with
    | H : Heap.child _ _ ?h1 = Some (Ok ?c0),
      Hk1 : Heap.kept h ?h1,
      Hrec : Heap.setLowLevel _ _ _ ?c0 _ _ _ _ ?h1 = Some (Ok (_, ?h2)) |- _ =>
        pose proof (child_inv h1 l _ _ _
                      (prefix_lookup_Some _ _ _ _ Hl (proj1 Hk1)) H) as Hcj;
        apply Heap.child_valid in H; [|by destruct Hk1];
        pose proof (Heap.setLowLevel_kept _ _ hashKey _ _ _ _ _ _ _ _ _ _
                      Hk1 H Hrec) as (Hk2 & Hlen2 & Hlt2);
        apply (IH b h1 c0 (ch (slot childCount p))) in Hrec;
          [|by destruct Hk1|lia
           |eapply repr_prefix; [exact (proj1 Hk1)| |by apply Hch]; simpl; lia]
    end.
    repeat store_step. lia.
  - repeat store_step. lia.
Qed.

Lemma visits_depth t p x :
  (visits childCount shiftSize t p x ≤ S (depth t))%nat.
Proof.
  revert p. induction t as [|c x0 k v ch IH]; intros p; [simpl; lia|].
  cbn [visits]. case_decide; [|lia].
  pose proof (depth_child c x0 k v ch (slot childCount p)
                ltac:(by apply slot_lt)).
  specialize (IH (slot childCount p) (N.shiftr p shiftSize)). lia.
Qed.

(** X21: on a closed store, when [Set] returns at an address that
    represents a tree, it has allocated one node for each node on the
    path of the key's digest in the tree, down to the node that has the
    digest or to the sentinel that ends the path, and no other node: at
    most one more than the depth of the tree. *)
Theorem Set_allocates fuel h l t k v l' h' :
  Heap.closed h → represents h l t →
  Heap.Set_ childCount shiftSize hashKey fuel l k v h = Some (Ok (l', h')) →
  length h' =
    (length h + visits childCount shiftSize t (hashKey k) (hashKey k))%nat ∧
  (length h' ≤ length h + S (depth t))%nat.
Proof.
  intros Hc [_ Hr] Hrun.
  apply (setLowLevel_allocs _ (length h) _ _ t) in Hrun; [|done..].
  split; [done|]. pose proof (visits_depth t (hashKey k) (hashKey k)). lia.
Qed.

(** ** The remaining functions on the store *)

Lemma subtreeCount_loop_run h cs (g : nat → bool) start acc :
  (∀ j cj, cs !! j = Some cj → Heap.IsNil cj = g (start + j)%nat) →
  Heap.foldR (fun count t =>
                Heap.retR (if negb (Heap.IsNil t) then int_add count 1
                           else count)) cs acc h =
  Some (Ok (fold_left (fun count j =>
                         if negb (g j) then int_add count 1 else count)
              (seq start (length cs)) acc)).
Proof.
  revert start acc. induction cs as [|c cs IH]; intros start acc Hg; [done|].
  simpl. rewrite (bindR_run _ _ _ _ eq_refl).
  pose proof (Hg 0%nat c eq_refl) as H0. rewrite Nat.add_0_r in H0.
  rewrite H0. apply IH. intros j cj Hj.
  replace (S start + j)%nat with (start + S j)%nat by lia.
  by apply (Hg (S j)).
Qed.

Lemma write_entries_run fuel A h l t ks buf :
  repr A h l t → (depth t < fuel)%nat →
  Heap.foldR (fun buf key =>
                Heap.bindR (Heap.Lookup childCount shiftSize hashKey fuel l key)
                  (fun '(val, _) => Heap.retR (write_entry buf key val)))
             ks buf h =
  Some (Ok (fold_left
              (fun buf key =>
                 let '(val, _) := Lookup childCount shiftSize hashKey t key in
                 write_entry buf key val) ks buf)).
Proof.
  intros Hr Hd. revert buf. induction ks as [|key ks IH]; intros buf; [done|].
  assert (Heap.Lookup childCount shiftSize hashKey fuel l key h =
          Some (Ok (Lookup childCount shiftSize hashKey t key))) as Hlk
    by (by eapply lookupLowLevel_refines).
  simpl.
  rewrite (bindR_run _ _ _
             (write_entry buf key (Lookup childCount shiftSize hashKey t key).1)).
  - rewrite IH. by destruct (Lookup childCount shiftSize hashKey t key).
  - rewrite (bindR_run _ _ _ _ Hlk).
    by destruct (Lookup childCount shiftSize hashKey t key).
Qed.

(** X22: at an address that represents a tree, with a budget above the
    depth of the tree, [String] and [subtreeCount] on the store return
    what they return on the tree. *)
Theorem String_refines h l t fuel :
  represents h l t → (depth t < fuel)%nat →
  Heap.String_ childCount shiftSize hashKey fuel l h =
    Some (String_ childCount shiftSize hashKey t) ∧
  Heap.subtreeCount l h = Some (Ok (subtreeCount childCount t)).
Proof.
  intros [Hs Hr] Hd. split.
  - unfold Heap.String_, String_, Heap.bindR at 1.
    rewrite (Keys_refines _ _ _ _ _ Hs Hr Hd).
    destruct (Keys childCount t) as [ks|msg]; [|done].
    cbn [mbind result_bind].
    by rewrite (bindR_run _ _ _ _ (write_entries_run _ _ _ _ _ ks "{" Hr Hd)).
  - unfold Heap.subtreeCount, subtreeCount.
    destruct t as [|c x k v ch].
    + simpl in Hr. subst l.
      rewrite (bindR_run _ _ _ _ (load_run _ _ _ Hs)). simpl.
      rewrite (subtreeCount_loop_run h _ (fun _ => true) 0).
      * by rewrite length_replicate.
      * by intros j cj [-> _]%lookup_replicate.
    + destruct Hr as (_ & _ & cs & Hl & Hcs & Hch).
      rewrite (bindR_run _ _ _ _ (load_run _ _ _ Hl)). simpl.
      rewrite (subtreeCount_loop_run h cs (fun j => IsNil (ch j)) 0).
      * by rewrite Hcs.
      * intros j cj Hj. simpl. by eapply IsNil_repr, Hch.
Qed.

(** ** Programs *)

Lemma represents_valid h l t : represents h l t → (l < length h)%nat.
Proof.
  intros [Hs Hr]. destruct t; simpl in Hr.
  - subst l. by apply with_sentinel_length.
  - by destruct Hr as (_ & ? & _).
Qed.

Lemma run_refines ops t h l (L fuel : nat) :
  N.of_nat childCount = (2 ^ shiftSize)%N →
  (∀ k, hashKey k < 2 ^ 64)%N →
  (64 ≤ N.of_nat L * shiftSize)%N →
  (S L < fuel)%nat →
  Reachable childCount shiftSize hashKey t →
  Heap.closed h → represents h l t →
  match run childCount shiftSize hashKey ops t with
  | Ok t' =>
      ∃ l' h',
        Heap.run childCount shiftSize hashKey fuel ops l h =
          Some (Ok (l', h')) ∧
        h `prefix_of` h' ∧ Heap.closed h' ∧ represents h' l' t'
  | Panic msg =>
      Heap.run childCount shiftSize hashKey fuel ops l h = Some (Panic msg)
  end.
Proof.
  intros Hcc Hlt HL Hfuel. revert t h l.
  induction ops as [|o ops IH]; intros t h l Hreach Hc Hrep.
  { simpl. by exists l, h. }
  pose proof (Reachable_depth t L Hreach Hcc Hlt HL) as Hd.
  pose proof (represents_valid _ _ _ Hrep) as Hl.
  cbn [run Heap.run].
  assert (match apply_op childCount shiftSize hashKey t o with
          | Ok t1 =>
              ∃ l1 h1,
                Heap.apply_op childCount shiftSize hashKey fuel l o h =
                  Some (Ok (l1, h1)) ∧
                Reachable childCount shiftSize hashKey t1 ∧
                h `prefix_of` h1 ∧ Heap.closed h1 ∧ represents h1 l1 t1
          | Panic msg =>
              Heap.apply_op childCount shiftSize hashKey fuel l o h =
                Some (Panic msg)
          end) as Hstep.
  { destruct o as [k v|k]; simpl.
    - pose proof (Set_refines h l t k v fuel Hrep ltac:(lia)) as Href.
      destruct (Set_ _ _ _ t k v) as [t1|msg] eqn:Hset; [|done].
      destruct Href as (l1 & h1 & Hrun & Hrep1 & _).
      exists l1, h1. split; [done|].
      split; [by eapply Reachable_set|].
      by apply Heap.Set_kept in Hrun as (? & ? & _).
    - pose proof (Delete_refines h l t k fuel Hrep ltac:(lia)) as Href.
      destruct (Delete _ _ _ t k) as [t1|msg] eqn:Hdel; [|done].
      destruct Href as (l1 & h1 & Hrun & Hrep1 & _).
      exists l1, h1. split; [done|].
      split; [by eapply Reachable_delete|].
      by apply Heap.Delete_kept in Hrun as (? & ? & _). }
  destruct (apply_op _ _ _ t o) as [t1|msg]; cbn [mbind result_bind];
    [|by rewrite (bindM_panic _ _ _ msg)].
  destruct Hstep as (l1 & h1 & Hrun & Hreach1 & Hp1 & Hc1 & Hrep1).
  rewrite (bindM_run _ _ _ _ _ Hrun).
  specialize (IH t1 h1 l1 Hreach1 Hc1 Hrep1).
  destruct (run _ _ _ ops t1) as [t'|msg]; [|done].
  destruct IH as (l' & h' & Hrun' & Hp' & Hc' & Hrep').
  exists l', h'. split; [done|]. split; [by trans h1|done].
Qed.

(** X23: when the branching factor is [2 ^ shiftSize], digests are
    64-bit numbers and [L] levels consume the 64 bits of a digest, every
    program of calls of [Set] and [Delete] from the empty map, run on the
    store [init] leaves with a budget of [L + 2] nested calls or more,
    panics as it does on trees, with the same message, or returns the
    root of a representation of the tree it returns on trees, in a store
    where every pointer is the address of a node. *)
Theorem program_refines ops (L fuel : nat) :
  N.of_nat childCount = (2 ^ shiftSize)%N →
  (∀ k, hashKey k < 2 ^ 64)%N →
  (64 ≤ N.of_nat L * shiftSize)%N →
  (S L < fuel)%nat →
  match run childCount shiftSize hashKey ops NewStringMap with
  | Ok t =>
      ∃ l h,
        Heap.run childCount shiftSize hashKey fuel ops Heap.NewStringMap
          (Heap.init childCount) = Some (Ok (l, h)) ∧
        Heap.closed h ∧ represents h l t
  | Panic msg =>
      Heap.run childCount shiftSize hashKey fuel ops Heap.NewStringMap
        (Heap.init childCount) = Some (Panic msg)
  end.
Proof.
  intros Hcc Hlt HL Hfuel.
  pose proof (run_refines ops NewStringMap (Heap.init childCount)
                Heap.NewStringMap L fuel Hcc Hlt HL Hfuel
                (Reachable_new _ _ _) (Heap.closed_init _) represents_init)
    as Href.
  destruct (run _ _ _ ops NewStringMap) as [t|msg]; [|done].
  destruct Href as (l & h & Hrun & _ & Hc & Hrep). by exists l, h.
Qed.

End Refinement.

(** * A sample instantiation

    Sample constants with [childCount = 2 ^ shiftSize] (8 and 3) and a
    polynomial digest of the bytes of a key, under which ["Aa"] and
    ["BB"] collide. *)

Fixpoint poly_digest (key : string) (h : N) : N :=
  match key with
  | EmptyString => h
  | String c key =>
      poly_digest key ((h * 31 + N.of_nat (Ascii.nat_of_ascii c)) mod 2 ^ 64)%N
  end.

Definition sample_digest (key : string) : N := poly_digest key 0%N.

Definition sample_bindings : list (string * string) :=
  [("a", "1"); ("i", "9"); ("b", "2"); ("q", "17"); ("Aa", "x")].

(** The map after [Set] of the sample bindings from the empty map. *)
Definition sample_map : StringMap :=
  match set_all 8 3 sample_digest sample_bindings NewStringMap with
  | Ok m => m
  | Panic _ => nilMap
  end.

(** The sample map after [Set] of a new key, after [Set] of the key ["a"]
    it holds, and built from the sample bindings in the reverse order. *)
Definition sample_map_set : StringMap :=
  match Set_ 8 3 sample_digest sample_map "hello" "world" with
  | Ok m => m
  | Panic _ => nilMap
  end.

Definition sample_map_update : StringMap :=
  match Set_ 8 3 sample_digest sample_map "a" "one" with
  | Ok m => m
  | Panic _ => nilMap
  end.

Definition sample_map_reverse : StringMap :=
  match set_all 8 3 sample_digest (reverse sample_bindings) NewStringMap with
  | Ok m => m
  | Panic _ => nilMap
  end.

Definition sample_map_set_set : StringMap :=
  match Set_ 8 3 sample_digest sample_map_set "x" "y" with
  | Ok m => m
  | Panic _ => nilMap
  end.

(** What [deleteLeftmost] returns on the sample map. *)
Definition sample_leftmost : StringMap * StringMap :=
  match deleteLeftmost 8 sample_map with
  | Ok p => p
  | Panic _ => (nilMap, nilMap)
  end.

Definition sample_map_delete : StringMap :=
  match Delete 8 3 sample_digest sample_map "a" with
  | Ok m => m
  | Panic _ => nilMap
  end.

(** Two programs: the first scenario of the specification, and one that
    ends in a collision. *)
Definition sample_program : list op :=
  [op_set "a" "1"; op_set "b" "2"; op_delete "a"].

Definition sample_program_collision : list op :=
  [op_set "Aa" "1"; op_delete "zz"; op_set "BB" "2"; op_set "c" "3"].

Lemma sample_map_Reachable : Reachable 8 3 sample_digest sample_map.
Proof.
  apply (set_all_Reachable 8 3 sample_digest sample_bindings NewStringMap).
  - apply Reachable_new.
  - by vm_compute.
Qed.

(** The scenarios of the specification, computed. *)
Example scenario_set_set_delete :
  (m1 ← Set_ 8 3 sample_digest NewStringMap "a" "1";
   m2 ← Set_ 8 3 sample_digest m1 "b" "2";
   m3 ← Delete 8 3 sample_digest m2 "a";
   Ok (Size NewStringMap, Lookup 8 3 sample_digest m1 "a",
       Size m2, Lookup 8 3 sample_digest m2 "b",
       Size m3, Lookup 8 3 sample_digest m3 "a",
       Lookup 8 3 sample_digest m3 "b")) =
  Ok (0, ("1", true), 2, ("2", true), 1, ("", false), ("2", true)).
Proof. by vm_compute. Qed.

Example scenario_delete_absent :
  (m1 ← Set_ 8 3 sample_digest NewStringMap "x" "y";
   m2 ← Delete 8 3 sample_digest m1 "z";
   Ok (Size m1, Size m2, Lookup 8 3 sample_digest m2 "x")) =
  Ok (1, 1, ("y", true)).
Proof. by vm_compute. Qed.

Example scenario_update :
  (m1 ← Set_ 8 3 sample_digest NewStringMap "k" "v1";
   m2 ← Set_ 8 3 sample_digest m1 "k" "v2";
   Ok (Size m2, Lookup 8 3 sample_digest m2 "k",
       Lookup 8 3 sample_digest m1 "k")) =
  Ok (1, ("v2", true), ("v1", true)).
Proof. by vm_compute. Qed.

Example scenario_collision :
  (m1 ← Set_ 8 3 sample_digest NewStringMap "Aa" "1";
   Set_ 8 3 sample_digest m1 "BB" "2") =
  Panic (collision_message "Aa" "BB").
Proof. by vm_compute. Qed.

Lemma sample_map_keys : keys 8 sample_map = ["a"; "Aa"; "i"; "q"; "b"].
Proof. by vm_compute. Qed.

Lemma sample_map_fits : Z.of_nat (card 8 sample_map) ≤ max_int.
Proof. by vm_compute. Qed.

Lemma sample_map_NoCollision k :
  forallb (fun k1 =>
    forallb (fun k2 =>
      implb (sample_digest k1 =? sample_digest k2)%N (bool_decide (k1 = k2)))
      (k :: ["a"; "Aa"; "i"; "q"; "b"])) (k :: ["a"; "Aa"; "i"; "q"; "b"])
  = true →
  NoCollision sample_digest (k :: keys 8 sample_map).
Proof. rewrite sample_map_keys. apply NoCollision_check. Qed.

Lemma sample_map_NoCollision_2 k k' :
  forallb (fun k1 =>
    forallb (fun k2 =>
      implb (sample_digest k1 =? sample_digest k2)%N (bool_decide (k1 = k2)))
      (k :: k' :: ["a"; "Aa"; "i"; "q"; "b"]))
    (k :: k' :: ["a"; "Aa"; "i"; "q"; "b"])
  = true →
  NoCollision sample_digest (k :: k' :: keys 8 sample_map).
Proof. rewrite sample_map_keys. apply NoCollision_check. Qed.

Lemma Lookup_Set_witness :
  ∃ m', Set_ 8 3 sample_digest sample_map "hello" "world" = Ok m' ∧
        Lookup 8 3 sample_digest m' "hello" = ("world", true).
Proof.
  apply (Lookup_Set 8 3 sample_digest).
  - lia.
  - apply sample_map_Reachable.
  - apply sample_map_NoCollision. by vm_compute.
Defined.

Lemma Size_Set_witness :
  (∃ m', Set_ 8 3 sample_digest sample_map "hello" "world" = Ok m' ∧
         Size m' = Size sample_map + 1) ∧
  (∃ m', Set_ 8 3 sample_digest sample_map "a" "one" = Ok m' ∧
         Size m' = Size sample_map) ∧
  (∃ m, set_all 8 3 sample_digest sample_bindings NewStringMap = Ok m ∧
        Size m = 5).
Proof.
  destruct (Size_Set 8 3 sample_digest ltac:(lia)) as [Hone Hall].
  split; [|split].
  - destruct (Hone sample_map "hello" "world") as (m' & Hset & Hfresh & _).
    + apply sample_map_Reachable.
    + apply sample_map_NoCollision. by vm_compute.
    + by vm_compute.
    + exists m'. split; [done|]. apply Hfresh.
      rewrite sample_map_keys. apply (bool_decide_unpack _). by vm_compute.
  - destruct (Hone sample_map "a" "one") as (m' & Hset & _ & Hold).
    + apply sample_map_Reachable.
    + apply sample_map_NoCollision. by vm_compute.
    + by vm_compute.
    + exists m'. split; [done|]. apply Hold.
      rewrite sample_map_keys. by left.
  - apply (Hall sample_bindings).
    + apply (bool_decide_unpack _). by vm_compute.
    + apply NoCollision_check. by vm_compute.
    + by vm_compute.
Defined.

Lemma Delete_present_witness :
  ∃ m', Delete 8 3 sample_digest sample_map "a" = Ok m' ∧
        Size m' = Size sample_map - 1 ∧
        Lookup 8 3 sample_digest m' "a" = ("", false).
Proof.
  apply (Delete_present 8 3 sample_digest).
  - lia.
  - apply sample_map_Reachable.
  - apply sample_map_fits.
  - rewrite sample_map_keys. by left.
Defined.

Lemma Delete_absent_witness :
  ∃ m', Delete 8 3 sample_digest sample_map "zz" = Ok m' ∧
        Size m' = Size sample_map ∧
        (∀ k', Lookup 8 3 sample_digest m' k' =
               Lookup 8 3 sample_digest sample_map k') ∧
        bindings 8 m' ≡ₚ bindings 8 sample_map.
Proof.
  apply (Delete_absent 8 3 sample_digest).
  - lia.
  - apply sample_map_Reachable.
  - apply sample_map_NoCollision. by vm_compute.
  - rewrite sample_map_keys. apply (bool_decide_unpack _). by vm_compute.
Defined.

Lemma count_invariant_witness :
  count nilMap = 0 ∧ counted 8 sample_map ∧
  Size sample_map = Z.of_nat (length (bindings 8 sample_map)).
Proof.
  apply (count_invariant 8 3 sample_digest).
  - lia.
  - apply sample_map_Reachable.
  - apply sample_map_fits.
Defined.

Lemma Keys_ForEach_witness :
  ∃ ks calls,
    Keys 8 sample_map = Ok ks ∧ Z.of_nat (length ks) = Size sample_map ∧
    NoDup ks ∧
    (∀ (St : Type) (f : string → string → St → result St) s,
       ForEach 8 sample_map f s = visit_all f calls s) ∧
    ForEach 8 sample_map record [] = Ok calls ∧ calls.*1 = ks ∧
    (∀ k v, (k, v) ∈ calls →
            Lookup 8 3 sample_digest sample_map k = (v, true)) ∧
    (∀ k v, NoCollision sample_digest (k :: keys 8 sample_map) →
            Lookup 8 3 sample_digest sample_map k = (v, true) →
            (k, v) ∈ calls).
Proof.
  apply (Keys_ForEach 8 3 sample_digest).
  - lia.
  - apply sample_map_Reachable.
  - apply sample_map_fits.
Defined.

Lemma Set_collision_witness :
  Set_ 8 3 sample_digest sample_map "BB" "y" =
  Panic (collision_message "Aa" "BB").
Proof.
  apply (Set_collision 8 3 sample_digest).
  - lia.
  - apply sample_map_Reachable.
  - rewrite sample_map_keys. apply (bool_decide_unpack _). by vm_compute.
  - done.
  - by vm_compute.
Defined.

Lemma deleteLeftmost_total_witness :
  (∃ j, (j < 8)%nat ∧ children sample_map j ≠ nilMap) ∧
  ∃ deleted rest, deleteLeftmost 8 sample_map = Ok (deleted, rest).
Proof.
  destruct (deleteLeftmost_total 8 ltac:(lia)) as [_ Hnode].
  destruct (Hnode sample_map) as [Hchild Hruns].
  - apply (Reachable_counted 8 3 sample_digest).
    + lia.
    + apply sample_map_Reachable.
    + apply sample_map_fits.
  - by vm_compute.
  - split; [|done]. apply Hchild. by vm_compute.
Defined.

Lemma Lookup_Delete_other_witness :
  ∃ m', Delete 8 3 sample_digest sample_map "a" = Ok m' ∧
        Lookup 8 3 sample_digest m' "i" =
        Lookup 8 3 sample_digest sample_map "i".
Proof.
  apply (Lookup_Delete_other 8 3 sample_digest).
  - lia.
  - apply sample_map_Reachable.
  - apply sample_map_fits.
  - apply (sample_map_NoCollision_2 "a" "i"). by vm_compute.
  - rewrite sample_map_keys. by left.
  - done.
Defined.

(** The sample bindings set one after the other in the store, from the
    store [init] leaves: the root of the map and the store reached. *)
Definition run_from {A} (c : Heap.M A) (default : A) (h : list Heap.node)
    : A * list Heap.node :=
  match c h with
  | Some (Ok (a, h')) => (a, h')
  | _ => (default, h)
  end.

Definition sample_store : nat * list Heap.node :=
  foldl (fun '(m, h) '(k, v) =>
           run_from (Heap.Set_ 8 3 sample_digest 64 m k v) m h)
        (Heap.NewStringMap, Heap.init 8) sample_bindings.

Definition sample_store_set : nat * list Heap.node :=
  run_from (Heap.Set_ 8 3 sample_digest 4 sample_store.1 "hello" "world")
    sample_store.1 sample_store.2.

Definition sample_store_delete : nat * list Heap.node :=
  run_from (Heap.Delete 8 3 sample_digest 4 sample_store.1 "a")
    sample_store.1 sample_store.2.

(** The first scenario in the store: the old roots still answer as
    before after the later calls. *)
Example scenario_store :
  let run := fun c h => run_from c 0%nat h in
  let '(m1, h1) :=
    run (Heap.Set_ 8 3 sample_digest 4 Heap.NewStringMap "a" "1")
      (Heap.init 8) in
  let '(m2, h2) := run (Heap.Set_ 8 3 sample_digest 4 m1 "b" "2") h1 in
  let '(m3, h3) := run (Heap.Delete 8 3 sample_digest 4 m2 "a") h2 in
  (Heap.Lookup 8 3 sample_digest 4 m1 "a" h3,
   Heap.Size m2 h3, Heap.Keys 4 m2 h3,
   Heap.Size m3 h3, Heap.Lookup 8 3 sample_digest 4 m3 "a" h3,
   Heap.Lookup 8 3 sample_digest 4 m3 "b" h3) =
  (Some (Ok ("1", true)), Some (Ok 2), Some (Ok ["a"; "b"]),
   Some (Ok 1), Some (Ok ("", false)), Some (Ok ("2", true))).
Proof. by vm_compute. Qed.

Lemma persistence_witness :
  ((∀ l n, sample_store.2 !! l = Some n → sample_store_set.2 !! l = Some n) ∧
   (∀ fuel' k',
      Heap.Lookup 8 3 sample_digest fuel' sample_store.1 k' sample_store_set.2 =
      Heap.Lookup 8 3 sample_digest fuel' sample_store.1 k' sample_store.2) ∧
   Heap.Size sample_store.1 sample_store_set.2 =
   Heap.Size sample_store.1 sample_store.2 ∧
   (∀ fuel',
      Heap.Keys fuel' sample_store.1 sample_store_set.2 =
      Heap.Keys fuel' sample_store.1 sample_store.2) ∧
   (length sample_store_set.2 ≤ length sample_store.2 + 4)%nat) ∧
  ((∀ l n,
      sample_store.2 !! l = Some n → sample_store_delete.2 !! l = Some n) ∧
   (∀ fuel' k',
      Heap.Lookup 8 3 sample_digest fuel' sample_store.1 k'
        sample_store_delete.2 =
      Heap.Lookup 8 3 sample_digest fuel' sample_store.1 k' sample_store.2) ∧
   Heap.Size sample_store.1 sample_store_delete.2 =
   Heap.Size sample_store.1 sample_store.2 ∧
   (∀ fuel',
      Heap.Keys fuel' sample_store.1 sample_store_delete.2 =
      Heap.Keys fuel' sample_store.1 sample_store.2) ∧
   (length sample_store_delete.2 ≤ length sample_store.2 + 4)%nat).
Proof.
  split.
  - apply (Heap.persistence 8 3 sample_digest 4 sample_store.2
             sample_store.1 "hello" "world" sample_store_set.1).
    + apply (bool_decide_unpack _). by vm_compute.
    + apply (bool_decide_unpack _). by vm_compute.
    + left. by vm_compute.
  - apply (Heap.persistence 8 3 sample_digest 4 sample_store.2
             sample_store.1 "a" "" sample_store_delete.1).
    + apply (bool_decide_unpack _). by vm_compute.
    + apply (bool_decide_unpack _). by vm_compute.
    + right. by vm_compute.
Defined.

(** ** Instances of the further properties *)

Lemma sample_map_reverse_Reachable :
  Reachable 8 3 sample_digest sample_map_reverse.
Proof.
  apply (set_all_Reachable 8 3 sample_digest (reverse sample_bindings)
           NewStringMap).
  - apply Reachable_new.
  - by vm_compute.
Qed.

Lemma poly_digest_lt key h : (h < 2 ^ 64 → poly_digest key h < 2 ^ 64)%N.
Proof.
  revert h. induction key as [|c key IH]; intros h Hh; [done|].
  simpl. apply IH. by apply N.mod_lt.
Qed.

Lemma sample_digest_lt key : (sample_digest key < 2 ^ 64)%N.
Proof. by apply poly_digest_lt. Qed.

Lemma sample_store_represents :
  represents 8 sample_store.2 sample_store.1 sample_map.
Proof. apply represents_check. by vm_compute. Qed.

Lemma Lookup_after_Set_witness :
  Lookup 8 3 sample_digest sample_map_set "hello" =
    (if decide (sample_digest "hello" = sample_digest "hello")
     then ("world", true)
     else Lookup 8 3 sample_digest sample_map "hello") ∧
  Lookup 8 3 sample_digest sample_map_set "a" =
    (if decide (sample_digest "a" = sample_digest "hello")
     then ("world", true)
     else Lookup 8 3 sample_digest sample_map "a").
Proof.
  split; apply (Lookup_after_Set 8 3 sample_digest sample_map "hello" "world");
    by vm_compute.
Defined.

Lemma Set_bindings_witness :
  bindings 8 sample_map_update ≡ₚ
  ("a", "one") :: others sample_digest "a" (bindings 8 sample_map).
Proof.
  apply (Set_bindings 8 3 sample_digest).
  - lia.
  - apply sample_map_Reachable.
  - by vm_compute.
Defined.

Lemma Delete_bindings_witness :
  ∃ m', Delete 8 3 sample_digest sample_map "a" = Ok m' ∧
        bindings 8 m' ≡ₚ others sample_digest "a" (bindings 8 sample_map).
Proof.
  apply (Delete_bindings 8 3 sample_digest).
  - lia.
  - apply sample_map_Reachable.
  - apply sample_map_fits.
Defined.

Lemma Lookup_bindings_witness :
  Lookup 8 3 sample_digest sample_map "q" =
  Lookup 8 3 sample_digest sample_map_reverse "q".
Proof.
  apply (Lookup_bindings 8 3 sample_digest).
  - lia.
  - apply sample_map_Reachable.
  - apply sample_map_reverse_Reachable.
  - apply (bool_decide_unpack _). by vm_compute.
Defined.

Lemma Set_panics_only_on_collision_witness :
  ∃ k0, k0 ∈ keys 8 sample_map ∧ k0 ≠ "BB" ∧
        sample_digest k0 = sample_digest "BB" ∧
        collision_message "Aa" "BB" = collision_message k0 "BB".
Proof.
  apply (Set_panics_only_on_collision 8 3 sample_digest ltac:(lia)
           sample_map "BB" "y").
  - apply sample_map_Reachable.
  - by vm_compute.
Defined.

Lemma Set_commutes_witness :
  ∃ b b', Set_ 8 3 sample_digest sample_map "x" "y" = Ok b ∧
          Set_ 8 3 sample_digest b "hello" "world" = Ok b' ∧
          bindings 8 sample_map_set_set ≡ₚ bindings 8 b' ∧
          ∀ k, Lookup 8 3 sample_digest sample_map_set_set k =
               Lookup 8 3 sample_digest b' k.
Proof.
  apply (Set_commutes 8 3 sample_digest ltac:(lia) sample_map
           "hello" "world" "x" "y" sample_map_set).
  - apply sample_map_Reachable.
  - apply (bool_decide_unpack _). by vm_compute.
  - by vm_compute.
  - by vm_compute.
Defined.

Lemma Delete_idempotent_witness :
  ∃ m', Delete 8 3 sample_digest sample_map "a" = Ok m' ∧
        Delete 8 3 sample_digest m' "a" = Ok m'.
Proof.
  apply (Delete_idempotent 8 3 sample_digest).
  - lia.
  - apply sample_map_Reachable.
  - apply sample_map_fits.
Defined.

Lemma Delete_all_keys_witness :
  delete_all 8 3 sample_digest ["b"; "i"; "a"; "q"; "Aa"] sample_map =
  Ok NewStringMap.
Proof.
  apply (Delete_all_keys 8 3 sample_digest ltac:(lia) sample_map
           ["a"; "Aa"; "i"; "q"; "b"]).
  - apply sample_map_Reachable.
  - apply sample_map_fits.
  - by vm_compute.
  - apply (bool_decide_unpack _). by vm_compute.
Defined.

Lemma IsNil_Size_witness :
  IsNil sample_map = bool_decide (Size sample_map = 0).
Proof.
  apply (IsNil_Size 8 3 sample_digest).
  - lia.
  - apply sample_map_Reachable.
  - apply sample_map_fits.
Defined.

Lemma String_renders_witness :
  String_ 8 3 sample_digest sample_map =
  Ok ("{" +:+ render (bindings 8 sample_map) +:+ "}" +:+ newline).
Proof.
  apply (String_renders 8 3 sample_digest).
  - lia.
  - apply sample_map_Reachable.
  - apply sample_map_fits.
Defined.

(** The text of the sample map. *)
Example scenario_String :
  String_ 8 3 sample_digest sample_map =
  Ok ("{a: 1, Aa: x, i: 9, q: 17, b: 2, }" +:+ newline).
Proof. by vm_compute. Qed.

Lemma subtreeCount_isLeaf_witness :
  subtreeCount 8 sample_map =
    Z.of_nat
      (length (filter (fun j => IsNil (children sample_map j) = false)
                 (slots 8))) ∧
  (isLeaf sample_map = true ↔
   IsNil sample_map = false ∧ subtreeCount 8 sample_map = 0).
Proof.
  apply (subtreeCount_isLeaf 8 ltac:(lia)).
  - apply (Reachable_counted 8 3 sample_digest).
    + lia.
    + apply sample_map_Reachable.
    + apply sample_map_fits.
  - by vm_compute.
Defined.

Lemma deleteLeftmost_order_witness :
  Size sample_leftmost.1 = 1 ∧
  ∃ pre post,
    bindings 8 sample_map =
      pre ++ (key sample_leftmost.1, value sample_leftmost.1) :: post ∧
    bindings 8 sample_leftmost.2 = pre ++ post.
Proof.
  apply (deleteLeftmost_order 8 ltac:(lia)).
  - apply (Reachable_counted 8 3 sample_digest).
    + lia.
    + apply sample_map_Reachable.
    + apply sample_map_fits.
  - by vm_compute.
Defined.

Lemma Lookup_spec_witness :
  Lookup 8 3 sample_digest sample_map "q" =
  match list_find (fun kv => sample_digest kv.1 = sample_digest "q")
          (bindings 8 sample_map) with
  | Some (_, (_, v)) => (v, true)
  | None => ("", false)
  end.
Proof.
  apply (Lookup_spec 8 3 sample_digest).
  - lia.
  - apply sample_map_Reachable.
Defined.

Lemma depth_bound_witness : (depth 8 sample_map ≤ 23)%nat.
Proof.
  apply (depth_bound 8 3 sample_digest ltac:(lia) sample_map 22).
  - apply sample_map_Reachable.
  - done.
  - apply sample_digest_lt.
  - by vm_compute.
Defined.

Lemma bounded_recursion_witness :
  (∀ k, Heap.Lookup 8 3 sample_digest 24 sample_store.1 k sample_store.2 =
        Some (Ok (Lookup 8 3 sample_digest sample_map k))) ∧
  Heap.Size sample_store.1 sample_store.2 = Some (Ok (Size sample_map)) ∧
  Heap.Keys 24 sample_store.1 sample_store.2 = Some (Keys 8 sample_map) ∧
  (∀ k v,
     match Set_ 8 3 sample_digest sample_map k v with
     | Ok t' =>
         ∃ l' h',
           Heap.Set_ 8 3 sample_digest 24 sample_store.1 k v sample_store.2 =
             Some (Ok (l', h')) ∧
           represents 8 h' l' t' ∧ represents 8 h' sample_store.1 sample_map
     | Panic msg =>
         Heap.Set_ 8 3 sample_digest 24 sample_store.1 k v sample_store.2 =
           Some (Panic msg)
     end) ∧
  (∀ k,
     match Delete 8 3 sample_digest sample_map k with
     | Ok t' =>
         ∃ l' h',
           Heap.Delete 8 3 sample_digest 24 sample_store.1 k sample_store.2 =
             Some (Ok (l', h')) ∧
           represents 8 h' l' t' ∧ represents 8 h' sample_store.1 sample_map
     | Panic msg =>
         Heap.Delete 8 3 sample_digest 24 sample_store.1 k sample_store.2 =
           Some (Panic msg)
     end).
Proof.
  apply (bounded_recursion 8 3 sample_digest ltac:(lia) sample_map
           sample_store.2 sample_store.1 22 24).
  - apply sample_map_Reachable.
  - apply sample_store_represents.
  - done.
  - apply sample_digest_lt.
  - by vm_compute.
  - lia.
Defined.

Lemma Delete_not_found_witness :
  Heap.Delete 8 3 sample_digest 4 sample_store.1 "zz" sample_store.2 =
  Some (Ok (sample_store.1, sample_store.2)).
Proof.
  apply (Delete_not_found 8 3 sample_digest ltac:(lia) sample_store.2
           sample_store.1 sample_map "zz" "" 4).
  - apply sample_store_represents.
  - apply (bool_decide_unpack _). by vm_compute.
  - by vm_compute.
Defined.

Lemma Set_fresh_root_witness :
  sample_store_set.1 = length sample_store.2 ∧
  sample_store_set.1 ≠ sample_store.1 ∧
  Heap.closed sample_store_set.2 ∧
  (length sample_store.2 < length sample_store_set.2
   ≤ length sample_store.2 + 4)%nat.
Proof.
  apply (Heap.Set_fresh_root 8 3 sample_digest 4 sample_store.2
           sample_store.1 "hello" "world").
  - apply (bool_decide_unpack _). by vm_compute.
  - apply (bool_decide_unpack _). by vm_compute.
  - by vm_compute.
Defined.

Lemma Set_allocates_witness :
  length sample_store_set.2 =
    (length sample_store.2 +
     visits 8 3 sample_map (sample_digest "hello") (sample_digest "hello"))%nat ∧
  (length sample_store_set.2 ≤ length sample_store.2 + S (depth 8 sample_map))%nat.
Proof.
  apply (Set_allocates 8 3 sample_digest ltac:(lia) 4 sample_store.2
           sample_store.1 sample_map "hello" "world" sample_store_set.1).
  - apply (bool_decide_unpack _). by vm_compute.
  - apply sample_store_represents.
  - by vm_compute.
Defined.

Lemma Delete_after_Set_witness :
  ∃ m1 m2, Set_ 8 3 sample_digest sample_map "hello" "world" = Ok m1 ∧
           Delete 8 3 sample_digest m1 "hello" = Ok m2 ∧
           bindings 8 m2 ≡ₚ bindings 8 sample_map ∧
           ∀ k', Lookup 8 3 sample_digest m2 k' =
                 Lookup 8 3 sample_digest sample_map k'.
Proof.
  apply (Delete_after_Set 8 3 sample_digest ltac:(lia) sample_map
           "hello" "world" "").
  - apply sample_map_Reachable.
  - by vm_compute.
  - by vm_compute.
Defined.

Lemma String_refines_witness :
  Heap.String_ 8 3 sample_digest 4 sample_store.1 sample_store.2 =
    Some (String_ 8 3 sample_digest sample_map) ∧
  Heap.subtreeCount sample_store.1 sample_store.2 =
    Some (Ok (subtreeCount 8 sample_map)).
Proof.
  apply (String_refines 8 3 sample_digest ltac:(lia)).
  - apply sample_store_represents.
  - apply (bool_decide_unpack _). by vm_compute.
Defined.

Lemma Set_order_witness :
  ∃ pre post,
    bindings 8 sample_map_update = pre ++ ("a", "one") :: post ∧
    (bindings 8 sample_map = pre ++ post ∨
     ∃ v0, bindings 8 sample_map = pre ++ ("a", v0) :: post).
Proof.
  apply (Set_order 8 3 sample_digest ltac:(lia) sample_map "a" "one").
  by vm_compute.
Defined.

Lemma Delete_order_witness :
  sample_map_delete = sample_map ∨
  ∃ k0 v0 pre mid r post,
    sample_digest k0 = sample_digest "a" ∧
    bindings 8 sample_map = pre ++ (k0, v0) :: mid ++ r ++ post ∧
    bindings 8 sample_map_delete = pre ++ r ++ mid ++ post ∧
    (length r ≤ 1)%nat.
Proof.
  apply (Delete_order 8 3 sample_digest ltac:(lia) sample_map "a").
  - apply sample_map_Reachable.
  - apply sample_map_fits.
  - by vm_compute.
Defined.

Lemma program_refines_witness :
  match run 8 3 sample_digest sample_program NewStringMap with
  | Ok t =>
      ∃ l h,
        Heap.run 8 3 sample_digest 24 sample_program Heap.NewStringMap
          (Heap.init 8) = Some (Ok (l, h)) ∧
        Heap.closed h ∧ represents 8 h l t
  | Panic msg =>
      Heap.run 8 3 sample_digest 24 sample_program Heap.NewStringMap
        (Heap.init 8) = Some (Panic msg)
  end ∧
  match run 8 3 sample_digest sample_program_collision NewStringMap with
  | Ok t =>
      ∃ l h,
        Heap.run 8 3 sample_digest 24 sample_program_collision
          Heap.NewStringMap (Heap.init 8) = Some (Ok (l, h)) ∧
        Heap.closed h ∧ represents 8 h l t
  | Panic msg =>
      Heap.run 8 3 sample_digest 24 sample_program_collision
        Heap.NewStringMap (Heap.init 8) = Some (Panic msg)
  end.
Proof.
  split; apply (program_refines 8 3 sample_digest ltac:(lia) _ 22 24);
    first [done | apply sample_digest_lt | by vm_compute | lia].
Defined.
